(** * SisterSync: the local task store, its sync codec and its save scheduler

    A shallow embedding of the non-presentational logic of the SisterSync
    application (the [App] component, the [Dashboard] statistics, the
    handling of the model's answers in [geminiService.ts] and the data
    types of [types.ts]) together with the properties the specification
    states about it and further properties of the code.

    Conventions of the embedding.
    - A JavaScript string is the list of its UTF-16 code units, each a [Z]
      in [0, 65536).
    - A JavaScript value that can come out of [JSON.parse] is a [value];
      numbers are the integers (timestamps, counters); a number literal with
      a fraction or an exponent lies outside the model and the model's parser
      rejects it.  Reading an absent property gives [None] (JavaScript's
      [undefined]).
    - An object is the list of its own properties in property order; the
      task collection is a list of objects, as the code builds every task
      with an object literal.  Property names are kept in the order they
      were defined; JavaScript moves names that are array indices to the
      front, which no statement here depends on.
    - Whether [JSON.parse] throws is said with [JSON_valid], a recognizer
      of the whole JSON grammar; [JSON_parse] computes the value on the
      texts whose numbers are integers.
    - [Date.now()], [Math.random()] and [crypto.randomUUID] are read from an
      [oracle], indexed by the number of reads made so far.
    - A [throw] is a [Throw] result; a [try]/[catch] is a [match] on it. *)

From Stdlib Require Import Ascii String.
From Stdlib Require Import ZArith List Bool Lia Sorted.
From Stdlib Require Decimal DecimalZ DecimalPos DecimalFacts.
Import ListNotations.
Local Open Scope Z_scope.

(* ================================================================== *)
(** * JavaScript strings and values *)
(* ================================================================== *)

Definition jsstring := list Z.

(** The code units of an ASCII literal. *)
Definition lit (x : string) : jsstring :=
  map (fun a => Z.of_N (N_of_ascii a)) (list_ascii_of_string x).

Fixpoint str_eqb (a b : jsstring) : bool :=
  match a, b with
  | [], [] => true
  | x :: a', y :: b' => (x =? y) && str_eqb a' b'
  | _, _ => false
  end.

(** A code unit is a 16-bit quantity. *)
Definition code_unit (c : Z) : Prop := 0 <= c < 65536.
Definition wf_string (s : jsstring) : Prop := Forall code_unit s.

Unset Elimination Schemes.
Inductive value : Type :=
| VNull
| VBool (b : bool)
| VNum (n : Z)
| VStr (s : jsstring)
| VArr (elems : list value)
| VObj (props : list (jsstring * value)).
Set Elimination Schemes.

Definition obj := list (jsstring * value).

(** [o.k]: the value of the own property [k], [None] for [undefined]. *)
Fixpoint get_prop (o : obj) (k : jsstring) : option value :=
  match o with
  | [] => None
  | (k', v) :: o' => if str_eqb k' k then Some v else get_prop o' k
  end.

(** Defining the data property [k]: an existing key keeps its place, a new
    key goes last. *)
Fixpoint set_prop (o : obj) (k : jsstring) (v : value) : obj :=
  match o with
  | [] => [(k, v)]
  | (k', v') :: o' =>
      if str_eqb k' k then (k, v) :: o' else (k', v') :: set_prop o' k v
  end.

(** ToBoolean. *)
Definition truthy (v : value) : bool :=
  match v with
  | VNull => false
  | VBool b => b
  | VNum n => negb (n =? 0)
  | VStr s => match s with [] => false | _ => true end
  | VArr _ | VObj _ => true
  end.

Definition truthy_opt (v : option value) : bool :=
  match v with
  | None => false
  | Some x => truthy x
  end.

(** [x === s] for a string [s]. *)
Definition strict_eq_str (x : option value) (s : jsstring) : bool :=
  match x with
  | Some (VStr s') => str_eqb s' s
  | _ => false
  end.

(* ------------------------------------------------------------------ *)
(** ** Number and string primitives *)

Fixpoint uint_digits (u : Decimal.uint) : jsstring :=
  match u with
  | Decimal.Nil => []
  | Decimal.D0 u' => 48 :: uint_digits u'
  | Decimal.D1 u' => 49 :: uint_digits u'
  | Decimal.D2 u' => 50 :: uint_digits u'
  | Decimal.D3 u' => 51 :: uint_digits u'
  | Decimal.D4 u' => 52 :: uint_digits u'
  | Decimal.D5 u' => 53 :: uint_digits u'
  | Decimal.D6 u' => 54 :: uint_digits u'
  | Decimal.D7 u' => 55 :: uint_digits u'
  | Decimal.D8 u' => 56 :: uint_digits u'
  | Decimal.D9 u' => 57 :: uint_digits u'
  end.

(** Number::toString in radix 10, on the integers. *)
Definition Number_toString (n : Z) : jsstring :=
  match Z.to_int n with
  | Decimal.Pos u => uint_digits u
  | Decimal.Neg u => 45 :: uint_digits u
  end.

Definition digit36 (d : Z) : Z := if d <? 10 then 48 + d else 87 + d.

Fixpoint to_radix36 (fuel : nat) (n : Z) (acc : jsstring) : jsstring :=
  match fuel with
  | O => acc
  | S f =>
      let acc' := digit36 (n mod 36) :: acc in
      if n <? 36 then acc' else to_radix36 f (n / 36) acc'
  end.

(** [n.toString(36)] on the integers. *)
Definition toString36 (n : Z) : jsstring :=
  let fuel := S (Z.to_nat (Z.log2 (Z.abs n))) in
  if n <? 0 then 45 :: to_radix36 fuel (- n) [] else to_radix36 fuel n [].

(** [s.substring(a, b)]. *)
Definition substring (a b : nat) (s : jsstring) : jsstring :=
  firstn (Nat.max a b - Nat.min a b) (skipn (Nat.min a b) s).

(** WhiteSpace and LineTerminator code units, as [String.prototype.trim]
    strips them. *)
Definition is_js_space (c : Z) : bool :=
  ((9 <=? c) && (c <=? 13)) || (c =? 32) || (c =? 160) || (c =? 5760)
  || ((8192 <=? c) && (c <=? 8202)) || (c =? 8232) || (c =? 8233)
  || (c =? 8239) || (c =? 8287) || (c =? 12288) || (c =? 65279).

Fixpoint trim_start (s : jsstring) : jsstring :=
  match s with
  | [] => []
  | c :: r => if is_js_space c then trim_start r else s
  end.

Definition trim (s : jsstring) : jsstring :=
  rev (trim_start (rev (trim_start s))).

(* ------------------------------------------------------------------ *)
(** ** Exceptions *)

Inductive exn : Type :=
| InvalidCharacterError
| URIError
| SyntaxError
| TypeError
| Error (msg : jsstring).

Inductive res (A : Type) : Type :=
| Ok (a : A)
| Throw (e : exn).
Arguments Ok {A} a.
Arguments Throw {A} e.

Definition res_bind {A B} (r : res A) (k : A -> res B) : res B :=
  match r with
  | Ok a => k a
  | Throw e => Throw e
  end.

(* ================================================================== *)
(** * The id generator *)
(* ================================================================== *)

(** What evaluating [crypto.randomUUID()] does at one call. *)
Inductive crypto_outcome : Type :=
| CryptoAbsent
| CryptoThrows
| CryptoUUID (uuid : jsstring).

Record oracle : Type := {
  Date_now : nat -> Z;
  Math_random_36 : nat -> jsstring;   (* Math.random().toString(36) *)
  crypto_randomUUID : nat -> crypto_outcome
}.

(** The module-level [idCounter] and the number of oracle reads so far.
    JavaScript's [%] takes the sign of the dividend: it is [Z.rem]. *)
Record world : Type := {
  idCounter : Z;
  reads : nat
}.

Definition dash : jsstring := [45].

Definition fallback_id (timestamp randomPart : jsstring) (counter : Z) : jsstring :=
  timestamp ++ dash ++ randomPart ++ dash ++ Number_toString counter.

Definition generateId (O : oracle) (w : world) : jsstring * world :=
  let k := reads w in
  let timestamp := toString36 (Date_now O k) in
  let randomPart := substring 2 8 (Math_random_36 O k) in
  let counter := Z.rem (idCounter w + 1) 10000 in
  let w' := {| idCounter := counter; reads := S k |} in
  match crypto_randomUUID O k with
  | CryptoUUID u => (u, w')
  | CryptoAbsent | CryptoThrows => (fallback_id timestamp randomPart counter, w')
  end.

(** [n] calls of [generateId] one after the other: the ids, oldest first. *)
Fixpoint generate_many (O : oracle) (n : nat) (w : world) : list jsstring * world :=
  match n with
  | O => ([], w)
  | S n' =>
      let '(i, w1) := generateId O w in
      let '(rest, w2) := generate_many O n' w1 in
      (i :: rest, w2)
  end.

(** A bare [Date.now()]. *)
Definition read_now (O : oracle) (w : world) : Z * world :=
  (Date_now O (reads w), {| idCounter := idCounter w; reads := S (reads w) |}).

(* ================================================================== *)
(** * The task store *)
(* ================================================================== *)

Inductive Priority : Type := LOW | MEDIUM | HIGH.

Definition s_Low : jsstring := Eval cbv in lit "Low".
Definition s_Medium : jsstring := Eval cbv in lit "Medium".
Definition s_High : jsstring := Eval cbv in lit "High".

Definition Priority_str (p : Priority) : jsstring :=
  match p with
  | LOW => s_Low
  | MEDIUM => s_Medium
  | HIGH => s_High
  end.

Inductive SisterName : Type := Anna | Bella | Chloe.

Definition s_Anna : jsstring := Eval cbv in lit "Anna".
Definition s_Bella : jsstring := Eval cbv in lit "Bella".
Definition s_Chloe : jsstring := Eval cbv in lit "Chloe".

Definition SisterName_str (n : SisterName) : jsstring :=
  match n with
  | Anna => s_Anna
  | Bella => s_Bella
  | Chloe => s_Chloe
  end.

Definition SISTERS : list SisterName := [Anna; Bella; Chloe].

Definition k_id : jsstring := Eval cbv in lit "id".
Definition k_title : jsstring := Eval cbv in lit "title".
Definition k_description : jsstring := Eval cbv in lit "description".
Definition k_assignee : jsstring := Eval cbv in lit "assignee".
Definition k_priority : jsstring := Eval cbv in lit "priority".
Definition k_isCompleted : jsstring := Eval cbv in lit "isCompleted".
Definition k_createdAt : jsstring := Eval cbv in lit "createdAt".

Inductive msg_type : Type := Msg_success | Msg_error.

Record AppState : Type := {
  tasks : list obj;
  isAddModalOpen : bool;
  isSettingsOpen : bool;
  manualTitle : jsstring;
  manualAssignee : SisterName;
  manualPriority : Priority;
  importCode : jsstring;
  syncMessage : option (jsstring * msg_type);
  env : world
}.

(** [setImportCode(code)]: the text typed or pasted into the import box. *)
Definition setImportCode (code : jsstring) (st : AppState) : AppState :=
  {| tasks := tasks st;
     isAddModalOpen := isAddModalOpen st;
     isSettingsOpen := isSettingsOpen st;
     manualTitle := manualTitle st;
     manualAssignee := manualAssignee st;
     manualPriority := manualPriority st;
     importCode := code;
     syncMessage := syncMessage st;
     env := env st |}.

(** [setManualTitle(title)]: the text typed into the title field. *)
Definition setManualTitle (title : jsstring) (st : AppState) : AppState :=
  {| tasks := tasks st;
     isAddModalOpen := isAddModalOpen st;
     isSettingsOpen := isSettingsOpen st;
     manualTitle := title;
     manualAssignee := manualAssignee st;
     manualPriority := manualPriority st;
     importCode := importCode st;
     syncMessage := syncMessage st;
     env := env st |}.

(** [t.id === taskId]. *)
Definition id_is (taskId : jsstring) (t : obj) : bool :=
  strict_eq_str (get_prop t k_id) taskId.

(** [{ ...t, isCompleted: !t.isCompleted }]. *)
Definition flipped (t : obj) : obj :=
  set_prop t k_isCompleted (VBool (negb (truthy_opt (get_prop t k_isCompleted)))).

Definition toggleTask (taskId : jsstring) (prev : list obj) : list obj :=
  map (fun t => if id_is taskId t then flipped t else t) prev.

Definition deleteTask (taskId : jsstring) (prev : list obj) : list obj :=
  filter (fun t => negb (id_is taskId t)) prev.

Definition newTask (id title : jsstring) (a : SisterName) (p : Priority) (now : Z) : obj :=
  [ (k_id, VStr id);
    (k_title, VStr title);
    (k_assignee, VStr (SisterName_str a));
    (k_priority, VStr (Priority_str p));
    (k_isCompleted, VBool false);
    (k_createdAt, VNum now) ].

Definition handleManualAdd (O : oracle) (st : AppState) : AppState :=
  match trim (manualTitle st) with
  | [] => st
  | _ :: _ =>
      let '(id, w1) := generateId O (env st) in
      let '(now, w2) := read_now O w1 in
      {| tasks := newTask id (trim (manualTitle st)) (manualAssignee st)
                    (manualPriority st) now :: tasks st;
         isAddModalOpen := false;
         isSettingsOpen := isSettingsOpen st;
         manualTitle := [];
         manualAssignee := Anna;
         manualPriority := MEDIUM;
         importCode := importCode st;
         syncMessage := syncMessage st;
         env := w2 |}
  end.

(* ================================================================== *)
(** * The sync codec's platform primitives *)
(* ================================================================== *)

Definition res_map {A B} (f : A -> B) (r : res A) : res B :=
  match r with
  | Ok a => Ok (f a)
  | Throw e => Throw e
  end.

Fixpoint traverse {A B} (f : A -> option B) (l : list A) : option (list B) :=
  match l with
  | [] => Some []
  | x :: l' =>
      match f x, traverse f l' with
      | Some y, Some ys => Some (y :: ys)
      | _, _ => None
      end
  end.

(* ------------------------------------------------------------------ *)
(** ** [btoa] and [atob] (base64, with the forgiving decoder) *)

Definition b64_char (n : Z) : Z :=
  if n <? 26 then 65 + n
  else if n <? 52 then 71 + n
  else if n <? 62 then n - 4
  else if n =? 62 then 43
  else 47.

Definition b64_val (c : Z) : option Z :=
  if (65 <=? c) && (c <=? 90) then Some (c - 65)
  else if (97 <=? c) && (c <=? 122) then Some (c - 71)
  else if (48 <=? c) && (c <=? 57) then Some (c + 4)
  else if c =? 43 then Some 62
  else if c =? 47 then Some 63
  else None.

(** Three octets become four 6-bit groups; a short last group is filled
    with zero bits. *)
Fixpoint sextets (bytes : list Z) : list Z :=
  match bytes with
  | [] => []
  | a :: [] => [a / 4; (a mod 4) * 16]
  | a :: b :: [] => [a / 4; (a mod 4) * 16 + b / 16; (b mod 16) * 4]
  | a :: b :: c :: rest =>
      a / 4 :: (a mod 4) * 16 + b / 16 :: (b mod 16) * 4 + c / 64 :: c mod 64
        :: sextets rest
  end.

Definition b64_padding (n : nat) : jsstring :=
  repeat 61 ((4 - n mod 4) mod 4)%nat.

Definition is_byte (c : Z) : bool := (0 <=? c) && (c <=? 255).

Definition btoa (s : jsstring) : res jsstring :=
  if forallb is_byte s then
    let q := map b64_char (sextets s) in
    Ok (q ++ b64_padding (length q))
  else Throw InvalidCharacterError.

Definition is_ascii_ws (c : Z) : bool :=
  (c =? 9) || (c =? 10) || (c =? 12) || (c =? 13) || (c =? 32).

(** When the length is a multiple of four, one or two trailing [=] go. *)
Definition strip_padding (d : jsstring) : jsstring :=
  if (length d mod 4 =? 0)%nat then
    match rev d with
    | [] => d
    | c1 :: r1 =>
        if c1 =? 61 then
          match r1 with
          | [] => rev r1
          | c2 :: r2 => if c2 =? 61 then rev r2 else rev r1
          end
        else d
    end
  else d.

(** Four 6-bit groups become three octets; of a short last group the
    surplus bits are dropped. *)
Fixpoint unsextets (q : list Z) : list Z :=
  match q with
  | w :: x :: y :: z :: rest =>
      w * 4 + x / 16 :: (x mod 16) * 16 + y / 4 :: (y mod 4) * 64 + z
        :: unsextets rest
  | w :: x :: y :: [] => [w * 4 + x / 16; (x mod 16) * 16 + y / 4]
  | w :: x :: [] => [w * 4 + x / 16]
  | _ => []
  end.

Definition atob (s : jsstring) : res jsstring :=
  let d := strip_padding (filter (fun c => negb (is_ascii_ws c)) s) in
  if (length d mod 4 =? 1)%nat then Throw InvalidCharacterError
  else
    match traverse b64_val d with
    | None => Throw InvalidCharacterError
    | Some q => Ok (unsextets q)
    end.

(* ------------------------------------------------------------------ *)
(** ** [encodeURIComponent] and [decodeURIComponent] *)

Definition in_range (lo hi c : Z) : bool := (lo <=? c) && (c <=? hi).

Definition is_digit (c : Z) : bool := in_range 48 57 c.

Definition is_alnum (c : Z) : bool :=
  is_digit c || in_range 65 90 c || in_range 97 122 c.

(** Alphanumerics and [- _ . ! ~ * ' ( )]. *)
Definition uri_unreserved (c : Z) : bool :=
  is_alnum c || (c =? 45) || (c =? 95) || (c =? 46) || (c =? 33)
  || (c =? 126) || (c =? 42) || (c =? 39) || (c =? 40) || (c =? 41).

Definition hex_upper (n : Z) : Z := if n <? 10 then 48 + n else 55 + n.
Definition hex_lower (n : Z) : Z := if n <? 10 then 48 + n else 87 + n.

Definition hex_val (c : Z) : option Z :=
  if is_digit c then Some (c - 48)
  else if in_range 65 70 c then Some (c - 55)
  else if in_range 97 102 c then Some (c - 87)
  else None.

Definition hex_byte (h l : Z) : option Z :=
  match hex_val h, hex_val l with
  | Some a, Some b => Some (a * 16 + b)
  | _, _ => None
  end.

Definition pct (b : Z) : jsstring := [37; hex_upper (b / 16); hex_upper (b mod 16)].

Definition is_high (c : Z) : bool := in_range 55296 56319 c.
Definition is_low (c : Z) : bool := in_range 56320 57343 c.

Definition pair_cp (hi lo : Z) : Z := 65536 + (hi - 55296) * 1024 + (lo - 56320).

Definition utf8 (cp : Z) : list Z :=
  if cp <? 128 then [cp]
  else if cp <? 2048 then [192 + cp / 64; 128 + cp mod 64]
  else if cp <? 65536 then
    [224 + cp / 4096; 128 + (cp / 64) mod 64; 128 + cp mod 64]
  else
    [240 + cp / 262144; 128 + (cp / 4096) mod 64; 128 + (cp / 64) mod 64;
     128 + cp mod 64].

Definition utf16 (cp : Z) : jsstring :=
  if cp <? 65536 then [cp]
  else [55296 + (cp - 65536) / 1024; 56320 + (cp - 65536) mod 1024].

Definition escape_cp (cp : Z) : jsstring := concat (map pct (utf8 cp)).

Fixpoint encodeURIComponent (s : jsstring) : res jsstring :=
  match s with
  | [] => Ok []
  | c :: r =>
      if uri_unreserved c then res_map (cons c) (encodeURIComponent r)
      else if is_low c then Throw URIError
      else if is_high c then
        match r with
        | [] => Throw URIError
        | d :: r' =>
            if is_low d
            then res_map (app (escape_cp (pair_cp c d))) (encodeURIComponent r')
            else Throw URIError
        end
      else res_map (app (escape_cp c)) (encodeURIComponent r)
  end.

(** A continuation octet [%XX] with [XX] in [80, BF]: its six payload bits. *)
Definition cont_bits (p h l : Z) : option Z :=
  if p =? 37 then
    match hex_byte h l with
    | Some b => if in_range 128 191 b then Some (b - 128) else None
    | None => None
    end
  else None.

Definition valid2 (cp : Z) : bool := 128 <=? cp.
Definition valid3 (cp : Z) : bool := (2048 <=? cp) && negb (in_range 55296 57343 cp).
Definition valid4 (cp : Z) : bool := in_range 65536 1114111 cp.

Fixpoint decodeURIComponent (s : jsstring) : res jsstring :=
  match s with
  | [] => Ok []
  | c :: r =>
      if negb (c =? 37) then res_map (cons c) (decodeURIComponent r)
      else
        match r with
        | h1 :: l1 :: r2 =>
            match hex_byte h1 l1 with
            | None => Throw URIError
            | Some b =>
                if b <? 128 then res_map (cons b) (decodeURIComponent r2)
                else if b <? 192 then Throw URIError
                else if b <? 224 then
                  match r2 with
                  | p2 :: h2 :: l2 :: r5 =>
                      match cont_bits p2 h2 l2 with
                      | Some x2 =>
                          let cp := (b - 192) * 64 + x2 in
                          if valid2 cp
                          then res_map (app (utf16 cp)) (decodeURIComponent r5)
                          else Throw URIError
                      | None => Throw URIError
                      end
                  | _ => Throw URIError
                  end
                else if b <? 240 then
                  match r2 with
                  | p2 :: h2 :: l2 :: p3 :: h3 :: l3 :: r8 =>
                      match cont_bits p2 h2 l2, cont_bits p3 h3 l3 with
                      | Some x2, Some x3 =>
                          let cp := (b - 224) * 4096 + x2 * 64 + x3 in
                          if valid3 cp
                          then res_map (app (utf16 cp)) (decodeURIComponent r8)
                          else Throw URIError
                      | _, _ => Throw URIError
                      end
                  | _ => Throw URIError
                  end
                else if b <? 248 then
                  match r2 with
                  | p2 :: h2 :: l2 :: p3 :: h3 :: l3 :: p4 :: h4 :: l4 :: r11 =>
                      match cont_bits p2 h2 l2, cont_bits p3 h3 l3,
                            cont_bits p4 h4 l4 with
                      | Some x2, Some x3, Some x4 =>
                          let cp := (b - 240) * 262144 + x2 * 4096 + x3 * 64 + x4 in
                          if valid4 cp
                          then res_map (app (utf16 cp)) (decodeURIComponent r11)
                          else Throw URIError
                      | _, _, _ => Throw URIError
                      end
                  | _ => Throw URIError
                  end
                else Throw URIError
            end
        | _ => Throw URIError
        end
  end.

(* ------------------------------------------------------------------ *)
(** ** [JSON.stringify] *)

Definition u_escape (c : Z) : jsstring :=
  [92; 117; hex_lower (c / 4096); hex_lower ((c / 256) mod 16);
   hex_lower ((c / 16) mod 16); hex_lower (c mod 16)].

(** QuoteJSONString without the surrounding quotes: the short escapes, a
    [\uXXXX] for the other control characters and for a surrogate that has
    no partner, every other code unit as it is. *)
Fixpoint quote_body (s : jsstring) : jsstring :=
  match s with
  | [] => []
  | c :: r =>
      if c =? 8 then 92 :: 98 :: quote_body r
      else if c =? 9 then 92 :: 116 :: quote_body r
      else if c =? 10 then 92 :: 110 :: quote_body r
      else if c =? 12 then 92 :: 102 :: quote_body r
      else if c =? 13 then 92 :: 114 :: quote_body r
      else if c =? 34 then 92 :: 34 :: quote_body r
      else if c =? 92 then 92 :: 92 :: quote_body r
      else if c <? 32 then u_escape c ++ quote_body r
      else if is_low c then u_escape c ++ quote_body r
      else if is_high c then
        match r with
        | [] => u_escape c
        | d :: r' =>
            if is_low d then c :: d :: quote_body r'
            else u_escape c ++ quote_body r
        end
      else c :: quote_body r
  end.

Definition quote (s : jsstring) : jsstring := 34 :: quote_body s ++ [34].

Fixpoint join_comma (parts : list jsstring) : jsstring :=
  match parts with
  | [] => []
  | p :: ps =>
      match ps with
      | [] => p
      | _ :: _ => p ++ 44 :: join_comma ps
      end
  end.

Definition s_null : jsstring := Eval cbv in lit "null".
Definition s_true : jsstring := Eval cbv in lit "true".
Definition s_false : jsstring := Eval cbv in lit "false".

Fixpoint JSON_stringify (v : value) : jsstring :=
  match v with
  | VNull => s_null
  | VBool true => s_true
  | VBool false => s_false
  | VNum n => Number_toString n
  | VStr s => quote s
  | VArr l => 91 :: join_comma (map JSON_stringify l) ++ [93]
  | VObj ps =>
      123 :: join_comma
               (map (fun kv => quote (fst kv) ++ 58 :: JSON_stringify (snd kv)) ps)
          ++ [125]
  end.

(* ------------------------------------------------------------------ *)
(** ** [JSON.parse] *)

Definition is_json_ws (c : Z) : bool :=
  (c =? 32) || (c =? 9) || (c =? 10) || (c =? 13).

Fixpoint skip_ws (s : jsstring) : jsstring :=
  match s with
  | [] => []
  | c :: r => if is_json_ws c then skip_ws r else s
  end.

Definition hex4 (a b c d : Z) : option Z :=
  match hex_val a, hex_val b, hex_val c, hex_val d with
  | Some x, Some y, Some z, Some w => Some (((x * 16 + y) * 16 + z) * 16 + w)
  | _, _, _, _ => None
  end.

(** The character a single-letter escape stands for. *)
Definition unescape (e : Z) : option Z :=
  if e =? 34 then Some 34
  else if e =? 92 then Some 92
  else if e =? 47 then Some 47
  else if e =? 98 then Some 8
  else if e =? 102 then Some 12
  else if e =? 110 then Some 10
  else if e =? 114 then Some 13
  else if e =? 116 then Some 9
  else None.

Definition cons_fst {A} (c : Z) (r : option (jsstring * A)) : option (jsstring * A) :=
  match r with
  | Some (s, rest) => Some (c :: s, rest)
  | None => None
  end.

(** The characters of a string literal after its opening quote, up to and
    including the closing quote. *)
Fixpoint parse_string_body (s : jsstring) : option (jsstring * jsstring) :=
  match s with
  | [] => None
  | c :: r =>
      if c =? 34 then Some ([], r)
      else if c =? 92 then
        match r with
        | [] => None
        | e :: r1 =>
            if e =? 117 then
              match r1 with
              | h1 :: h2 :: h3 :: h4 :: r5 =>
                  match hex4 h1 h2 h3 h4 with
                  | Some u => cons_fst u (parse_string_body r5)
                  | None => None
                  end
              | _ => None
              end
            else
              match unescape e with
              | Some u => cons_fst u (parse_string_body r1)
              | None => None
              end
        end
      else if c <? 32 then None
      else cons_fst c (parse_string_body r)
  end.

Fixpoint take_digits (s : jsstring) : jsstring * jsstring :=
  match s with
  | [] => ([], [])
  | c :: r =>
      if is_digit c then let '(ds, rest) := take_digits r in (c :: ds, rest)
      else ([], s)
  end.

Definition digit_step (acc d : Z) : Z := acc * 10 + (d - 48).

Definition digits_value (ds : jsstring) : Z := fold_left digit_step ds 0.

(** A fraction or an exponent follows. *)
Definition starts_fraction (s : jsstring) : bool :=
  match s with
  | [] => false
  | c :: _ => (c =? 46) || (c =? 101) || (c =? 69)
  end.

(** An integer literal: an optional minus, then [0] or a digit string that
    does not start with [0]. *)
Definition parse_number (s : jsstring) : option (Z * jsstring) :=
  let '(neg, s1) :=
    match s with
    | [] => (false, s)
    | c :: r => if c =? 45 then (true, r) else (false, s)
    end in
  let '(ds, rest) := take_digits s1 in
  match ds with
  | [] => None
  | d :: ds' =>
      if (d =? 48) && (match ds' with [] => false | _ => true end) then None
      else if starts_fraction rest then None
      else Some (if neg then - digits_value ds else digits_value ds, rest)
  end.

Fixpoint expect (word s : jsstring) : option jsstring :=
  match word with
  | [] => Some s
  | w :: word' =>
      match s with
      | [] => None
      | c :: r => if c =? w then expect word' r else None
      end
  end.

(** CreateDataProperty for each member in turn: a repeated key keeps its
    first place and takes the last value. *)
Definition mk_object (members : list (jsstring * value)) : obj :=
  fold_left (fun o kv => set_prop o (fst kv) (snd kv)) members [].

Fixpoint parse_value (fuel : nat) (s : jsstring) : option (value * jsstring) :=
  match fuel with
  | O => None
  | S f =>
      match skip_ws s with
      | [] => None
      | c :: r =>
          if c =? 110 then option_map (pair VNull) (expect (tl s_null) r)
          else if c =? 116 then option_map (pair (VBool true)) (expect (tl s_true) r)
          else if c =? 102 then option_map (pair (VBool false)) (expect (tl s_false) r)
          else if c =? 34 then
            match parse_string_body r with
            | Some (str, rest) => Some (VStr str, rest)
            | None => None
            end
          else if c =? 91 then
            match skip_ws r with
            | [] => None
            | c' :: r' =>
                if c' =? 93 then Some (VArr [], r')
                else
                  match parse_elements f r with
                  | Some (vs, rest) => Some (VArr vs, rest)
                  | None => None
                  end
            end
          else if c =? 123 then
            match skip_ws r with
            | [] => None
            | c' :: r' =>
                if c' =? 125 then Some (VObj [], r')
                else
                  match parse_members f r with
                  | Some (ms, rest) => Some (VObj (mk_object ms), rest)
                  | None => None
                  end
            end
          else if (c =? 45) || is_digit c then
            match parse_number (c :: r) with
            | Some (n, rest) => Some (VNum n, rest)
            | None => None
            end
          else None
      end
  end
with parse_elements (fuel : nat) (s : jsstring) : option (list value * jsstring) :=
  match fuel with
  | O => None
  | S f =>
      match parse_value f s with
      | None => None
      | Some (v, r) =>
          match skip_ws r with
          | [] => None
          | c :: r' =>
              if c =? 44 then
                match parse_elements f r' with
                | Some (vs, rest) => Some (v :: vs, rest)
                | None => None
                end
              else if c =? 93 then Some ([v], r')
              else None
          end
      end
  end
with parse_members (fuel : nat) (s : jsstring)
  : option (list (jsstring * value) * jsstring) :=
  match fuel with
  | O => None
  | S f =>
      match skip_ws s with
      | [] => None
      | q :: r0 =>
          if q =? 34 then
            match parse_string_body r0 with
            | None => None
            | Some (k, r1) =>
                match skip_ws r1 with
                | [] => None
                | colon :: r2 =>
                    if colon =? 58 then
                      match parse_value f r2 with
                      | None => None
                      | Some (v, r3) =>
                          match skip_ws r3 with
                          | [] => None
                          | c :: r4 =>
                              if c =? 44 then
                                match parse_members f r4 with
                                | Some (ms, rest) => Some ((k, v) :: ms, rest)
                                | None => None
                                end
                              else if c =? 125 then Some ([(k, v)], r4)
                              else None
                          end
                      end
                    else None
                end
            end
          else None
      end
  end.

Definition JSON_parse (s : jsstring) : res value :=
  match parse_value (S (length s)) s with
  | Some (v, rest) =>
      match skip_ws rest with
      | [] => Ok v
      | _ :: _ => Throw SyntaxError
      end
  | None => Throw SyntaxError
  end.

(* ------------------------------------------------------------------ *)
(** ** The texts [JSON.parse] accepts *)

(** [JSON.parse] accepts every number of the JSON grammar, with a fraction
    and an exponent; the recognizer below follows the grammar in full, so
    that whether [JSON.parse] throws can be said of every text, also of
    those whose numbers the model cannot hold. *)

(** An optional fraction: a point and at least one digit. *)
Definition scan_fraction (s : jsstring) : option jsstring :=
  match s with
  | [] => Some s
  | c :: r =>
      if c =? 46 then
        match take_digits r with
        | ([], _) => None
        | (_ :: _, rest) => Some rest
        end
      else Some s
  end.

(** An optional exponent: [e] or [E], an optional sign and at least one
    digit. *)
Definition scan_exponent (s : jsstring) : option jsstring :=
  match s with
  | [] => Some s
  | c :: r =>
      if (c =? 101) || (c =? 69) then
        let r1 := match r with
                  | [] => r
                  | g :: r' => if (g =? 43) || (g =? 45) then r' else r
                  end in
        match take_digits r1 with
        | ([], _) => None
        | (_ :: _, rest) => Some rest
        end
      else Some s
  end.

(** A number literal: an optional minus, [0] or a digit string that does
    not start with [0], then the optional fraction and exponent. *)
Definition scan_number (s : jsstring) : option jsstring :=
  let s1 :=
    match s with
    | [] => s
    | c :: r => if c =? 45 then r else s
    end in
  let '(ds, rest) := take_digits s1 in
  match ds with
  | [] => None
  | d :: ds' =>
      if (d =? 48) && (match ds' with [] => false | _ => true end) then None
      else
        match scan_fraction rest with
        | Some rest1 => scan_exponent rest1
        | None => None
        end
  end.

Fixpoint scan_value (fuel : nat) (s : jsstring) : option jsstring :=
  match fuel with
  | O => None
  | S f =>
      match skip_ws s with
      | [] => None
      | c :: r =>
          if c =? 110 then expect (tl s_null) r
          else if c =? 116 then expect (tl s_true) r
          else if c =? 102 then expect (tl s_false) r
          else if c =? 34 then
            match parse_string_body r with
            | Some (_, rest) => Some rest
            | None => None
            end
          else if c =? 91 then
            match skip_ws r with
            | [] => None
            | c' :: r' => if c' =? 93 then Some r' else scan_elements f r
            end
          else if c =? 123 then
            match skip_ws r with
            | [] => None
            | c' :: r' => if c' =? 125 then Some r' else scan_members f r
            end
          else if (c =? 45) || is_digit c then scan_number (c :: r)
          else None
      end
  end
with scan_elements (fuel : nat) (s : jsstring) : option jsstring :=
  match fuel with
  | O => None
  | S f =>
      match scan_value f s with
      | None => None
      | Some r =>
          match skip_ws r with
          | [] => None
          | c :: r' =>
              if c =? 44 then scan_elements f r'
              else if c =? 93 then Some r'
              else None
          end
      end
  end
with scan_members (fuel : nat) (s : jsstring) : option jsstring :=
  match fuel with
  | O => None
  | S f =>
      match skip_ws s with
      | [] => None
      | q :: r0 =>
          if q =? 34 then
            match parse_string_body r0 with
            | None => None
            | Some (_, r1) =>
                match skip_ws r1 with
                | [] => None
                | colon :: r2 =>
                    if colon =? 58 then
                      match scan_value f r2 with
                      | None => None
                      | Some r3 =>
                          match skip_ws r3 with
                          | [] => None
                          | c :: r4 =>
                              if c =? 44 then scan_members f r4
                              else if c =? 125 then Some r4
                              else None
                          end
                      end
                    else None
                end
            end
          else None
      end
  end.

(** [JSON.parse(s)] does not throw a [SyntaxError]. *)
Definition JSON_valid (s : jsstring) : bool :=
  match scan_value (S (length s)) s with
  | Some rest => match skip_ws rest with [] => true | _ :: _ => false end
  | None => false
  end.

(** The text is that of an array: [JSON.parse(s)] does not throw and
    [Array.isArray] holds of its result. *)
Definition array_text (s : jsstring) : bool :=
  JSON_valid s && match skip_ws s with c :: _ => c =? 91 | [] => false end.

(* ================================================================== *)
(** * Computations that read the oracle and may throw *)
(* ================================================================== *)

Definition M (A : Type) : Type := world -> res A * world.

Definition ret {A} (a : A) : M A := fun w => (Ok a, w).

Definition bind {A B} (m : M A) (k : A -> M B) : M B :=
  fun w =>
    match m w with
    | (Ok a, w') => k a w'
    | (Throw e, w') => (Throw e, w')
    end.

Definition lift {A} (r : res A) : M A := fun w => (r, w).

Notation "x <- m ;; k" := (bind m (fun x => k))
  (at level 61, m at next level, right associativity).

Fixpoint mapM {A B} (f : A -> M B) (l : list A) : M (list B) :=
  match l with
  | [] => ret []
  | x :: l' => y <- f x ;; ys <- mapM f l' ;; ret (y :: ys)
  end.

Definition fresh_id (O : oracle) : M value :=
  fun w => let '(i, w') := generateId O w in (Ok (VStr i), w').

Definition current_time (O : oracle) : M value :=
  fun w => let '(n, w') := read_now O w in (Ok (VNum n), w').

(** [x || e]: [x] when it is truthy, else the value of [e]. *)
Definition or_else (x : option value) (e : M value) : M value :=
  match x with
  | Some v => if truthy v then ret v else e
  | None => e
  end.

(* ================================================================== *)
(** * Validation and migration of external data *)
(* ================================================================== *)

Fixpoint indexed {A} (i : nat) (l : list A) : list (jsstring * A) :=
  match l with
  | [] => []
  | x :: l' => (Number_toString (Z.of_nat i), x) :: indexed (S i) l'
  end.

(** [{ ...t }]: the own enumerable properties of [t]; an array and a string
    have their indices, [null] and the other primitives none. *)
Definition own_props (t : value) : obj :=
  match t with
  | VObj ps => ps
  | VArr l => indexed 0 l
  | VStr s => indexed 0 (map (fun c => VStr [c]) s)
  | VNull | VBool _ | VNum _ => []
  end.

(** [t.k] for the names the code reads ([id], [isCompleted], [createdAt]),
    which no built-in prototype defines: a [TypeError] on [null]. *)
Definition member (t : value) (k : jsstring) : res (option value) :=
  match t with
  | VNull => Throw TypeError
  | VObj ps => Ok (get_prop ps k)
  | VBool _ | VNum _ | VStr _ | VArr _ => Ok None
  end.

(** The migration of the load path:
    [{ ...t, id: t.id || generateId(), createdAt: t.createdAt || Date.now() }]. *)
Definition load_fix (O : oracle) (t : value) : M obj :=
  id0 <- lift (member t k_id) ;;
  id1 <- or_else id0 (fresh_id O) ;;
  at0 <- lift (member t k_createdAt) ;;
  at1 <- or_else at0 (current_time O) ;;
  ret (set_prop (set_prop (own_props t) k_id id1) k_createdAt at1).

(** The fix-up of the import path:
    [{ ...t, id: t.id || generateId(), isCompleted: !!t.isCompleted }]. *)
Definition import_fix (O : oracle) (t : value) : M obj :=
  id0 <- lift (member t k_id) ;;
  id1 <- or_else id0 (fresh_id O) ;;
  done0 <- lift (member t k_isCompleted) ;;
  ret (set_prop (set_prop (own_props t) k_id id1) k_isCompleted
         (VBool (truthy_opt done0))).

(** The initializer of the [tasks] state, from the stored item
    ([None] when [getItem] gives [null]). *)
Definition loadTasks (O : oracle) (saved : option jsstring) (w : world)
  : list obj * world :=
  match saved with
  | None | Some [] => ([], w)
  | Some (c :: s) =>
      match JSON_parse (c :: s) with
      | Ok (VArr parsed) =>
          match mapM (load_fix O) parsed w with
          | (Ok ts, w') => (ts, w')
          | (Throw _, w') => ([], w')
          end
      | Ok _ => ([], w)
      | Throw _ => ([], w)
      end
  end.

(* ------------------------------------------------------------------ *)
(** ** Export and import of sync codes *)

Definition s_export_error : jsstring := Eval cbv in lit "Error generating code".
Definition s_not_a_list : jsstring := Eval cbv in lit "Not a list".
Definition s_import_ok : jsstring := Eval cbv in lit "Tasks updated successfully!".
Definition s_import_bad : jsstring :=
  Eval cbv in lit "Invalid code. Please check and try again.".

Definition tasks_value (ts : list obj) : value := VArr (map VObj ts).

Definition getExportCode (ts : list obj) : jsstring :=
  match res_bind (encodeURIComponent (JSON_stringify (tasks_value ts))) btoa with
  | Ok code => code
  | Throw _ => s_export_error
  end.

(** The text-level stages of an import, up to the parsed value. *)
Definition decode_stages (code : jsstring) : res value :=
  res_bind (res_bind (atob (trim code)) decodeURIComponent) JSON_parse.

(** The body of the [try] block of [handleImport]. *)
Definition import_body (O : oracle) (code : jsstring) : M (list obj) :=
  importedData <- lift (decode_stages code) ;;
  match importedData with
  | VArr l => mapM (import_fix O) l
  | _ => lift (Throw (Error s_not_a_list))
  end.

(** [handleImport].  The timer that clears the message and closes the
    settings panel 1.5 s after a success touches neither the collection nor
    the import text and is left out. *)
Definition handleImport (O : oracle) (st : AppState) : AppState :=
  match trim (importCode st) with
  | [] => st
  | _ :: _ =>
      match import_body O (importCode st) (env st) with
      | (Ok validTasks, w') =>
          {| tasks := validTasks;
             isAddModalOpen := isAddModalOpen st;
             isSettingsOpen := isSettingsOpen st;
             manualTitle := manualTitle st;
             manualAssignee := manualAssignee st;
             manualPriority := manualPriority st;
             importCode := [];
             syncMessage := Some (s_import_ok, Msg_success);
             env := w' |}
      | (Throw _, w') =>
          {| tasks := tasks st;
             isAddModalOpen := isAddModalOpen st;
             isSettingsOpen := isSettingsOpen st;
             manualTitle := manualTitle st;
             manualAssignee := manualAssignee st;
             manualPriority := manualPriority st;
             importCode := importCode st;
             syncMessage := Some (s_import_bad, Msg_error);
             env := w' |}
      end
  end.

(* ------------------------------------------------------------------ *)
(** ** Well-formed collections *)

Definition code_unitb (c : Z) : bool := (0 <=? c) && (c <? 65536).
Definition wf_stringb (s : jsstring) : bool := forallb code_unitb s.

Definition safe_integerb (n : Z) : bool :=
  (- 9007199254740991 <=? n) && (n <=? 9007199254740991).

Fixpoint nodup_keys (ks : list jsstring) : bool :=
  match ks with
  | [] => true
  | k :: ks' => negb (existsb (str_eqb k) ks') && nodup_keys ks'
  end.

(** The values [JSON.stringify] and the model represent exactly: strings
    of code units, safe integers, objects whose keys are distinct. *)
Fixpoint representable (v : value) : bool :=
  match v with
  | VNull | VBool _ => true
  | VNum n => safe_integerb n
  | VStr s => wf_stringb s
  | VArr l => forallb representable l
  | VObj ps =>
      nodup_keys (map fst ps)
      && forallb (fun kv => wf_stringb (fst kv) && representable (snd kv)) ps
  end.

Definition is_boolean (x : option value) : bool :=
  match x with
  | Some (VBool _) => true
  | _ => false
  end.

(** A valid task: a representable object with a truthy [id] and a boolean
    [isCompleted]. *)
Definition valid_task (t : obj) : bool :=
  representable (VObj t)
  && truthy_opt (get_prop t k_id)
  && is_boolean (get_prop t k_isCompleted).

Definition valid_collection (ts : list obj) : bool := forallb valid_task ts.

(* ================================================================== *)
(** * The save effect: debounced persistence *)
(* ================================================================== *)

Inductive SaveStatus : Type := St_saved | St_saving | St_error.

(** What a pending timer will run: [saveTasks], closed over the collection
    of the render that scheduled it, or [() => setSaveStatus('saved')]. *)
Inductive callback : Type :=
| CbSaveTasks (snapshot : list obj)
| CbSetSaved.

Record timer : Type := {
  timer_id : nat;
  due : Z;
  cb : callback
}.

Record Sched : Type := {
  clock : Z;                                (* milliseconds *)
  cur_tasks : list obj;                     (* the [tasks] state *)
  queue : list timer;                       (* pending timers, oldest first *)
  next_timer : nat;
  effect_timer : option nat;                (* [timeoutId] of the last effect *)
  saveStatus : SaveStatus;
  status_log : list SaveStatus;             (* every [setSaveStatus], in order *)
  storage : option jsstring;                (* the [sisterSyncTasks] item *)
  setItem_calls : list (jsstring * bool)    (* payload, and whether it was stored *)
}.

Definition clearTimeout (id : option nat) (q : list timer) : list timer :=
  match id with
  | None => q
  | Some i => filter (fun tm => negb (Nat.eqb (timer_id tm) i)) q
  end.

(** The component mounts at time [t0]: the effect runs once. *)
Definition mount (t0 : Z) (initial : list obj) (stored : option jsstring) : Sched :=
  {| clock := t0;
     cur_tasks := initial;
     queue := [ {| timer_id := 0; due := t0 + 500; cb := CbSaveTasks initial |} ];
     next_timer := 1;
     effect_timer := Some 0%nat;
     saveStatus := St_saved;
     status_log := [];
     storage := stored;
     setItem_calls := [] |}.

(** [setTasks(new)]: the next render cleans up the previous effect
    ([clearTimeout(timeoutId)]) and runs it again
    ([setTimeout(saveTasks, 500)]). *)
Definition setTasks (new : list obj) (s : Sched) : Sched :=
  {| clock := clock s;
     cur_tasks := new;
     queue := clearTimeout (effect_timer s) (queue s)
              ++ [ {| timer_id := next_timer s; due := clock s + 500;
                      cb := CbSaveTasks new |} ];
     next_timer := S (next_timer s);
     effect_timer := Some (next_timer s);
     saveStatus := saveStatus s;
     status_log := status_log s;
     storage := storage s;
     setItem_calls := setItem_calls s |}.

(** [saveTasks] over the collection [snapshot]; [throws] says whether this
    call of [localStorage.setItem] throws.  The status is set to [saving],
    then the item is written; on success a timer will set [saved] 500 ms
    later, on failure the [catch] sets [error] (its [console.error] and
    [alert] are left out). *)
Definition saveTasks (throws : bool) (snapshot : list obj) (s : Sched) : Sched :=
  let payload := JSON_stringify (tasks_value snapshot) in
  if throws then
    {| clock := clock s;
       cur_tasks := cur_tasks s;
       queue := queue s;
       next_timer := next_timer s;
       effect_timer := effect_timer s;
       saveStatus := St_error;
       status_log := status_log s ++ [St_saving; St_error];
       storage := storage s;
       setItem_calls := setItem_calls s ++ [(payload, false)] |}
  else
    {| clock := clock s;
       cur_tasks := cur_tasks s;
       queue := queue s ++ [ {| timer_id := next_timer s; due := clock s + 500;
                                cb := CbSetSaved |} ];
       next_timer := S (next_timer s);
       effect_timer := effect_timer s;
       saveStatus := St_saving;
       status_log := status_log s ++ [St_saving];
       storage := Some payload;
       setItem_calls := setItem_calls s ++ [(payload, true)] |}.

Definition setSaved (s : Sched) : Sched :=
  {| clock := clock s;
     cur_tasks := cur_tasks s;
     queue := queue s;
     next_timer := next_timer s;
     effect_timer := effect_timer s;
     saveStatus := St_saved;
     status_log := status_log s ++ [St_saved];
     storage := storage s;
     setItem_calls := setItem_calls s |}.

(** The timer that fires next: the earliest due, the older one on a tie. *)
Fixpoint earliest (q : list timer) : option timer :=
  match q with
  | [] => None
  | x :: q' =>
      match earliest q' with
      | Some y => if due y <? due x then Some y else Some x
      | None => Some x
      end
  end.

(** The timer [tm] fires: it leaves the queue, the clock stands at its due
    time, its callback runs.  [storage_throws k] says whether the [k]-th
    call of [setItem] throws. *)
Definition fire (storage_throws : nat -> bool) (tm : timer) (s : Sched) : Sched :=
  let s1 :=
    {| clock := Z.max (clock s) (due tm);
       cur_tasks := cur_tasks s;
       queue := clearTimeout (Some (timer_id tm)) (queue s);
       next_timer := next_timer s;
       effect_timer := effect_timer s;
       saveStatus := saveStatus s;
       status_log := status_log s;
       storage := storage s;
       setItem_calls := setItem_calls s |} in
  match cb tm with
  | CbSaveTasks snapshot =>
      saveTasks (storage_throws (length (setItem_calls s))) snapshot s1
  | CbSetSaved => setSaved s1
  end.

Definition set_clock (t : Z) (s : Sched) : Sched :=
  {| clock := Z.max (clock s) t;
     cur_tasks := cur_tasks s;
     queue := queue s;
     next_timer := next_timer s;
     effect_timer := effect_timer s;
     saveStatus := saveStatus s;
     status_log := status_log s;
     storage := storage s;
     setItem_calls := setItem_calls s |}.

Fixpoint advance_fuel (storage_throws : nat -> bool) (fuel : nat) (t : Z)
  (s : Sched) : Sched :=
  match fuel with
  | O => set_clock t s
  | S f =>
      match earliest (queue s) with
      | Some tm =>
          if due tm <=? t
          then advance_fuel storage_throws f t (fire storage_throws tm s)
          else set_clock t s
      | None => set_clock t s
      end
  end.

(** Time passes until [t]: every timer due by then fires, in order.  A
    firing adds at most one timer, and that one adds none, so twice the
    queue's length bounds the number of firings. *)
Definition advance (storage_throws : nat -> bool) (t : Z) (s : Sched) : Sched :=
  advance_fuel storage_throws (2 * length (queue s)) t s.

(** A change of the collection at time [t]. *)
Definition change_at (storage_throws : nat -> bool) (t : Z) (new : list obj)
  (s : Sched) : Sched :=
  setTasks new (advance storage_throws t s).

Definition run_changes (storage_throws : nat -> bool)
  (changes : list (Z * list obj)) (s : Sched) : Sched :=
  fold_left (fun s c => change_at storage_throws (fst c) (snd c) s) changes s.

(** The states the scheduler can be in: after mounting, after time has
    passed, after a change. *)
Inductive reachable (storage_throws : nat -> bool) : Sched -> Prop :=
| reach_mount t0 initial stored :
    reachable storage_throws (mount t0 initial stored)
| reach_advance s t :
    reachable storage_throws s -> clock s <= t ->
    reachable storage_throws (advance storage_throws t s)
| reach_change s t new :
    reachable storage_throws s -> clock s <= t ->
    reachable storage_throws (change_at storage_throws t new s).

(** Changes at nondecreasing times from [t] on, each less than 500 ms after
    the one before; [last_time] is the time of the last of them. *)
Fixpoint within_window (t : Z) (changes : list (Z * list obj)) : bool :=
  match changes with
  | [] => true
  | (t', _) :: rest => (t <=? t') && (t' <? t + 500) && within_window t' rest
  end.

Fixpoint last_change (t : Z) (ts : list obj) (changes : list (Z * list obj))
  : Z * list obj :=
  match changes with
  | [] => (t, ts)
  | (t', ts') :: rest => last_change t' ts' rest
  end.

Definition last_call_failed (s : Sched) : bool :=
  match rev (setItem_calls s) with
  | (_, false) :: _ => true
  | _ => false
  end.

(* ================================================================== *)
(** * The dashboard statistics *)
(* ================================================================== *)

Record DashboardStats : Type := {
  name : SisterName;
  completed : nat;
  pending : nat;
  total : nat
}.

Definition is_done (t : obj) : bool := truthy_opt (get_prop t k_isCompleted).

Definition assigned_to (sister : SisterName) (t : obj) : bool :=
  strict_eq_str (get_prop t k_assignee) (SisterName_str sister).

Definition stats (ts : list obj) : list DashboardStats :=
  map (fun sister =>
         let sisterTasks := filter (assigned_to sister) ts in
         {| name := sister;
            completed := length (filter is_done sisterTasks);
            pending := length (filter (fun t => negb (is_done t)) sisterTasks);
            total := length sisterTasks |})
      SISTERS.

Definition totalCompleted (ts : list obj) : nat := length (filter is_done ts).
Definition totalPending (ts : list obj) : nat :=
  length (filter (fun t => negb (is_done t)) ts).

(** The quotient of two counts: a finite ratio unless the divisor is zero
    (then [NaN] or [Infinity]). *)
Inductive quotient : Type :=
| Ratio (num den : nat)
| NotFinite.

Definition divide (a b : nat) : quotient :=
  match b with
  | O => NotFinite
  | S _ => Ratio a b
  end.

(** What the "Complete" figure shows. *)
Inductive figure : Type :=
| Figure (n : Z)
| FigureNaN.

Section Percentage.

(** [Math.round(q * 100)] of a finite ratio [q], in double arithmetic. *)
Variable Math_round_pct : nat -> nat -> Z.

Definition percentComplete (ts : list obj) : figure :=
  if (0 <? totalCompleted ts + totalPending ts)%nat then
    match divide (totalCompleted ts) (totalCompleted ts + totalPending ts) with
    | Ratio a b => Figure (Math_round_pct a b)
    | NotFinite => FigureNaN
    end
  else Figure 0.

End Percentage.

(* ================================================================== *)
(** * The list view and the smart-input parser *)
(* ================================================================== *)

(** The [filterUser] state: ['All'] or one of the sisters. *)
Inductive FilterUser : Type :=
| All
| Only (sister : SisterName).

(** [filteredTasks]: a task is left out when a sister is selected and its
    assignee is not her. *)
Definition filteredTasks (filterUser : FilterUser) (ts : list obj) : list obj :=
  filter (fun t =>
            match filterUser with
            | All => true
            | Only sister => if negb (assigned_to sister t) then false else true
            end) ts.

(** [pendingCount], the figure of the list header. *)
Definition pendingCount (ts : list obj) : nat :=
  length (filter (fun t => negb (is_done t)) ts).

Definition s_fence : jsstring := Eval cbv in lit "```".
Definition s_fence_json : jsstring := Eval cbv in lit "```json".

Fixpoint strip_prefix (p s : jsstring) : option jsstring :=
  match p with
  | [] => Some s
  | x :: p' =>
      match s with
      | [] => None
      | c :: s' => if c =? x then strip_prefix p' s' else None
      end
  end.

(** [s.replace(/^p\s*/, '')] for a literal [p]: the class [\s] is the white
    space [trim] strips. *)
Definition replace_opening (p s : jsstring) : jsstring :=
  match strip_prefix p s with
  | Some r => trim_start r
  | None => s
  end.

(** [s.replace(/\s*p$/, '')] for a literal [p]: the leftmost match takes
    all the white space before the closing [p]. *)
Definition replace_closing (p s : jsstring) : jsstring :=
  match strip_prefix (rev p) (rev s) with
  | Some r => rev (trim_start r)
  | None => s
  end.

(** The cleaning of the model's answer in [parseSmartInput]. *)
Definition clean_fences (text : jsstring) : jsstring :=
  replace_closing s_fence
    (replace_opening s_fence (replace_opening s_fence_json text)).

(** [parseSmartInput] from the answer on: [response_text] is [None] when
    the call throws or the answer has no text; the result is [None] for
    JavaScript's [null]. *)
Definition parseSmartInput (response_text : option jsstring) : option value :=
  match response_text with
  | None | Some [] => None
  | Some (c :: t) =>
      match JSON_parse (clean_fences (c :: t)) with
      | Ok v => Some v
      | Throw _ => None
      end
  end.

(* ------------------------------------------------------------------ *)
(** ** Smart entry *)

Definition k_tasks : jsstring := Eval cbv in lit "tasks".

(** An object literal, its properties in the order written.  A property
    whose value is [undefined] is not represented: for every operation of
    the application it is as if it were absent (reading it gives
    [undefined], [JSON.stringify] leaves it out, a spread copies it as it
    is). *)
Fixpoint literal (ps : list (jsstring * option value)) : obj :=
  match ps with
  | [] => []
  | (k, Some v) :: ps' => (k, v) :: literal ps'
  | (_, None) :: ps' => literal ps'
  end.

(** The callback of the [map] in [handleSmartAdd]:
    [{ id: generateId(), title: t.title, description: t.description,
       assignee: t.assignee, priority: t.priority, isCompleted: false,
       createdAt: Date.now() }].  The id is drawn before [t] is read, so it
    is drawn also when [t] is [null] and the reading throws; none of the
    four names read is defined by a built-in prototype. *)
Definition smart_task (O : oracle) (t : value) : M obj :=
  id <- fresh_id O ;;
  title <- lift (member t k_title) ;;
  description <- lift (member t k_description) ;;
  assignee <- lift (member t k_assignee) ;;
  priority <- lift (member t k_priority) ;;
  now <- current_time O ;;
  ret (literal [ (k_id, Some id);
                 (k_title, title);
                 (k_description, description);
                 (k_assignee, assignee);
                 (k_priority, priority);
                 (k_isCompleted, Some (VBool false));
                 (k_createdAt, Some now) ]).

(** The state of the smart-entry form. *)
Record SmartForm : Type := {
  smartInput : jsstring;
  isProcessingAI : bool
}.

Definition set_env (w : world) (st : AppState) : AppState :=
  {| tasks := tasks st;
     isAddModalOpen := isAddModalOpen st;
     isSettingsOpen := isSettingsOpen st;
     manualTitle := manualTitle st;
     manualAssignee := manualAssignee st;
     manualPriority := manualPriority st;
     importCode := importCode st;
     syncMessage := syncMessage st;
     env := w |}.

(** [handleSmartAdd] up to its [await]: nothing happens on a blank input;
    otherwise the flag is raised and the input goes to [parseSmartInput]. *)
Definition smart_request (f : SmartForm) : option jsstring * SmartForm :=
  match trim (smartInput f) with
  | [] => (None, f)
  | _ :: _ => (Some (smartInput f),
               {| smartInput := smartInput f; isProcessingAI := true |})
  end.

(** [handleSmartAdd] from its [await] on, in the state the application is
    in by then; [result] is what [parseSmartInput] resolved to.  Tasks are
    added when [result.tasks] is an array that is not empty and the mapping
    does not throw.  Every other answer ends in one of the two alerts, which
    are left out with the [console.error]: [null], a value without a truthy
    [tasks], an empty array, or a [tasks] that is no array (its [map] is not
    a function).  The [finally] lowers the flag. *)
Definition smart_resume (O : oracle) (result : option value)
  (st : AppState) (f : SmartForm) : AppState * SmartForm :=
  let idle := {| smartInput := smartInput f; isProcessingAI := false |} in
  match result with
  | Some (VObj ps) =>
      match get_prop ps k_tasks with
      | Some (VArr (t :: l)) =>
          match mapM (smart_task O) (t :: l) (env st) with
          | (Ok newTasks, w') =>
              ({| tasks := newTasks ++ tasks st;
                  isAddModalOpen := false;
                  isSettingsOpen := isSettingsOpen st;
                  manualTitle := manualTitle st;
                  manualAssignee := manualAssignee st;
                  manualPriority := manualPriority st;
                  importCode := importCode st;
                  syncMessage := syncMessage st;
                  env := w' |},
               {| smartInput := []; isProcessingAI := false |})
          | (Throw _, w') => (set_env w' st, idle)
          end
      | _ => (st, idle)
      end
  | _ => (st, idle)
  end.

(** [handleSmartAdd] when nothing else happens while the answer is awaited;
    [response_text] is the text of the model's answer to the request. *)
Definition handleSmartAdd (O : oracle) (response_text : option jsstring)
  (st : AppState) (f : SmartForm) : AppState * SmartForm :=
  match smart_request f with
  | (None, _) => (st, f)
  | (Some _, f1) => smart_resume O (parseSmartInput response_text) st f1
  end.

(* ------------------------------------------------------------------ *)
(** ** The daily quote *)

(** What the request to the model comes to: it throws, or it gives an
    answer, with a text or without. *)
Inductive ai_outcome : Type :=
| AiThrows
| AiAnswers (text : option jsstring).

Definition s_keep_up : jsstring := Eval cbv in lit "Keep up the great work, sisters!".
Definition s_doing_great : jsstring := Eval cbv in lit "You're doing great together!".

(** [getMotivationalMessage] from the answer on:
    [response.text || "Keep up the great work, sisters!"], and the other
    text when the request throws. *)
Definition getMotivationalMessage (outcome : ai_outcome) : jsstring :=
  match outcome with
  | AiThrows => s_doing_great
  | AiAnswers None => s_keep_up
  | AiAnswers (Some []) => s_keep_up
  | AiAnswers (Some (c :: t)) => c :: t
  end.

(** [fetchQuote]: the quote shown is what [getMotivationalMessage] resolves
    to; it never rejects, so the [catch] is not reached. *)
Definition fetchQuote (outcome : ai_outcome) (dailyQuote : jsstring) : jsstring :=
  getMotivationalMessage outcome.

(* ================================================================== *)
(** * Notions used to state the properties *)
(* ================================================================== *)

(** [l1] is [l2] with some elements left out, the others in their order. *)
Inductive subseq {A : Type} : list A -> list A -> Prop :=
| subseq_nil : subseq [] []
| subseq_skip x l1 l2 : subseq l1 l2 -> subseq l1 (x :: l2)
| subseq_keep x l1 l2 : subseq l1 l2 -> subseq (x :: l1) (x :: l2).

(** Every call of [crypto.randomUUID] returns, and never the same
    identifier twice: the contract of the platform's generator. *)
Definition uuid_source (O : oracle) : Prop :=
  exists u : nat -> jsstring,
    (forall k, crypto_randomUUID O k = CryptoUUID (u k))
    /\ (forall i j, u i = u j -> i = j).

(** The clock stands still, or it shows times since the epoch. *)
Definition frozen_or_epoch (O : oracle) : Prop :=
  (forall k, Date_now O k = Date_now O 0) \/ (forall k, 0 <= Date_now O k).

(** No call of [crypto.randomUUID] returns: [generateId] takes its fallback. *)
Definition no_crypto (O : oracle) : Prop :=
  forall k, crypto_randomUUID O k = CryptoAbsent
            \/ crypto_randomUUID O k = CryptoThrows.

(* ------------------------------------------------------------------ *)
(** ** Well-formed text *)

(** A string of code units in which every surrogate is half of a pair. *)
Fixpoint well_formed_utf16 (s : jsstring) : bool :=
  match s with
  | [] => true
  | c :: r =>
      if is_high c then
        match r with
        | [] => false
        | d :: r' => is_low d && well_formed_utf16 r'
        end
      else negb (is_low c) && code_unitb c && well_formed_utf16 r
  end.

(** The number of nodes of a value, each element and each property
    counted once more: the fuel [parse_value] needs to read it back. *)
Fixpoint size (v : value) : nat :=
  match v with
  | VNull | VBool _ | VNum _ | VStr _ => 1
  | VArr l => S (list_sum (map (fun x => S (size x)) l))
  | VObj ps => S (list_sum (map (fun kv => S (size (snd kv))) ps))
  end.

(** What can follow a value in serialized text: nothing, a comma or a
    closing bracket or brace. *)
Definition delimited (rest : jsstring) : Prop :=
  match rest with
  | [] => True
  | c :: _ => c = 44 \/ c = 93 \/ c = 125
  end.

(** The decoding of an import text fails at one of its stages: [atob]
    throws on the base-64 text, [decodeURIComponent] throws on the
    percent-escapes, [JSON.parse] throws on the syntax, or the text is
    valid JSON for a value that is not an array.  The last two are said
    with the recognizer of the JSON grammar, which knows every number
    literal [JSON.parse] accepts. *)
Definition decoding_fails (code : jsstring) : Prop :=
  (exists e, atob (trim code) = Throw e)
  \/ (exists b e, atob (trim code) = Ok b /\ decodeURIComponent b = Throw e)
  \/ (exists b u, atob (trim code) = Ok b /\ decodeURIComponent b = Ok u
                  /\ JSON_valid u = false)
  \/ (exists b u, atob (trim code) = Ok b /\ decodeURIComponent b = Ok u
                  /\ JSON_valid u = true /\ array_text u = false).

(** Ranges of code units and code points. *)
Definition sextet (n : Z) : Prop := 0 <= n < 64.
Definition octet (n : Z) : Prop := 0 <= n < 256.
Definition ascii7 (c : Z) : Prop := 0 <= c < 128.

(** A Unicode scalar value: a code point that is not a surrogate. *)
Definition scalar (cp : Z) : Prop :=
  0 <= cp < 1114112 /\ ~ (55296 <= cp <= 57343).

(** A character of a base-64 body: not the padding, not white space. *)
Definition b64_plain (c : Z) : Prop :=
  c <> 61 /\ is_ascii_ws c = false /\ is_js_space c = false.

(** The text of one property in a serialized object. *)
Definition member_text (kv : jsstring * value) : jsstring :=
  quote (fst kv) ++ 58 :: JSON_stringify (snd kv).

(** With enough fuel, and whatever delimited text follows, the serialized
    text of [v] parses to [v]. *)
Definition reads_back (v : value) : Prop :=
  forall fuel rest, (size v <= fuel)%nat -> delimited rest ->
    parse_value fuel (JSON_stringify v ++ rest) = Some (v, rest).

(* ------------------------------------------------------------------ *)
(** ** The scheduler's invariant *)

Definition due_le (a b : timer) : Prop := due a <= due b.

(** A pending [setSaveStatus('saved')]. *)
Definition is_mark (tm : timer) : Prop := cb tm = CbSetSaved.

(** Timer ids are fresh and distinct; the queue is ordered by due time and
    no timer is due later than 500 ms from now; the queue is a run of
    pending [saved] marks followed by at most one pending [saveTasks], which
    is the one of the last effect and holds the current collection; and
    while the last [setItem] call is a failed one, no [saved] mark is
    pending and the status is [error], the last status set. *)
Record sched_inv (s : Sched) : Prop := {
  inv_ids : Forall (fun tm => (timer_id tm < next_timer s)%nat) (queue s);
  inv_nodup : NoDup (map timer_id (queue s));
  inv_sorted : StronglySorted due_le (queue s);
  inv_due : Forall (fun tm => due tm <= clock s + 500) (queue s);
  inv_effect : forall i, effect_timer s = Some i -> (i < next_timer s)%nat;
  inv_shape :
    exists marks, Forall is_mark marks
      /\ ((queue s = marks
           /\ forall i, effect_timer s = Some i -> ~ In i (map timer_id marks))
          \/ exists i d,
               queue s = marks ++ [ {| timer_id := i; due := d;
                                       cb := CbSaveTasks (cur_tasks s) |} ]
               /\ effect_timer s = Some i);
  inv_status :
    last_call_failed s = true ->
    Forall (fun tm => ~ is_mark tm) (queue s)
    /\ saveStatus s = St_error
    /\ exists l, status_log s = l ++ [St_saving; St_error]
}.

(** A [saveTasks] over the current collection is pending, due at [t + 500],
    behind pending [saved] marks only. *)
Definition armed (s : Sched) (t : Z) : Prop :=
  sched_inv s
  /\ exists marks i,
       Forall is_mark marks
       /\ queue s = marks ++ [ {| timer_id := i; due := t + 500;
                                  cb := CbSaveTasks (cur_tasks s) |} ].

(** A bound on the firings a queue can still cause. *)
Definition weight (q : list timer) : nat :=
  fold_right (fun tm n =>
                match cb tm with
                | CbSaveTasks _ => S (S n)
                | CbSetSaved => S n
                end) O q.

(** The platform's sources give text: the random number's digits are code
    units, and so are a UUID's, of which there is at least one. *)
Definition textual (O : oracle) : Prop :=
  (forall k, wf_string (Math_random_36 O k))
  /\ (forall k u, crypto_randomUUID O k = CryptoUUID u -> u <> [] /\ wf_string u).

(** The clock never shows the epoch itself, nor a time beyond the safe
    integers. *)
Definition clock_in_range (O : oracle) : Prop :=
  forall k, Date_now O k <> 0 /\ safe_integerb (Date_now O k) = true.

(** A task the load path leaves as it is: a representable object with a
    truthy [id] and a truthy [createdAt]. *)
Definition persistable (t : obj) : bool :=
  representable (VObj t)
  && truthy_opt (get_prop t k_id)
  && truthy_opt (get_prop t k_createdAt).

(** The pending [saved] marks, and whether a [saveTasks] is pending. *)
Definition is_markb (tm : timer) : bool :=
  match cb tm with
  | CbSetSaved => true
  | CbSaveTasks _ => false
  end.

Definition pending_marks (s : Sched) : list timer := filter is_markb (queue s).

Definition save_pending (s : Sched) : bool :=
  existsb (fun tm => negb (is_markb tm)) (queue s).

(** The payload of the last call of [setItem] that did not throw. *)
Definition last_stored (calls : list (jsstring * bool)) : option jsstring :=
  option_map fst (find (fun c => snd c) (rev calls)).

(** The status that goes with the writes so far: [saving] while the mark of
    a write is pending, else [error] after a failed write and [saved]
    otherwise. *)
Definition expected_status (s : Sched) : SaveStatus :=
  match pending_marks s with
  | _ :: _ => St_saving
  | [] => if last_call_failed s then St_error else St_saved
  end.

(** The bookkeeping of the save effect: at most one mark is pending, the
    status is the expected one, the stored item is the last payload
    written, and the current collection is either waiting for its write or
    the payload of the last call. *)
Record book_inv (s : Sched) : Prop := {
  bk_marks : (length (pending_marks s) <= 1)%nat;
  bk_status : saveStatus s = expected_status s;
  bk_stored : forall p, last_stored (setItem_calls s) = Some p -> storage s = Some p;
  bk_current :
    save_pending s = true
    \/ exists l b, setItem_calls s
                   = l ++ [(JSON_stringify (tasks_value (cur_tasks s)), b)]
}.

(** A character of base-64 text: a letter, a digit, [+], [/] or the padding
    [=]. *)
Definition is_b64_text (c : Z) : bool :=
  match b64_val c with
  | Some _ => true
  | None => c =? 61
  end.

(** The text without its ASCII white space, as [atob] reads it. *)
Definition squeeze (s : jsstring) : jsstring :=
  filter (fun c => negb (is_ascii_ws c)) s.

(** A text that does not begin or end with white space or a backtick, nor
    begin with the letter [j]: what the cleaning of fences leaves alone. *)
Definition bare_text (J : jsstring) : bool :=
  match J with
  | [] => false
  | h :: _ =>
      negb (is_js_space h) && negb (h =? 96) && negb (h =? 106)
      && negb (is_js_space (last J 0)) && negb (last J 0 =? 96)
  end.

(** What a task added by the smart entry holds: the four properties of the
    element of the answer it was made of, a string id, a creation time and
    [isCompleted = false]. *)
Definition made_of (src : value) (t : obj) : Prop :=
  get_prop t k_title = get_prop (own_props src) k_title
  /\ get_prop t k_description = get_prop (own_props src) k_description
  /\ get_prop t k_assignee = get_prop (own_props src) k_assignee
  /\ get_prop t k_priority = get_prop (own_props src) k_priority
  /\ get_prop t k_isCompleted = Some (VBool false)
  /\ (exists i, get_prop t k_id = Some (VStr i))
  /\ (exists n, get_prop t k_createdAt = Some (VNum n)).

(** [i] is an id [generateId] returned at an earlier moment [w0], since
    when the counter has advanced [j] steps, [0 < j < 10000], to where it
    stands in [w]. *)
Definition drawn_before (O : oracle) (w : world) (i : jsstring) : Prop :=
  exists w0 j,
    0 <= idCounter w0 /\ 0 < j < 10000
    /\ idCounter w = (idCounter w0 + j) mod 10000
    /\ (reads w0 < reads w)%nat
    /\ i = fst (generateId O w0).

(** The assignee of the task is one of the sisters. *)
Definition recognized (t : obj) : bool :=
  existsb (fun sister => assigned_to sister t) SISTERS.

(* ------------------------------------------------------------------ *)
(** ** Sample data for the worked instances *)

(** A runtime without [crypto.randomUUID], a clock that stands still and a
    random source that always returns the same number. *)
Definition s_random : jsstring := Eval cbv in lit "0.4fzyo82mvyr".

Definition frozen_oracle : oracle :=
  {| Date_now := fun _ => 1700000000000;
     Math_random_36 := fun _ => s_random;
     crypto_randomUUID := fun _ => CryptoAbsent |}.

Definition world0 : world := {| idCounter := 0; reads := 0 |}.

Definition s_a : jsstring := Eval cbv in lit "a".
Definition s_X : jsstring := Eval cbv in lit "X".

(** A record with an id and a title, and neither [createdAt] nor
    [isCompleted]. *)
Definition record_without_createdAt : obj :=
  [(k_id, VStr s_a); (k_title, VStr s_X)].

(** A record of an earlier schema whose [isCompleted] is the number 1. *)
Definition record_with_numeric_flag : obj :=
  [(k_id, VStr s_a); (k_isCompleted, VNum 1)].

Definition s_milk : jsstring := Eval cbv in lit "Buy milk".

Definition sample_task (n : Z) (done : bool) : obj :=
  [ (k_id, VStr (Number_toString n));
    (k_title, VStr s_milk);
    (k_assignee, VStr s_Anna);
    (k_priority, VStr s_Medium);
    (k_isCompleted, VBool done);
    (k_createdAt, VNum 1700000000000) ].

(** Five changes within 100 ms: a task is added, toggled three times and
    another is added. *)
Definition burst_tail : list (Z * list obj) :=
  [ (1020, [sample_task 1 true]);
    (1040, [sample_task 1 false]);
    (1060, [sample_task 1 true]);
    (1080, [sample_task 2 false; sample_task 1 true]) ].

Definition never_throws : nat -> bool := fun _ => false.
Definition always_throws : nat -> bool := fun _ => true.

(** Storage is full: the write of the mount fails at 500 ms, a change
    follows at 600 ms, and the clock stands at 900 ms. *)
Definition after_failed_write : Sched :=
  advance always_throws 900
    (change_at always_throws 600 [sample_task 1 false]
       (advance always_throws 500 (mount 0 [] None))).

Definition s_bad_code : jsstring := Eval cbv in lit "not-valid-base64!!".

(** An application state with nothing typed and one task in the store. *)
Definition sample_state : AppState :=
  {| tasks := [sample_task 1 false];
     isAddModalOpen := false;
     isSettingsOpen := true;
     manualTitle := [];
     manualAssignee := Anna;
     manualPriority := MEDIUM;
     importCode := [];
     syncMessage := None;
     env := world0 |}.

(** A task whose title holds a quote, a line feed, an accented letter, a
    character outside the basic plane (a surrogate pair) and a surrogate on
    its own. *)
Definition unicode_task : obj :=
  [ (k_id, VStr s_a);
    (k_title, VStr [34; 10; 233; 55357; 56832; 56832; 92]);
    (k_description, VNull);
    (k_assignee, VStr s_Chloe);
    (k_priority, VStr s_High);
    (k_isCompleted, VBool true);
    (k_createdAt, VNum 1700000000000) ].

(** Scenario C: a record with neither [id] nor [isCompleted]. *)
Definition record_without_id : value :=
  VObj [(k_title, VStr s_X); (k_assignee, VStr s_Chloe); (k_priority, VStr s_High)].

Definition s_milk_typed : jsstring := Eval cbv in lit "  Buy milk ".

(** Scenario A: the title typed into the manual form of the sample state. *)
Definition milk_form : AppState :=
  {| tasks := tasks sample_state;
     isAddModalOpen := true;
     isSettingsOpen := false;
     manualTitle := s_milk_typed;
     manualAssignee := Anna;
     manualPriority := MEDIUM;
     importCode := [];
     syncMessage := None;
     env := world0 |}.

(** A stored text and a sync code whose array holds a record and [null]. *)
Definition record_and_null : list value := [record_without_id; VNull].

Definition s_record_and_null : jsstring :=
  Eval cbv in JSON_stringify (VArr record_and_null).

Definition code_record_and_null : jsstring :=
  Eval cbv in
    match res_bind (encodeURIComponent (JSON_stringify (VArr record_and_null))) btoa with
    | Ok code => code
    | Throw _ => []
    end.

(** A task that came in by import and carries the id the generator will
    return next, and the state after that import with a title typed. *)
Definition clash_id : jsstring := Eval cbv in fst (generateId frozen_oracle world0).

Definition clash_task : obj :=
  [ (k_id, VStr clash_id);
    (k_title, VStr s_X);
    (k_assignee, VStr s_Bella);
    (k_priority, VStr s_Low);
    (k_isCompleted, VBool false);
    (k_createdAt, VNum 1700000000000) ].

Definition after_clash_import : AppState :=
  setManualTitle s_milk_typed
    (handleImport frozen_oracle
       (setImportCode (getExportCode [clash_task]) sample_state)).

(** A first start with nothing stored, a title typed, the task added, and
    the same title typed again. *)
Definition empty_form : AppState :=
  {| tasks := [];
     isAddModalOpen := true;
     isSettingsOpen := false;
     manualTitle := s_milk_typed;
     manualAssignee := Anna;
     manualPriority := MEDIUM;
     importCode := [];
     syncMessage := None;
     env := world0 |}.

Definition second_entry : AppState :=
  setManualTitle s_milk_typed (handleManualAdd frozen_oracle empty_form).

(** The sync code of a text with an exponent, an array with one record
    whose [createdAt] is written [1.7e12]. *)
Definition s_exponent_text : jsstring :=
  [91; 123; 34; 99; 114; 101; 97; 116; 101; 100; 65; 116; 34; 58; 49; 46; 55; 101; 49; 50; 125; 93].

Definition code_exponent_text : jsstring :=
  Eval cbv in
    match res_bind (encodeURIComponent s_exponent_text) btoa with
    | Ok code => code
    | Throw _ => []
    end.

(* ================================================================== *)
(** * Properties *)
(* ================================================================== *)

(** ** Tactics for boolean tests on code units *)

Ltac same_rest := let E := fresh "E" in intros E; inversion E; reflexivity.

Ltac bool_cases :=
  repeat match goal with
         | |- context [if ?b then _ else _] => destruct b eqn:?
         | H : context [if ?b then _ else _] |- _ => destruct b eqn:?
         end.

Ltac bool_to_Z :=
  unfold in_range, is_byte in *;
  repeat match goal with
         | H : (_ && _) = true |- _ => apply andb_true_iff in H as [? ?]
         | H : (_ && _) = false |- _ => apply andb_false_iff in H
         | H : (_ || _) = true |- _ => apply orb_true_iff in H
         | H : (_ || _) = false |- _ => apply orb_false_iff in H as [? ?]
         | H : negb _ = true |- _ => apply negb_true_iff in H
         | H : negb _ = false |- _ => apply negb_false_iff in H
         | H : (_ <? _) = true |- _ => apply Z.ltb_lt in H
         | H : (_ <? _) = false |- _ => apply Z.ltb_ge in H
         | H : (_ <=? _) = true |- _ => apply Z.leb_le in H
         | H : (_ <=? _) = false |- _ => apply Z.leb_gt in H
         | H : (_ =? _) = true |- _ => apply Z.eqb_eq in H
         | H : (_ =? _) = false |- _ => apply Z.eqb_neq in H
         end.

Ltac decide_ltb :=
  repeat match goal with
         | |- context [?a <? ?b] =>
             first [ replace (a <? b) with true by (symmetry; apply Z.ltb_lt; lia)
                   | replace (a <? b) with false by (symmetry; apply Z.ltb_ge; lia) ]
         end.

(** ** Strings and objects *)

Lemma str_eqb_eq (a b : jsstring) : str_eqb a b = true <-> a = b.
Proof.
  revert b; induction a as [|x a IH]; intros [|y b]; simpl; split;
    try congruence; try reflexivity.
  - intros H. apply andb_true_iff in H as [Hx Hr].
    apply Z.eqb_eq in Hx. apply IH in Hr. congruence.
  - intros H. injection H as -> ->. rewrite Z.eqb_refl. simpl. now apply IH.
Qed.

Lemma str_eqb_refl (a : jsstring) : str_eqb a a = true.
Proof. now apply str_eqb_eq. Qed.

Lemma str_eqb_neq (a b : jsstring) : a <> b -> str_eqb a b = false.
Proof.
  intros H. destruct (str_eqb a b) eqn:E; [|reflexivity].
  apply str_eqb_eq in E. contradiction.
Qed.

Lemma get_set_same (o : obj) (k : jsstring) (v : value) :
  get_prop (set_prop o k v) k = Some v.
Proof.
  induction o as [|[k' v'] o IH]; simpl.
  - now rewrite str_eqb_refl.
  - destruct (str_eqb k' k) eqn:E; simpl.
    + now rewrite str_eqb_refl.
    + now rewrite E.
Qed.

Lemma get_set_other (o : obj) (k k' : jsstring) (v : value) :
  k' <> k -> get_prop (set_prop o k v) k' = get_prop o k'.
Proof.
  intros Hne. induction o as [|[k0 v0] o IH]; simpl.
  - rewrite str_eqb_neq; congruence.
  - destruct (str_eqb k0 k) eqn:E; simpl.
    + apply str_eqb_eq in E. subst k0.
      rewrite !str_eqb_neq; congruence.
    + destruct (str_eqb k0 k'); [reflexivity | exact IH].
Qed.

Lemma keys_set_present (o : obj) (k : jsstring) (v v0 : value) :
  get_prop o k = Some v0 -> map fst (set_prop o k v) = map fst o.
Proof.
  induction o as [|[k' v'] o IH]; simpl; [discriminate|].
  destruct (str_eqb k' k) eqn:E; simpl; intros H.
  - apply str_eqb_eq in E. now subst.
  - f_equal. now apply IH.
Qed.

Lemma set_prop_same_value (o : obj) (k : jsstring) (v : value) :
  get_prop o k = Some v -> set_prop o k v = o.
Proof.
  induction o as [|[k' v'] o IH]; simpl; [discriminate|].
  destruct (str_eqb k' k) eqn:E; intros H.
  - apply str_eqb_eq in E. congruence.
  - f_equal. now apply IH.
Qed.

(* ------------------------------------------------------------------ *)
(** ** Toggling and deleting *)

Lemma flipped_isCompleted (t : obj) :
  get_prop (flipped t) k_isCompleted
  = Some (VBool (negb (truthy_opt (get_prop t k_isCompleted)))).
Proof. apply get_set_same. Qed.

Lemma flipped_other (t : obj) (k : jsstring) :
  k <> k_isCompleted -> get_prop (flipped t) k = get_prop t k.
Proof. intros H. now apply get_set_other. Qed.

Lemma toggleTask_absent (taskId : jsstring) (prev : list obj) :
  (forall t, In t prev -> id_is taskId t = false) ->
  toggleTask taskId prev = prev.
Proof.
  unfold toggleTask. induction prev as [|t prev IH]; simpl; intros H.
  - reflexivity.
  - rewrite (H t (or_introl eq_refl)). f_equal.
    apply IH. intros t' Ht'. apply H. now right.
Qed.

(** C4. [toggleTask taskId] keeps the collection's length; at every
    position, a task whose [id] is [taskId] has its [isCompleted] replaced by
    the negation of its truth value (so a boolean is flipped) and every other
    property as before, and a task with another [id] is unchanged; when no
    task has that [id] the collection is returned as it was. *)
Theorem toggleTask_spec (taskId : jsstring) (prev : list obj) :
  length (toggleTask taskId prev) = length prev
  /\ (forall i t, nth_error prev i = Some t ->
        exists t', nth_error (toggleTask taskId prev) i = Some t'
          /\ (id_is taskId t = true ->
                (forall b, get_prop t k_isCompleted = Some (VBool b) ->
                           get_prop t' k_isCompleted = Some (VBool (negb b)))
                /\ get_prop t' k_isCompleted
                   = Some (VBool (negb (truthy_opt (get_prop t k_isCompleted))))
                /\ (forall k, k <> k_isCompleted -> get_prop t' k = get_prop t k))
          /\ (id_is taskId t = false -> t' = t))
  /\ ((forall t, In t prev -> id_is taskId t = false) ->
        toggleTask taskId prev = prev).
Proof.
  split; [|split].
  - unfold toggleTask. apply length_map.
  - intros i t Hi. unfold toggleTask.
    rewrite nth_error_map, Hi. simpl.
    eexists; split; [reflexivity|]. split.
    + intros Hid. rewrite Hid. split; [|split].
      * intros b Hb. rewrite flipped_isCompleted, Hb. reflexivity.
      * apply flipped_isCompleted.
      * intros k Hk. now apply flipped_other.
    + intros Hid. now rewrite Hid.
  - apply toggleTask_absent.
Qed.

Lemma flipped_id (t : obj) : get_prop (flipped t) k_id = get_prop t k_id.
Proof. apply flipped_other. discriminate. Qed.

Lemma deleteTask_subseq (taskId : jsstring) (prev : list obj) :
  subseq (deleteTask taskId prev) prev.
Proof.
  unfold deleteTask. induction prev as [|t prev IH]; simpl.
  - constructor.
  - destruct (id_is taskId t); simpl; now constructor.
Qed.

Lemma filter_split_length {A} (p : A -> bool) (l : list A) :
  (length (filter (fun x => negb (p x)) l) + length (filter p l) = length l)%nat.
Proof.
  induction l as [|x l IH]; simpl; [reflexivity|].
  destruct (p x); simpl; lia.
Qed.

(** C9. [toggleTask] keeps the length of the collection and the tasks in
    their positions (each is the task that stood there or its flipped copy,
    with the same [id]); [deleteTask] leaves no task whose [id] is the
    argument, keeps the others in their relative order (the result is a
    subsequence of the collection) and drops nothing else (the kept and the
    matching tasks add up to the collection). *)
Theorem toggle_delete_order (taskId : jsstring) (prev : list obj) :
  length (toggleTask taskId prev) = length prev
  /\ Forall2 (fun t t' => (t' = t \/ t' = flipped t)
                          /\ get_prop t' k_id = get_prop t k_id)
       prev (toggleTask taskId prev)
  /\ Forall (fun t => id_is taskId t = false) (deleteTask taskId prev)
  /\ subseq (deleteTask taskId prev) prev
  /\ (length (deleteTask taskId prev)
      + length (filter (id_is taskId) prev) = length prev)%nat.
Proof.
  split; [|split; [|split; [|split]]].
  - unfold toggleTask. apply length_map.
  - unfold toggleTask. induction prev as [|t prev IH]; simpl; constructor.
    + destruct (id_is taskId t).
      * split; [now right | apply flipped_id].
      * split; [now left | reflexivity].
    + exact IH.
  - unfold deleteTask. apply Forall_forall. intros t Ht.
    apply filter_In in Ht as [_ Ht]. now apply negb_true_iff in Ht.
  - apply deleteTask_subseq.
  - unfold deleteTask. apply filter_split_length.
Qed.

(* ------------------------------------------------------------------ *)
(** ** Manual entry *)

Lemma trim_start_blank (s : jsstring) :
  trim_start s = [] <-> forallb is_js_space s = true.
Proof.
  induction s as [|c s IH]; simpl; [tauto|].
  destruct (is_js_space c); simpl; [exact IH|].
  split; discriminate.
Qed.

Lemma trim_start_head (s : jsstring) (c : Z) (r : jsstring) :
  trim_start s = c :: r -> is_js_space c = false.
Proof.
  induction s as [|x s IH]; simpl; [discriminate|].
  destruct (is_js_space x) eqn:E; [exact IH|].
  intros H. injection H as -> _. exact E.
Qed.

Lemma forallb_rev' {A} (p : A -> bool) (l : list A) :
  forallb p (rev l) = forallb p l.
Proof.
  induction l as [|x l IH]; simpl; [reflexivity|].
  rewrite forallb_app, IH. simpl. rewrite andb_true_r. apply andb_comm.
Qed.

(** The trimmed title is empty exactly when the title is empty or made of
    white space only. *)
Lemma trim_blank (s : jsstring) :
  trim s = [] <-> forallb is_js_space s = true.
Proof.
  unfold trim. split.
  - intros H. apply (f_equal (@rev Z)) in H. rewrite rev_involutive in H.
    simpl in H. apply trim_start_blank in H. rewrite forallb_rev' in H.
    destruct (trim_start s) as [|c r] eqn:E.
    + now apply trim_start_blank.
    + apply trim_start_head in E. simpl in H. rewrite E in H. discriminate.
  - intros H. apply trim_start_blank in H. now rewrite H.
Qed.

(** Scenario A: the task added for the typed title, then toggled by its
    id, is completed, and nothing else in it or in the store has changed. *)
Example scenario_A :
  let st := handleManualAdd frozen_oracle milk_form in
  let id := fst (generateId frozen_oracle world0) in
  tasks st = newTask id s_milk Anna MEDIUM 1700000000000 :: tasks milk_form
  /\ toggleTask id (tasks st)
     = set_prop (newTask id s_milk Anna MEDIUM 1700000000000) k_isCompleted
         (VBool true) :: tasks milk_form.
Proof. split; vm_compute; reflexivity. Qed.

(* ------------------------------------------------------------------ *)
(** ** The dashboard *)

Lemma totals_length (ts : list obj) :
  (totalCompleted ts + totalPending ts = length ts)%nat.
Proof.
  unfold totalCompleted, totalPending.
  pose proof (filter_split_length is_done ts). lia.
Qed.

Lemma stats_sum (ts : list obj) :
  Forall (fun s => (completed s + pending s = total s)%nat) (stats ts).
Proof.
  unfold stats. apply Forall_forall. intros s Hs.
  apply in_map_iff in Hs as [sister [<- _]]. simpl.
  pose proof (filter_split_length is_done (filter (assigned_to sister) ts)).
  lia.
Qed.

(** C10. Whatever the rounding, the "Complete" figure is never the result
    of a division by zero: for the empty collection it is 0 and no division
    takes place, and for a non-empty one it is the rounded quotient of the
    completed count by the collection's length, which is the sum of the
    completed and pending counts and is positive.  Every participant's
    statistics satisfy completed + pending = total. *)
Theorem dashboard_division_safe (Math_round_pct : nat -> nat -> Z) (ts : list obj) :
  percentComplete Math_round_pct ts <> FigureNaN
  /\ percentComplete Math_round_pct [] = Figure 0
  /\ match ts with
     | [] => percentComplete Math_round_pct ts = Figure 0
     | _ :: _ =>
         (0 < totalCompleted ts + totalPending ts)%nat
         /\ divide (totalCompleted ts) (totalCompleted ts + totalPending ts)
            = Ratio (totalCompleted ts) (length ts)
         /\ percentComplete Math_round_pct ts
            = Figure (Math_round_pct (totalCompleted ts) (length ts))
     end
  /\ (totalCompleted ts + totalPending ts = length ts)%nat
  /\ Forall (fun s => (completed s + pending s = total s)%nat) (stats ts).
Proof.
  pose proof (totals_length ts) as Hlen.
  split; [|split; [reflexivity|split; [|split; [exact Hlen|apply stats_sum]]]].
  - unfold percentComplete. rewrite Hlen.
    destruct ts as [|t ts']; simpl; discriminate.
  - unfold percentComplete. rewrite Hlen.
    destruct ts as [|t ts']; simpl; [reflexivity|].
    repeat split. lia.
Qed.

(* ------------------------------------------------------------------ *)
(** ** The id generator *)

Lemma uint_digits_are_digits (u : Decimal.uint) :
  Forall (fun c => 48 <= c <= 57) (uint_digits u).
Proof. induction u; simpl; constructor; (lia || assumption). Qed.

Lemma uint_digits_inj (u u' : Decimal.uint) :
  uint_digits u = uint_digits u' -> u = u'.
Proof.
  revert u'; induction u; intros u'; destruct u'; simpl; intros H;
    try discriminate; try reflexivity;
    injection H as H; f_equal; now apply IHu.
Qed.

Lemma uint_digits_no_dash (u : Decimal.uint) : ~ In 45 (uint_digits u).
Proof.
  intros H. pose proof (uint_digits_are_digits u) as F.
  rewrite Forall_forall in F. apply F in H. lia.
Qed.

Lemma Number_toString_inj (a b : Z) :
  Number_toString a = Number_toString b -> a = b.
Proof.
  unfold Number_toString. intros H. apply DecimalZ.to_int_inj.
  destruct (Z.to_int a) as [u|u], (Z.to_int b) as [u'|u'].
  - f_equal. now apply uint_digits_inj.
  - exfalso. apply (uint_digits_no_dash u). rewrite H. now left.
  - exfalso. apply (uint_digits_no_dash u'). rewrite <- H. now left.
  - injection H as H. f_equal. now apply uint_digits_inj.
Qed.

(** Two texts cut at their first dash agree on both sides of it. *)
Lemma split_at_dash (r1 r2 x y : jsstring) :
  ~ In 45 r1 -> ~ In 45 r2 ->
  r1 ++ dash ++ x = r2 ++ dash ++ y -> r1 = r2 /\ x = y.
Proof.
  revert r2. induction r1 as [|c r1 IH]; intros [|d r2] H1 H2; simpl; intros E.
  - injection E as E. now split.
  - injection E as E _. subst d. exfalso. apply H2. now left.
  - injection E as E _. subst c. exfalso. apply H1. now left.
  - injection E as -> E.
    destruct (IH r2) as [-> ->]; try assumption; try now split.
    + intros F. apply H1. now right.
    + intros F. apply H2. now right.
Qed.

Lemma In_firstn {A} (n : nat) (l : list A) (x : A) : In x (firstn n l) -> In x l.
Proof.
  intros H. rewrite <- (firstn_skipn n l). apply in_or_app. now left.
Qed.

Lemma In_skipn {A} (n : nat) (l : list A) (x : A) : In x (skipn n l) -> In x l.
Proof.
  intros H. rewrite <- (firstn_skipn n l). apply in_or_app. now right.
Qed.

Lemma substring_In (a b : nat) (s : jsstring) (c : Z) :
  In c (substring a b s) -> In c s.
Proof.
  unfold substring. intros H.
  apply In_firstn in H. now apply In_skipn in H.
Qed.

Lemma fallback_id_counter (ts1 ts2 r1 r2 : jsstring) (c1 c2 : Z) :
  ts1 = ts2 \/ (~ In 45 ts1 /\ ~ In 45 ts2) ->
  ~ In 45 r1 -> ~ In 45 r2 ->
  fallback_id ts1 r1 c1 = fallback_id ts2 r2 c2 -> c1 = c2.
Proof.
  unfold fallback_id. intros Hts H1 H2 E.
  assert (r1 ++ dash ++ Number_toString c1 = r2 ++ dash ++ Number_toString c2)
    as E'.
  { destruct Hts as [->|[Ha Hb]].
    - apply app_inv_head in E. now injection E.
    - now apply split_at_dash in E as [_ E]. }
  apply split_at_dash in E' as [_ E']; try assumption.
  now apply Number_toString_inj.
Qed.

Lemma digit36_no_dash (d : Z) : 0 <= d < 36 -> digit36 d <> 45.
Proof. unfold digit36. intros H. destruct (d <? 10) eqn:E; bool_to_Z; lia. Qed.

Lemma to_radix36_no_dash (fuel : nat) (n : Z) (acc : jsstring) :
  0 <= n -> ~ In 45 acc -> ~ In 45 (to_radix36 fuel n acc).
Proof.
  revert n acc. induction fuel as [|f IH]; intros n acc Hn Hacc; simpl;
    [exact Hacc|].
  assert (~ In 45 (digit36 (n mod 36) :: acc)) as H.
  { intros [F|F]; [|now apply Hacc].
    apply (digit36_no_dash (n mod 36)); [|exact F].
    apply Z.mod_pos_bound. lia. }
  destruct (n <? 36); [exact H|].
  apply IH; [|exact H]. apply Z.div_pos; lia.
Qed.

(** The base-36 text of a time since the epoch holds no dash. *)
Lemma toString36_no_dash (n : Z) : 0 <= n -> ~ In 45 (toString36 n).
Proof.
  intros H. unfold toString36.
  replace (n <? 0) with false by (symmetry; apply Z.ltb_ge; lia).
  apply to_radix36_no_dash; [exact H | intros []].
Qed.

Lemma generateId_fallback (O : oracle) (w : world) :
  no_crypto O -> 0 <= idCounter w ->
  generateId O w
  = (fallback_id (toString36 (Date_now O (reads w)))
       (substring 2 8 (Math_random_36 O (reads w)))
       ((idCounter w + 1) mod 10000),
     {| idCounter := (idCounter w + 1) mod 10000; reads := S (reads w) |}).
Proof.
  intros H Hc. unfold generateId.
  rewrite Z.rem_mod_nonneg by lia.
  destruct (H (reads w)) as [E|E]; now rewrite E.
Qed.

(** The ids of [n] successive fallback calls, by call number. *)
Lemma generate_many_fallback (O : oracle) (n : nat) (w : world) :
  no_crypto O -> 0 <= idCounter w ->
  fst (generate_many O n w)
  = map (fun j =>
           fallback_id (toString36 (Date_now O (reads w + j)))
             (substring 2 8 (Math_random_36 O (reads w + j)))
             ((idCounter w + 1 + Z.of_nat j) mod 10000))
        (seq 0 n).
Proof.
  intros H. revert w. induction n as [|n IH]; intros w Hc; [reflexivity|].
  cbn [generate_many]. rewrite generateId_fallback by assumption.
  specialize (IH {| idCounter := (idCounter w + 1) mod 10000;
                    reads := S (reads w) |}).
  destruct (generate_many O n _) as [rest w2]. cbn [fst] in *.
  rewrite IH by (cbn [idCounter]; apply Z.mod_pos_bound; lia).
  cbn [seq map idCounter reads]. f_equal.
  - rewrite Nat.add_0_r, Z.add_0_r. reflexivity.
  - rewrite <- seq_shift, map_map. apply map_ext. intros j.
    rewrite Nat.add_succ_r. cbn [Nat.add]. f_equal.
    rewrite <- Z.add_assoc, Z.add_mod_idemp_l by lia. f_equal. lia.
Qed.

(** The counter stays within [0, 10000). *)
Lemma generateId_counter_range (O : oracle) (w : world) :
  0 <= idCounter w -> 0 <= idCounter (snd (generateId O w)) < 10000.
Proof.
  intros H. unfold generateId.
  assert (0 <= Z.rem (idCounter w + 1) 10000 < 10000) as R
    by (rewrite Z.rem_mod_nonneg by lia; apply Z.mod_pos_bound; lia).
  destruct (crypto_randomUUID O (reads w)); exact R.
Qed.

Lemma NoDup_map_on {A B} (f : A -> B) (l : list A) :
  (forall x y, In x l -> In y l -> f x = f y -> x = y) ->
  NoDup l -> NoDup (map f l).
Proof.
  intros Hinj Hnd. induction Hnd as [|x l Hx Hnd IH]; simpl; constructor.
  - intros Hin. apply in_map_iff in Hin as [y [Hy Hyl]].
    apply Hx. rewrite (Hinj x y); auto; [now left | now right].
  - apply IH. intros a b Ha Hb. apply Hinj; now right.
Qed.

Lemma generate_many_uuid (O : oracle) (u : nat -> jsstring) (n : nat) (w : world) :
  (forall k, crypto_randomUUID O k = CryptoUUID (u k)) ->
  fst (generate_many O n w) = map (fun j => u (reads w + j)%nat) (seq 0 n).
Proof.
  intros H. revert w. induction n as [|n IH]; intros w; [reflexivity|].
  cbn [generate_many]. unfold generateId. rewrite H.
  specialize (IH {| idCounter := Z.rem (idCounter w + 1) 10000;
                    reads := S (reads w) |}).
  destruct (generate_many O n _) as [rest w2]. cbn [fst] in *.
  rewrite IH. cbn [seq map reads]. f_equal.
  - now rewrite Nat.add_0_r.
  - rewrite <- seq_shift, map_map. apply map_ext. intros j.
    now rewrite Nat.add_succ_r.
Qed.

(** C6. Up to 10,000 successive calls of [generateId] return pairwise
    distinct ids, wherever the counter stands, also when the clock stands
    still.  On the fallback path (no usable [crypto.randomUUID]) this
    is the work of the counter component: the random part holds no dash (it
    is made of base-36 digits), so two ids that agree have the same counter
    text, and fewer than 10,000 steps apart the wrapped counters differ.
    Where [crypto.randomUUID] answers, the ids are its identifiers, distinct
    by the platform's contract. *)
Theorem generateId_distinct (O : oracle) (w : world) (n : nat) :
  Z.of_nat n <= 10000 ->
  0 <= idCounter w ->
  frozen_or_epoch O ->
  (forall k, ~ In 45 (Math_random_36 O k)) ->
  no_crypto O \/ uuid_source O ->
  length (fst (generate_many O n w)) = n
  /\ NoDup (fst (generate_many O n w)).
Proof.
  intros Hn Hw Hclock Hrand [Hc|[u [Hu Hinj]]].
  - rewrite generate_many_fallback by assumption.
    split; [now rewrite length_map, length_seq|].
    apply NoDup_map_on; [|apply seq_NoDup].
    intros i j Hi Hj E.
    apply in_seq in Hi. apply in_seq in Hj.
    apply fallback_id_counter in E.
    + assert (Z.of_nat i = Z.of_nat j) as Hij; [|lia].
      assert (0 <= Z.of_nat i < 10000) as Bi by lia.
      assert (0 <= Z.of_nat j < 10000) as Bj by lia.
      revert E Bi Bj. generalize (Z.of_nat i) (Z.of_nat j) (idCounter w + 1).
      intros a b c E Bi Bj.
      pose proof (Z.mod_pos_bound (c + a) 10000 ltac:(lia)).
      pose proof (Z.mod_pos_bound (c + b) 10000 ltac:(lia)).
      pose proof (Z.div_mod (c + a) 10000 ltac:(lia)).
      pose proof (Z.div_mod (c + b) 10000 ltac:(lia)).
      nia.
    + destruct Hclock as [Hfrozen|Hepoch].
      * left. now rewrite (Hfrozen (reads w + i)%nat), (Hfrozen (reads w + j)%nat).
      * right. split; apply toString36_no_dash; apply Hepoch.
    + intros F. apply substring_In in F. now apply Hrand in F.
    + intros F. apply substring_In in F. now apply Hrand in F.
  - rewrite (generate_many_uuid O u) by assumption.
    split; [now rewrite length_map, length_seq|].
    apply NoDup_map_on; [|apply seq_NoDup].
    intros i j _ _ E. apply Hinj in E. lia.
Qed.

(** 10,000 calls in a runtime without [crypto.randomUUID], with the clock and
    even the random source standing still. *)
Lemma generateId_distinct_witness :
  length (fst (generate_many frozen_oracle (Z.to_nat 10000) world0))
  = Z.to_nat 10000
  /\ NoDup (fst (generate_many frozen_oracle (Z.to_nat 10000) world0)).
Proof.
  apply (generateId_distinct frozen_oracle world0 (Z.to_nat 10000)).
  - rewrite Z2Nat.id; lia.
  - simpl. lia.
  - left. intros k. reflexivity.
  - intros k. unfold frozen_oracle, s_random. simpl. intuition discriminate.
  - left. intros k. left. reflexivity.
Defined.

(* ------------------------------------------------------------------ *)
(** ** Manual entry and the ids in the store *)

(** An id drawn now differs from one drawn fewer than 10,000 calls
    earlier. *)
Lemma generateId_recent (O : oracle) (w w0 : world) (j : Z) :
  frozen_or_epoch O ->
  (forall k, ~ In 45 (Math_random_36 O k)) ->
  no_crypto O \/ uuid_source O ->
  0 <= idCounter w0 -> 0 < j < 10000 ->
  idCounter w = (idCounter w0 + j) mod 10000 ->
  (reads w0 < reads w)%nat ->
  fst (generateId O w) <> fst (generateId O w0).
Proof.
  intros Hclock Hrand [Hc|[u [Hu Hinj]]] H0 Hj Hw Hr.
  - assert (0 <= idCounter w) as Hw0
      by (rewrite Hw; apply Z.mod_pos_bound; lia).
    rewrite !generateId_fallback by assumption. cbn [fst]. intros E.
    apply fallback_id_counter in E.
    + rewrite Hw, Z.add_mod_idemp_l in E by lia.
      replace (idCounter w0 + j + 1) with (idCounter w0 + 1 + j) in E by lia.
      revert E. generalize (idCounter w0 + 1). intros c E.
      pose proof (Z.mod_pos_bound (c + j) 10000 ltac:(lia)).
      pose proof (Z.mod_pos_bound c 10000 ltac:(lia)).
      pose proof (Z.div_mod (c + j) 10000 ltac:(lia)).
      pose proof (Z.div_mod c 10000 ltac:(lia)).
      nia.
    + destruct Hclock as [Hfrozen|Hepoch].
      * left. now rewrite (Hfrozen (reads w)), (Hfrozen (reads w0)).
      * right. split; apply toString36_no_dash; apply Hepoch.
    + intros F. apply substring_In in F. now apply Hrand in F.
    + intros F. apply substring_In in F. now apply Hrand in F.
  - unfold generateId. rewrite !Hu. cbn [fst]. intros E. apply Hinj in E. lia.
Qed.

(** The reading of C5 by which the new id differs from every id in the
    store fails: the id is not checked against the store.  After the import
    of a task that carries the id the generator returns next, the task
    added by hand has the id of the imported one. *)
Lemma manual_id_not_checked :
  ~ (forall (O : oracle) (st : AppState),
       forallb is_js_space (manualTitle st) = false ->
       forall t u, tasks (handleManualAdd O st) = t :: tasks st ->
                   In u (tasks st) ->
                   get_prop u k_id <> get_prop t k_id).
Proof.
  intros H.
  apply (H frozen_oracle after_clash_import eq_refl
           (newTask clash_id s_milk Anna MEDIUM 1700000000000) clash_task).
  - vm_compute. reflexivity.
  - vm_compute. now left.
  - reflexivity.
Qed.

(** C5, amended. When the trimmed title is empty (the title is empty or
    white space only) [handleManualAdd] returns the state as it was.
    Otherwise the new collection is one new task followed by the previous
    collection; the new task's [title] is the trimmed title, its [id] is the
    one the id generator returns at this call, its [isCompleted] is
    [false], its [createdAt] is the time read after that, and its assignee
    and priority are the chosen ones.  The id is not checked against the
    store; it is fresh there when every id in the store is one the
    generator returned fewer than 10,000 calls earlier (with the clock
    frozen or since the epoch, random digits without a dash, and either no
    usable [crypto.randomUUID] or one that keeps its contract). *)
Theorem handleManualAdd_spec (O : oracle) (st : AppState) :
  (forallb is_js_space (manualTitle st) = true -> handleManualAdd O st = st)
  /\ (forallb is_js_space (manualTitle st) = false ->
      let '(id, w1) := generateId O (env st) in
      let '(now, w2) := read_now O w1 in
      exists t,
        tasks (handleManualAdd O st) = t :: tasks st
        /\ get_prop t k_id = Some (VStr id)
        /\ get_prop t k_title = Some (VStr (trim (manualTitle st)))
        /\ get_prop t k_assignee = Some (VStr (SisterName_str (manualAssignee st)))
        /\ get_prop t k_priority = Some (VStr (Priority_str (manualPriority st)))
        /\ get_prop t k_isCompleted = Some (VBool false)
        /\ get_prop t k_createdAt = Some (VNum now)
        /\ map fst t = [k_id; k_title; k_assignee; k_priority; k_isCompleted;
                        k_createdAt]
        /\ env (handleManualAdd O st) = w2)
  /\ (forallb is_js_space (manualTitle st) = false ->
      frozen_or_epoch O ->
      (forall k, ~ In 45 (Math_random_36 O k)) ->
      no_crypto O \/ uuid_source O ->
      (forall u, In u (tasks st) ->
                 exists i, get_prop u k_id = Some (VStr i)
                           /\ drawn_before O (env st) i) ->
      forall t u, tasks (handleManualAdd O st) = t :: tasks st ->
                  In u (tasks st) ->
                  get_prop u k_id <> get_prop t k_id).
Proof.
  split; [|split].
  - intros H. apply trim_blank in H. unfold handleManualAdd. now rewrite H.
  - intros H. unfold handleManualAdd.
    destruct (trim (manualTitle st)) as [|c r] eqn:E.
    + apply trim_blank in E. congruence.
    + destruct (generateId O (env st)) as [id w1].
      destruct (read_now O w1) as [now w2]. simpl.
      eexists. split; [reflexivity|].
      repeat split.
  - intros H Hclock Hrand Hsrc Hstore t u Ht Hu.
    destruct (Hstore u Hu) as [i [Hi [w0 [j [H0 [Hj [Hc [Hr ->]]]]]]]].
    pose proof (generateId_recent O (env st) w0 j Hclock Hrand Hsrc H0 Hj Hc Hr)
      as Hne.
    unfold handleManualAdd in Ht.
    destruct (trim (manualTitle st)) as [|c r] eqn:E.
    + apply trim_blank in E. congruence.
    + destruct (generateId O (env st)) as [id w1]. cbn [fst] in Hne.
      destruct (read_now O w1) as [now w2]. cbn [tasks] in Ht.
      injection Ht as <-. rewrite Hi.
      change (get_prop (newTask id (c :: r) (manualAssignee st)
                          (manualPriority st) now) k_id)
        with (Some (VStr id)).
      intros F. injection F as F. congruence.
Qed.

(** A second entry right after the first, with the clock and the random
    source standing still: the two tasks have different ids. *)
Lemma handleManualAdd_spec_witness :
  get_prop (nth 1 (tasks (handleManualAdd frozen_oracle second_entry)) []) k_id
  <> get_prop (nth 0 (tasks (handleManualAdd frozen_oracle second_entry)) []) k_id.
Proof.
  destruct (handleManualAdd_spec frozen_oracle second_entry) as [_ [_ H]].
  apply (H eq_refl).
  - left. intros k. reflexivity.
  - intros k. unfold frozen_oracle, s_random. simpl. intuition discriminate.
  - left. intros k. left. reflexivity.
  - intros u [<-|[]]. eexists. split; [reflexivity|].
    exists world0, 1. repeat split; try reflexivity; try lia.
    vm_compute. lia.
  - reflexivity.
  - now left.
Defined.

(* ------------------------------------------------------------------ *)
(** ** Normalization of external data *)

(** On an object, the import fix-up leaves [createdAt] as it found it. *)
Lemma import_fix_createdAt (O : oracle) (ps : obj) (w : world) :
  exists o w', import_fix O (VObj ps) w = (Ok o, w')
               /\ get_prop o k_createdAt = get_prop ps k_createdAt.
Proof.
  unfold import_fix, bind, lift, member, or_else, ret, fresh_id, own_props.
  destruct (get_prop ps k_id) as [v|] eqn:E; [destruct (truthy v)|];
    try destruct (generateId O w) as [i w1];
    eexists; eexists; (split; [reflexivity|]);
    rewrite !get_set_other by discriminate; reflexivity.
Qed.

(** On an object, the load migration leaves [isCompleted] as it found it. *)
Lemma load_fix_isCompleted (O : oracle) (ps : obj) (w : world) :
  exists o w', load_fix O (VObj ps) w = (Ok o, w')
               /\ get_prop o k_isCompleted = get_prop ps k_isCompleted.
Proof.
  unfold load_fix, bind, lift, member, ret, own_props.
  assert (forall x e w0, (forall w1, exists v w2, e w1 = (Ok v, w2)) ->
            exists v w2, or_else x e w0 = (Ok v, w2)) as Hor.
  { intros x e w0 He. unfold or_else, ret.
    destruct x as [v|]; [destruct (truthy v)|]; eauto. }
  assert (forall w1, exists v w2, fresh_id O w1 = (Ok v, w2)) as Hid.
  { intros w1. unfold fresh_id. destruct (generateId O w1); eauto. }
  assert (forall w1, exists v w2, current_time O w1 = (Ok v, w2)) as Hnow.
  { intros w1. unfold current_time. destruct (read_now O w1); eauto. }
  destruct (Hor (get_prop ps k_id) _ w Hid) as [v1 [w1 ->]].
  destruct (Hor (get_prop ps k_createdAt) _ w1 Hnow) as [v2 [w2 ->]].
  eexists; eexists; split; [reflexivity|].
  rewrite !get_set_other by discriminate. reflexivity.
Qed.

(** Scenario C: the import fix-up gives a record without [id] and
    [isCompleted] a generated id and [isCompleted = false], after its other
    properties. *)
Example scenario_C :
  import_fix frozen_oracle record_without_id world0
  = (Ok [ (k_title, VStr s_X); (k_assignee, VStr s_Chloe);
          (k_priority, VStr s_High);
          (k_id, VStr (fst (generateId frozen_oracle world0)));
          (k_isCompleted, VBool false) ],
     {| idCounter := 1; reads := 1 |}).
Proof. vm_compute. reflexivity. Qed.

(** C2. The two paths do not apply the same coercions.  Importing the sync
    code of a record that has no [createdAt] yields a task without
    [createdAt]: the import path assigns no time.  Loading a stored record
    whose [isCompleted] is the number 1 yields a task whose [isCompleted] is
    still the number 1: the load path does not coerce it to a boolean. *)
Theorem normalization_paths_differ (O : oracle) (w : world) :
  import_body O (getExportCode [record_without_createdAt]) w
  = (Ok [ [(k_id, VStr s_a); (k_title, VStr s_X); (k_isCompleted, VBool false)] ],
     w)
  /\ loadTasks O (Some (JSON_stringify (tasks_value [record_with_numeric_flag]))) w
     = ([ [(k_id, VStr s_a); (k_isCompleted, VNum 1);
           (k_createdAt, VNum (Date_now O (reads w)))] ],
        {| idCounter := idCounter w; reads := S (reads w) |}).
Proof. split; vm_compute; reflexivity. Qed.

(* ------------------------------------------------------------------ *)
(** ** The save scheduler *)

Lemma earliest_In (q : list timer) (x : timer) : earliest q = Some x -> In x q.
Proof.
  revert x. induction q as [|y q IH]; simpl; intros x; [discriminate|].
  destruct (earliest q) as [z|].
  - destruct (due z <? due y); intros H; injection H as <-.
    + right. now apply IH.
    + now left.
  - intros H. injection H as <-. now left.
Qed.

Lemma earliest_sorted (x : timer) (q : list timer) :
  StronglySorted due_le (x :: q) -> earliest (x :: q) = Some x.
Proof.
  intros H. apply StronglySorted_inv in H as [_ Hx]. simpl.
  destruct (earliest q) as [z|] eqn:E; [|reflexivity].
  apply earliest_In in E. rewrite Forall_forall in Hx.
  specialize (Hx z E). unfold due_le in Hx.
  destruct (due z <? due x) eqn:L; [|reflexivity].
  apply Z.ltb_lt in L. lia.
Qed.

Lemma filter_keeps_all {A} (p : A -> bool) (l : list A) :
  (forall x, In x l -> p x = true) -> filter p l = l.
Proof.
  induction l as [|x l IH]; simpl; intros H; [reflexivity|].
  rewrite (H x (or_introl eq_refl)). f_equal. apply IH.
  intros y Hy. apply H. now right.
Qed.

Lemma clear_absent (i : nat) (q : list timer) :
  ~ In i (map timer_id q) -> clearTimeout (Some i) q = q.
Proof.
  intros H. unfold clearTimeout. apply filter_keeps_all.
  intros x Hx. apply negb_true_iff. apply Nat.eqb_neq. intros E.
  apply H. apply in_map_iff. now exists x.
Qed.

Lemma clear_head (x : timer) (q : list timer) :
  NoDup (map timer_id (x :: q)) -> clearTimeout (Some (timer_id x)) (x :: q) = q.
Proof.
  intros H. simpl in H. apply NoDup_cons_iff in H as [Hx _].
  unfold clearTimeout. simpl. rewrite Nat.eqb_refl. simpl.
  now apply (clear_absent (timer_id x) q).
Qed.

Lemma clear_last (x : timer) (q : list timer) :
  NoDup (map timer_id (q ++ [x])) -> clearTimeout (Some (timer_id x)) (q ++ [x]) = q.
Proof.
  intros H. rewrite map_app in H. simpl in H.
  apply NoDup_remove_2 in H. rewrite app_nil_r in H.
  unfold clearTimeout. rewrite filter_app. simpl. rewrite Nat.eqb_refl. simpl.
  rewrite app_nil_r. now apply (clear_absent (timer_id x) q).
Qed.

Lemma clear_incl (id : option nat) (q : list timer) (x : timer) :
  In x (clearTimeout id q) -> In x q.
Proof.
  destruct id as [i|]; simpl; [|tauto]. intros H.
  now apply filter_In in H.
Qed.

Lemma Forall_clear (P : timer -> Prop) (id : option nat) (q : list timer) :
  Forall P q -> Forall P (clearTimeout id q).
Proof.
  rewrite !Forall_forall. intros H x Hx. apply H. eapply clear_incl; eauto.
Qed.

Lemma sorted_filter {A} (R : A -> A -> Prop) (p : A -> bool) (l : list A) :
  StronglySorted R l -> StronglySorted R (filter p l).
Proof.
  induction 1 as [|x l Hs IH Hx]; simpl; [constructor|].
  destruct (p x); [|exact IH]. constructor; [exact IH|].
  rewrite Forall_forall in *. intros y Hy. apply Hx.
  now apply filter_In in Hy.
Qed.

Lemma sorted_clear (id : option nat) (q : list timer) :
  StronglySorted due_le q -> StronglySorted due_le (clearTimeout id q).
Proof. destruct id; simpl; [apply sorted_filter | tauto]. Qed.

Lemma sorted_snoc {A} (R : A -> A -> Prop) (l : list A) (x : A) :
  StronglySorted R l -> Forall (fun y => R y x) l -> StronglySorted R (l ++ [x]).
Proof.
  induction 1 as [|y l Hs IH Hy]; simpl; intros Hx.
  - constructor; constructor.
  - apply Forall_cons_iff in Hx as [Hyx Hx]. constructor; [now apply IH|].
    apply Forall_app. split; [exact Hy|]. constructor; [exact Hyx|constructor].
Qed.

Lemma nodup_filter_ids (p : timer -> bool) (q : list timer) :
  NoDup (map timer_id q) -> NoDup (map timer_id (filter p q)).
Proof.
  induction q as [|x q IH]; simpl; intros H; [constructor|].
  apply NoDup_cons_iff in H as [Hx Hq]. destruct (p x); simpl.
  - constructor; [|now apply IH]. intros Hin. apply Hx.
    apply in_map_iff in Hin as [y [Ey Hy]]. apply filter_In in Hy as [Hy _].
    apply in_map_iff. now exists y.
  - now apply IH.
Qed.

Lemma nodup_clear (id : option nat) (q : list timer) :
  NoDup (map timer_id q) -> NoDup (map timer_id (clearTimeout id q)).
Proof. destruct id; simpl; [apply nodup_filter_ids | tauto]. Qed.

Lemma nodup_snoc_fresh (q : list timer) (x : timer) (n : nat) :
  Forall (fun tm => (timer_id tm < n)%nat) q -> timer_id x = n ->
  NoDup (map timer_id q) -> NoDup (map timer_id (q ++ [x])).
Proof.
  intros Hlt Hx Hnd. rewrite map_app. simpl.
  apply NoDup_app; [exact Hnd | constructor; [intros []|constructor] |].
  intros i Hi [<-|[]]. apply in_map_iff in Hi as [y [Ey Hy]].
  rewrite Forall_forall in Hlt. specialize (Hlt y Hy). lia.
Qed.

Lemma shape_clear (s : Sched) :
  sched_inv s -> Forall is_mark (clearTimeout (effect_timer s) (queue s)).
Proof.
  intros I. destruct (inv_shape s I) as [marks [Hm [[Hq Hstale]|[i [d [Hq He]]]]]].
  - rewrite Hq. now apply Forall_clear.
  - rewrite He, Hq.
    pose proof (clear_last {| timer_id := i; due := d;
                              cb := CbSaveTasks (cur_tasks s) |} marks) as C.
    cbn [timer_id] in C. rewrite C; [exact Hm|].
    rewrite <- Hq. apply (inv_nodup s I).
Qed.

Lemma setTasks_inv (new : list obj) (s : Sched) :
  sched_inv s -> sched_inv (setTasks new s).
Proof.
  intros I. constructor; simpl.
  - apply Forall_app. split.
    + apply Forall_clear. eapply Forall_impl; [|apply (inv_ids s I)].
      simpl. intros tm H. lia.
    + constructor; [simpl; lia | constructor].
  - apply (nodup_snoc_fresh _ _ (next_timer s)).
    + apply Forall_clear. apply (inv_ids s I).
    + reflexivity.
    + apply nodup_clear. apply (inv_nodup s I).
  - apply sorted_snoc.
    + apply sorted_clear. apply (inv_sorted s I).
    + apply Forall_clear. eapply Forall_impl; [|apply (inv_due s I)].
      unfold due_le. simpl. intros tm H. exact H.
  - apply Forall_app. split.
    + apply Forall_clear. apply (inv_due s I).
    + constructor; [simpl; lia | constructor].
  - intros i H. injection H as <-. lia.
  - exists (clearTimeout (effect_timer s) (queue s)). split.
    + now apply shape_clear.
    + right. exists (next_timer s), (clock s + 500). split; reflexivity.
  - intros F. destruct (inv_status s I F) as [Hn [Hs Hl]].
    split; [|split; assumption].
    apply Forall_app. split.
    + now apply Forall_clear.
    + constructor; [|constructor]. unfold is_mark. simpl. discriminate.
Qed.

Lemma mount_inv (t0 : Z) (initial : list obj) (stored : option jsstring) :
  sched_inv (mount t0 initial stored).
Proof.
  constructor; simpl.
  - constructor; [simpl; lia | constructor].
  - constructor; [intros [] | constructor].
  - constructor; constructor.
  - constructor; [simpl; lia | constructor].
  - intros i H. injection H as <-. lia.
  - exists []. split; [constructor|]. right. exists 0%nat, (t0 + 500).
    split; reflexivity.
  - unfold last_call_failed. simpl. discriminate.
Qed.

Lemma set_clock_inv (t : Z) (s : Sched) : sched_inv s -> sched_inv (set_clock t s).
Proof.
  intros I. constructor; simpl; try apply I.
  eapply Forall_impl; [|apply (inv_due s I)]. simpl. intros tm H. lia.
Qed.

(** The head of the queue fires next, and leaves the queue. *)
Lemma fire_head (s : Sched) (tm : timer) :
  sched_inv s -> earliest (queue s) = Some tm ->
  exists q, queue s = tm :: q
            /\ clearTimeout (Some (timer_id tm)) (queue s) = q.
Proof.
  intros I E. destruct (queue s) as [|x q] eqn:Q; [discriminate|].
  pose proof (inv_sorted s I) as Hs. rewrite Q in Hs.
  rewrite (earliest_sorted x q Hs) in E. injection E as <-.
  exists q. split; [reflexivity|]. apply clear_head.
  rewrite <- Q. apply (inv_nodup s I).
Qed.

Lemma fire_inv (throws : nat -> bool) (s : Sched) (tm : timer) :
  sched_inv s -> earliest (queue s) = Some tm -> sched_inv (fire throws tm s).
Proof.
  intros I E. destruct (fire_head s tm I E) as [q [Q C]].
  pose proof (inv_ids s I) as Hids. pose proof (inv_nodup s I) as Hnd.
  pose proof (inv_sorted s I) as Hs. pose proof (inv_due s I) as Hdue.
  rewrite Q in Hids, Hnd, Hs, Hdue.
  apply Forall_cons_iff in Hids as [Hid0 Hids].
  simpl in Hnd. apply NoDup_cons_iff in Hnd as [Hnot Hnd].
  apply StronglySorted_inv in Hs as [Hs Hle].
  apply Forall_cons_iff in Hdue as [Hd0 Hdue].
  assert (Forall (fun x => due x <= Z.max (clock s) (due tm) + 500) q) as Hdue'.
  { eapply Forall_impl; [|exact Hdue]. simpl. intros x H. lia. }
  destruct (inv_shape s I) as [marks [Hm Hshape]].
  unfold fire. rewrite C. destruct (cb tm) as [snapshot|] eqn:Hcb.
  - (* the pending save fires: no mark stood before it *)
    assert (q = [] /\ snapshot = cur_tasks s) as [-> ->].
    { destruct Hshape as [[Hq _]|[i [d [Hq _]]]].
      - rewrite Hq in Q. rewrite Q in Hm. apply Forall_cons_iff in Hm as [Hm _].
        unfold is_mark in Hm. congruence.
      - rewrite Q in Hq. destruct marks as [|m marks]; simpl in Hq.
        + injection Hq as Hq1 Hq2. split; [exact Hq2|].
          rewrite Hq1 in Hcb. simpl in Hcb. congruence.
        + injection Hq as <- _. apply Forall_cons_iff in Hm as [Hm _].
          unfold is_mark in Hm. congruence. }
    unfold saveTasks.
    destruct (throws (length (setItem_calls s))); constructor; simpl.
    + constructor.
    + constructor.
    + constructor.
    + constructor.
    + apply (inv_effect s I).
    + exists []. split; [constructor|]. left. split; [reflexivity|].
      intros i _ [].
    + intros _. split; [constructor|]. split; [reflexivity|].
      now exists (status_log s).
    + constructor; [simpl; lia | constructor].
    + constructor; [intros [] | constructor].
    + constructor; constructor.
    + constructor; [simpl; lia | constructor].
    + intros i H. apply (inv_effect s I) in H. lia.
    + exists [ {| timer_id := next_timer s;
                  due := Z.max (clock s) (due tm) + 500; cb := CbSetSaved |} ].
      split; [constructor; [reflexivity | constructor]|].
      left. split; [reflexivity|].
      intros i H [F|[]]. simpl in F. apply (inv_effect s I) in H. lia.
    + unfold last_call_failed. simpl. rewrite rev_app_distr. simpl. discriminate.
  - (* a [saved] mark fires *)
    unfold setSaved. constructor; simpl.
    + exact Hids.
    + exact Hnd.
    + exact Hs.
    + exact Hdue'.
    + apply (inv_effect s I).
    + destruct Hshape as [[Hq Hstale]|[i [d [Hq He]]]].
      * exists q. rewrite Hq in Q. rewrite Q in Hm, Hstale.
        apply Forall_cons_iff in Hm as [_ Hm]. split; [exact Hm|].
        left. split; [reflexivity|]. intros i Hi F. apply (Hstale i Hi).
        simpl. now right.
      * rewrite Q in Hq. destruct marks as [|m marks]; simpl in Hq.
        -- injection Hq as -> _. simpl in Hcb. discriminate.
        -- injection Hq as _ ->. apply Forall_cons_iff in Hm as [_ Hm].
           exists marks. split; [exact Hm|]. right. exists i, d. now split.
    + intros F. change (last_call_failed s = true) in F.
      destruct (inv_status s I F) as [Hn _]. rewrite Q in Hn.
      apply Forall_cons_iff in Hn as [Hn _]. now elim Hn.
Qed.

Lemma advance_fuel_inv (throws : nat -> bool) (fuel : nat) (t : Z) (s : Sched) :
  sched_inv s -> sched_inv (advance_fuel throws fuel t s).
Proof.
  revert s. induction fuel as [|f IH]; intros s I; simpl.
  - now apply set_clock_inv.
  - destruct (earliest (queue s)) as [tm|] eqn:E; [|now apply set_clock_inv].
    destruct (due tm <=? t); [|now apply set_clock_inv].
    apply IH. now apply fire_inv.
Qed.

Lemma reachable_inv (throws : nat -> bool) (s : Sched) :
  reachable throws s -> sched_inv s.
Proof.
  induction 1 as [t0 initial stored | s t R IH Ht | s t new R IH Ht].
  - apply mount_inv.
  - now apply advance_fuel_inv.
  - apply setTasks_inv. now apply advance_fuel_inv.
Qed.

(** What a firing does, by the kind of the timer at the head. *)
Lemma fire_cases (throws : nat -> bool) (s : Sched) (tm : timer) :
  sched_inv s -> earliest (queue s) = Some tm ->
  (is_mark tm
   /\ exists q, queue s = tm :: q
        /\ queue (fire throws tm s) = q
        /\ setItem_calls (fire throws tm s) = setItem_calls s
        /\ cur_tasks (fire throws tm s) = cur_tasks s
        /\ storage (fire throws tm s) = storage s
        /\ clock (fire throws tm s) = Z.max (clock s) (due tm))
  \/ (cb tm = CbSaveTasks (cur_tasks s)
      /\ queue s = [tm]
      /\ Forall is_mark (queue (fire throws tm s))
      /\ (length (queue (fire throws tm s)) <= 1)%nat
      /\ setItem_calls (fire throws tm s)
         = setItem_calls s
           ++ [(JSON_stringify (tasks_value (cur_tasks s)),
                negb (throws (length (setItem_calls s))))]
      /\ cur_tasks (fire throws tm s) = cur_tasks s
      /\ (throws (length (setItem_calls s)) = false ->
          storage (fire throws tm s)
          = Some (JSON_stringify (tasks_value (cur_tasks s))))
      /\ clock (fire throws tm s) = Z.max (clock s) (due tm)).
Proof.
  intros I E. destruct (fire_head s tm I E) as [q [Q C]].
  destruct (inv_shape s I) as [marks [Hm Hshape]].
  destruct (cb tm) as [snapshot|] eqn:Hcb.
  - right.
    assert (q = [] /\ snapshot = cur_tasks s) as [-> ->].
    { destruct Hshape as [[Hq _]|[i [d [Hq _]]]].
      - rewrite Hq in Q. rewrite Q in Hm. apply Forall_cons_iff in Hm as [Hm _].
        unfold is_mark in Hm. congruence.
      - rewrite Q in Hq. destruct marks as [|m marks]; simpl in Hq.
        + injection Hq as Hq1 Hq2. split; [exact Hq2|].
          rewrite Hq1 in Hcb. simpl in Hcb. congruence.
        + injection Hq as <- _. apply Forall_cons_iff in Hm as [Hm _].
          unfold is_mark in Hm. congruence. }
    split; [reflexivity|]. split; [exact Q|].
    unfold fire. rewrite C, Hcb. unfold saveTasks.
    destruct (throws (length (setItem_calls s))); cbn [queue setItem_calls
      cur_tasks storage clock negb app length];
      repeat split; try constructor; try reflexivity; try lia; try discriminate;
      try constructor.
  - left. split; [exact Hcb|]. exists q. split; [exact Q|].
    unfold fire. rewrite C, Hcb. unfold setSaved. simpl. repeat split.
Qed.

Lemma weight_marks (q : list timer) :
  Forall is_mark q -> weight q = length q.
Proof.
  induction 1 as [|x q Hx Hq IH]; simpl; [reflexivity|].
  unfold is_mark in Hx. rewrite Hx. now rewrite IH.
Qed.

Lemma weight_bound (q : list timer) : (weight q <= 2 * length q)%nat.
Proof.
  induction q as [|x q IH]; simpl; [lia|]. destruct (cb x); lia.
Qed.

Lemma earliest_none (q : list timer) : earliest q = None -> q = [].
Proof.
  destruct q as [|x q]; [reflexivity|]. simpl.
  destruct (earliest q) as [y|]; [destruct (due y <? due x)|]; discriminate.
Qed.

(** With fuel for every firing in sight, [advance_fuel] leaves no timer due. *)
Lemma advance_fuel_complete (throws : nat -> bool) (fuel : nat) (t : Z) (s : Sched) :
  sched_inv s -> (weight (queue s) <= fuel)%nat ->
  Forall (fun tm => t < due tm) (queue (advance_fuel throws fuel t s)).
Proof.
  revert s. induction fuel as [|f IH]; intros s I W; simpl.
  - destruct (queue s) as [|x q]; [constructor|].
    simpl in W. destruct (cb x); lia.
  - destruct (earliest (queue s)) as [tm|] eqn:E.
    + destruct (due tm <=? t) eqn:L.
      * apply IH; [now apply fire_inv|].
        destruct (fire_cases throws s tm I E)
          as [[Hmk [q [Q [Q' _]]]]|[Hcb [Q [Hmk [Hlen _]]]]].
        -- rewrite Q'. rewrite Q in W. simpl in W.
           unfold is_mark in Hmk. rewrite Hmk in W. lia.
        -- rewrite (weight_marks _ Hmk). rewrite Q in W. simpl in W.
           rewrite Hcb in W. lia.
      * simpl. apply Z.leb_gt in L.
        destruct (fire_head s tm I E) as [q [Q _]].
        pose proof (inv_sorted s I) as Hs. rewrite Q in Hs |- *.
        apply StronglySorted_inv in Hs as [_ Hle].
        constructor; [exact L|].
        eapply Forall_impl; [|exact Hle]. unfold due_le. simpl. intros x H. lia.
    + apply earliest_none in E. simpl. rewrite E. constructor.
Qed.

(** When time has passed until [t], no pending timer is due by [t]. *)
Lemma advance_complete (throws : nat -> bool) (t : Z) (s : Sched) :
  sched_inv s -> Forall (fun tm => t < due tm) (queue (advance throws t s)).
Proof.
  intros I. apply advance_fuel_complete; [exact I | apply weight_bound].
Qed.

Lemma advance_fuel_clock (throws : nat -> bool) (fuel : nat) (t : Z) (s : Sched) :
  sched_inv s -> clock (advance_fuel throws fuel t s) = Z.max (clock s) t.
Proof.
  revert s. induction fuel as [|f IH]; intros s I; simpl; [reflexivity|].
  destruct (earliest (queue s)) as [tm|] eqn:E; [|reflexivity].
  destruct (due tm <=? t) eqn:L; [|reflexivity].
  rewrite IH by now apply fire_inv. apply Z.leb_le in L.
  destruct (fire_cases throws s tm I E)
    as [[_ [q [_ [_ [_ [_ [_ ->]]]]]]]|[_ [_ [_ [_ [_ [_ [_ ->]]]]]]]]; lia.
Qed.

(** While only [saved] marks are pending, the passing of time writes
    nothing. *)
Lemma advance_fuel_marks (throws : nat -> bool) (fuel : nat) (t : Z) (s : Sched) :
  sched_inv s -> Forall is_mark (queue s) ->
  setItem_calls (advance_fuel throws fuel t s) = setItem_calls s
  /\ cur_tasks (advance_fuel throws fuel t s) = cur_tasks s
  /\ storage (advance_fuel throws fuel t s) = storage s.
Proof.
  revert s. induction fuel as [|f IH]; intros s I Hm; simpl; [now repeat split|].
  destruct (earliest (queue s)) as [tm|] eqn:E; [|now repeat split].
  destruct (due tm <=? t); [|now repeat split].
  destruct (fire_cases throws s tm I E)
    as [[_ [q [Q [Q' [Hc [Ht Hst]]]]]]|[Hcb [Q _]]].
  - destruct (IH (fire throws tm s)) as [-> [-> ->]].
    + now apply fire_inv.
    + rewrite Q'. rewrite Q in Hm. now apply Forall_cons_iff in Hm as [_ Hm].
    + destruct Hst as [Hst _]. now repeat split.
  - rewrite Q in Hm. apply Forall_cons_iff in Hm as [Hm _].
    unfold is_mark in Hm. congruence.
Qed.

(** Before the pending save is due, the passing of time writes nothing. *)
Lemma advance_fuel_quiet (throws : nat -> bool) (fuel : nat) (t t0 : Z) (s : Sched) :
  armed s t0 -> t < t0 + 500 ->
  setItem_calls (advance_fuel throws fuel t s) = setItem_calls s.
Proof.
  revert s. induction fuel as [|f IH]; intros s [I [marks [i [Hm Q]]]] Ht; simpl;
    [reflexivity|].
  destruct (earliest (queue s)) as [tm|] eqn:E; [|reflexivity].
  destruct (due tm <=? t) eqn:L; [|reflexivity].
  apply Z.leb_le in L.
  destruct (fire_cases throws s tm I E)
    as [[Hmk [q [Q1 [Q' [Hc [Hts _]]]]]]|[Hcb [Q1 _]]].
  - rewrite IH; [exact Hc | | exact Ht].
    split; [now apply fire_inv|].
    rewrite Q in Q1. destruct marks as [|m marks]; simpl in Q1.
    + injection Q1 as <- _. unfold is_mark in Hmk. discriminate.
    + injection Q1 as _ <-. apply Forall_cons_iff in Hm as [_ Hm].
      exists marks, i. split; [exact Hm|]. now rewrite Q', Hts.
  - rewrite Q in Q1. destruct marks as [|m marks]; simpl in Q1.
    + injection Q1 as <-. simpl in L. lia.
    + destruct marks; discriminate.
Qed.

Lemma setTasks_armed (new : list obj) (s : Sched) :
  sched_inv s -> armed (setTasks new s) (clock s).
Proof.
  intros I. split; [now apply setTasks_inv|].
  exists (clearTimeout (effect_timer s) (queue s)), (next_timer s).
  split; [now apply shape_clear | reflexivity].
Qed.

(** A run of changes, each less than 500 ms after the one before, writes
    nothing and leaves a save of the last collection pending. *)
Lemma run_changes_quiet (throws : nat -> bool) (rest : list (Z * list obj))
  (s : Sched) (t : Z) :
  armed s t -> clock s = t -> within_window t rest = true ->
  let s' := run_changes throws rest s in
  armed s' (fst (last_change t (cur_tasks s) rest))
  /\ cur_tasks s' = snd (last_change t (cur_tasks s) rest)
  /\ setItem_calls s' = setItem_calls s.
Proof.
  revert s t. induction rest as [|[t' ts'] rest IH]; intros s t A Hc W; simpl.
  - split; [exact A | split; reflexivity].
  - simpl in W. apply andb_true_iff in W as [W W3].
    apply andb_true_iff in W as [W1 W2].
    apply Z.leb_le in W1. apply Z.ltb_lt in W2.
    pose proof (advance_fuel_inv throws (2 * length (queue s)) t' s (proj1 A)) as I1.
    pose proof (advance_fuel_clock throws (2 * length (queue s)) t' s (proj1 A)) as C1.
    pose proof (advance_fuel_quiet throws (2 * length (queue s)) t' t s A W2) as Q1.
    fold (advance throws t' s) in I1, C1, Q1.
    assert (clock (advance throws t' s) = t') as C1' by lia.
    specialize (IH (change_at throws t' ts' s) t').
    unfold change_at in IH |- *.
    destruct IH as [IHa [IHt IHc]].
    + pose proof (setTasks_armed ts' _ I1) as A2. now rewrite C1' in A2.
    + simpl. exact C1'.
    + exact W3.
    + simpl in IHa, IHt, IHc. split; [exact IHa|]. split; [exact IHt|].
      now rewrite IHc.
Qed.

(** Once the pending save is due, the passing of time performs exactly that
    one write. *)
Lemma advance_fuel_fires_save (throws : nat -> bool) (T t0 : Z)
  (marks : list timer) :
  forall (fuel : nat) (s : Sched) (i : nat),
  sched_inv s -> Forall is_mark marks ->
  queue s = marks ++ [ {| timer_id := i; due := t0 + 500;
                          cb := CbSaveTasks (cur_tasks s) |} ] ->
  t0 + 500 <= T -> (length marks < fuel)%nat ->
  setItem_calls (advance_fuel throws fuel T s)
  = setItem_calls s
    ++ [(JSON_stringify (tasks_value (cur_tasks s)),
         negb (throws (length (setItem_calls s))))]
  /\ cur_tasks (advance_fuel throws fuel T s) = cur_tasks s
  /\ (throws (length (setItem_calls s)) = false ->
      storage (advance_fuel throws fuel T s)
      = Some (JSON_stringify (tasks_value (cur_tasks s)))).
Proof.
  induction marks as [|m marks IH]; intros fuel s i I Hm Q HT Hf;
    (destruct fuel as [|f]; [simpl in Hf; lia|]); simpl.
  - simpl in Q. pose proof (inv_sorted s I) as Hs. rewrite Q in Hs.
    pose proof (earliest_sorted _ _ Hs) as E. rewrite <- Q in E. rewrite E.
    cbn [due]. destruct (t0 + 500 <=? T) eqn:L; [|apply Z.leb_gt in L; lia].
    destruct (fire_cases throws s _ I E)
      as [[Hmk _]|[_ [_ [Hmk' [_ [Hc [Hts [Hst _]]]]]]]].
    + unfold is_mark in Hmk. discriminate.
    + destruct (advance_fuel_marks throws f T _ (fire_inv throws s _ I E) Hmk')
        as [-> [-> ->]].
      split; [exact Hc|]. split; [exact Hts | exact Hst].
  - simpl in Q. pose proof (inv_sorted s I) as Hs. rewrite Q in Hs.
    pose proof (earliest_sorted _ _ Hs) as E. rewrite <- Q in E. rewrite E.
    apply StronglySorted_inv in Hs as [_ Hle].
    apply Forall_app in Hle as [_ Hle]. apply Forall_cons_iff in Hle as [Hle _].
    unfold due_le in Hle. simpl in Hle.
    destruct (due m <=? T) eqn:L; [|apply Z.leb_gt in L; lia].
    apply Forall_cons_iff in Hm as [Hm0 Hm].
    destruct (fire_cases throws s m I E)
      as [[_ [q [Q1 [Q' [Hc [Hts [Hst _]]]]]]]|[Hcb _]].
    + rewrite Q in Q1. injection Q1 as <-.
      destruct (IH f (fire throws m s) i) as [H1 [H2 H3]].
      * now apply fire_inv.
      * exact Hm.
      * now rewrite Q', Hts.
      * exact HT.
      * simpl in Hf. lia.
      * rewrite Hc, Hts in H1. rewrite Hts in H2. rewrite Hc, Hts in H3.
        split; [exact H1|]. split; [exact H2 | exact H3].
    + unfold is_mark in Hm0. congruence.
Qed.

(** C7. From any state the scheduler can be in, let changes arrive at times
    [t1 <= ... <= tn], each less than 500 ms after the one before, and let
    time then pass until at least [tn + 500].  Of the deferred writes these
    changes schedule, only the last is performed: compared with the moment
    the first change arrives, [setItem] has been called exactly once more,
    with the text of the final collection, which is then the stored item
    unless that call throws. *)
Theorem debounce_single_write (throws : nat -> bool) (s : Sched)
  (t1 : Z) (ts1 : list obj) (rest : list (Z * list obj)) (T : Z) :
  reachable throws s ->
  clock s <= t1 ->
  within_window t1 rest = true ->
  fst (last_change t1 ts1 rest) + 500 <= T ->
  let final := snd (last_change t1 ts1 rest) in
  let before := advance throws t1 s in
  let after := advance throws T (run_changes throws ((t1, ts1) :: rest) s) in
  setItem_calls after
  = setItem_calls before
    ++ [(JSON_stringify (tasks_value final),
         negb (throws (length (setItem_calls before))))]
  /\ cur_tasks after = final
  /\ (throws (length (setItem_calls before)) = false ->
      storage after = Some (JSON_stringify (tasks_value final))).
Proof.
  intros R Hc W HT final before after.
  pose proof (reachable_inv throws s R) as I.
  pose proof (advance_fuel_inv throws (2 * length (queue s)) t1 s I) as I1.
  pose proof (advance_fuel_clock throws (2 * length (queue s)) t1 s I) as C1.
  fold (advance throws t1 s) in I1, C1. fold before in I1, C1.
  assert (clock before = t1) as C1' by lia.
  pose proof (setTasks_armed ts1 before I1) as A. rewrite C1' in A.
  destruct (run_changes_quiet throws rest (setTasks ts1 before) t1 A C1' W)
    as [[I2 [marks [i [Hm Q]]]] [Hts Hcalls]].
  simpl in Hts, Hcalls.
  unfold after. cbn [run_changes fold_left fst snd].
  fold (run_changes throws rest (change_at throws t1 ts1 s)).
  unfold change_at at 1. fold before.
  unfold advance.
  destruct (advance_fuel_fires_save throws T _ marks
              (2 * length (queue (run_changes throws rest (setTasks ts1 before))))
              _ i I2 Hm Q HT) as [H1 [H2 H3]].
  - rewrite Q, length_app. simpl. lia.
  - rewrite Hts, Hcalls in H1. rewrite Hts in H2. rewrite Hts, Hcalls in H3.
    split; [exact H1|]. split; [exact H2 | exact H3].
Qed.

(** C8. In every state the scheduler can be in, as long as the last call
    of [setItem] is one that threw, the status is [error], the last two
    statuses set are [saving] and [error] (nothing has set the status
    since), and no [setSaveStatus('saved')] is pending. *)
Theorem save_error_persists (throws : nat -> bool) (s : Sched) :
  reachable throws s ->
  last_call_failed s = true ->
  saveStatus s = St_error
  /\ (exists l, status_log s = l ++ [St_saving; St_error])
  /\ Forall (fun tm => ~ is_mark tm) (queue s).
Proof.
  intros R F. destruct (inv_status s (reachable_inv throws s R) F) as [H1 [H2 H3]].
  now repeat split.
Qed.

(** Five changes between 1000 ms and 1080 ms after mounting, then quiet
    until 1900 ms: besides the write of the mount, one write, of the last
    collection. *)
Lemma debounce_single_write_witness :
  setItem_calls
    (advance never_throws 1900
       (run_changes never_throws ((1000, [sample_task 1 false]) :: burst_tail)
          (mount 0 [] None)))
  = setItem_calls (advance never_throws 1000 (mount 0 [] None))
    ++ [(JSON_stringify (tasks_value [sample_task 2 false; sample_task 1 true]),
         true)]
  /\ length (setItem_calls (advance never_throws 1000 (mount 0 [] None))) = 1%nat.
Proof.
  destruct (debounce_single_write never_throws (mount 0 [] None) 1000
              [sample_task 1 false] burst_tail 1900) as [H _].
  - apply reach_mount.
  - simpl. lia.
  - reflexivity.
  - simpl. lia.
  - split; [exact H | reflexivity].
Defined.

(** After the failed write, a change and 300 more milliseconds, the status
    is still [error]. *)
Lemma save_error_persists_witness :
  saveStatus after_failed_write = St_error
  /\ (exists l, status_log after_failed_write = l ++ [St_saving; St_error])
  /\ Forall (fun tm => ~ is_mark tm) (queue after_failed_write).
Proof.
  apply (save_error_persists always_throws after_failed_write).
  - unfold after_failed_write.
    apply reach_advance; [apply reach_change; [apply reach_advance|]|].
    + apply reach_mount.
    + simpl. lia.
    + vm_compute. discriminate.
    + vm_compute. discriminate.
  - vm_compute. reflexivity.
Defined.

(* ------------------------------------------------------------------ *)
(** ** Base64 *)

Lemma list_ind3 {A} (P : list A -> Prop) :
  P [] -> (forall a, P [a]) -> (forall a b, P [a; b]) ->
  (forall a b c l, P l -> P (a :: b :: c :: l)) ->
  forall l, P l.
Proof.
  intros H0 H1 H2 H3.
  assert (forall l, P l /\ (forall a, P (a :: l)) /\ (forall a b, P (a :: b :: l)))
    as H.
  { induction l as [|x l [IH0 [IH1 IH2]]].
    - repeat split; auto.
    - repeat split; auto. }
  intros l. apply H.
Qed.

Lemma is_byte_octet (s : jsstring) :
  forallb is_byte s = true <-> Forall octet s.
Proof.
  rewrite forallb_forall, Forall_forall. unfold octet.
  split; intros H c Hc; specialize (H c Hc); unfold is_byte in *;
    [bool_to_Z; lia | apply andb_true_iff; split; [apply Z.leb_le | apply Z.leb_le]; lia].
Qed.

Lemma sextets_range (s : jsstring) : Forall octet s -> Forall sextet (sextets s).
Proof.
  induction s using list_ind3; intros H; simpl.
  - constructor.
  - apply Forall_cons_iff in H as [Ha _]. unfold octet, sextet in *.
    repeat constructor; Z.div_mod_to_equations; lia.
  - apply Forall_cons_iff in H as [Ha H]. apply Forall_cons_iff in H as [Hb _].
    unfold octet, sextet in *.
    repeat constructor; Z.div_mod_to_equations; lia.
  - apply Forall_cons_iff in H as [Ha H]. apply Forall_cons_iff in H as [Hb H].
    apply Forall_cons_iff in H as [Hc H]. unfold octet, sextet in *.
    repeat (constructor; [Z.div_mod_to_equations; lia|]). now apply IHs.
Qed.

Lemma unsextets_sextets (s : jsstring) : Forall octet s -> unsextets (sextets s) = s.
Proof.
  induction s using list_ind3; intros H; simpl.
  - reflexivity.
  - apply Forall_cons_iff in H as [Ha _]. unfold octet in *.
    f_equal. Z.div_mod_to_equations. lia.
  - apply Forall_cons_iff in H as [Ha H]. apply Forall_cons_iff in H as [Hb _].
    unfold octet in *.
    f_equal; [|f_equal]; Z.div_mod_to_equations; lia.
  - apply Forall_cons_iff in H as [Ha H]. apply Forall_cons_iff in H as [Hb H].
    apply Forall_cons_iff in H as [Hc H]. unfold octet in *.
    rewrite IHs by assumption.
    f_equal; [|f_equal; [|f_equal]]; Z.div_mod_to_equations; lia.
Qed.

(** The number of 6-bit groups is never one more than a multiple of four. *)
Lemma sextets_length (s : jsstring) :
  exists k, length (sextets s) = (4 * k)%nat
            \/ length (sextets s) = (4 * k + 2)%nat
            \/ length (sextets s) = (4 * k + 3)%nat.
Proof.
  induction s using list_ind3; simpl.
  - exists 0%nat. auto.
  - exists 0%nat. auto.
  - exists 0%nat. auto.
  - destruct IHs as [k [H|[H|H]]]; exists (S k); rewrite H; lia.
Qed.

Lemma b64_val_char (n : Z) : sextet n -> b64_val (b64_char n) = Some n.
Proof.
  unfold sextet, b64_val, b64_char. intros H.
  bool_cases; bool_to_Z; try (f_equal; lia); try lia.
Qed.

Lemma b64_char_plain (n : Z) :
  sextet n ->
  b64_char n <> 61 /\ is_ascii_ws (b64_char n) = false
  /\ is_js_space (b64_char n) = false.
Proof.
  unfold sextet, b64_char, is_ascii_ws, is_js_space. intros H.
  bool_cases; bool_to_Z; repeat split; try lia;
    repeat (apply orb_false_iff; split);
    try (apply Z.eqb_neq; lia);
    try (apply andb_false_iff; (left; apply Z.leb_gt; lia) || (right; apply Z.leb_gt; lia)).
Qed.

Lemma traverse_b64 (q : list Z) :
  Forall sextet q -> traverse b64_val (map b64_char q) = Some q.
Proof.
  induction 1 as [|n q Hn Hq IH]; simpl; [reflexivity|].
  now rewrite b64_val_char, IH.
Qed.

Lemma mod4_small (k r : nat) : (r < 4)%nat -> ((4 * k + r) mod 4 = r)%nat.
Proof.
  intros H. rewrite Nat.add_comm, Nat.mul_comm, Nat.Div0.mod_add.
  now apply Nat.mod_small.
Qed.

Lemma mod4_mul (k : nat) : ((4 * k) mod 4 = 0)%nat.
Proof. rewrite Nat.mul_comm. apply Nat.Div0.mod_mul. Qed.

Lemma b64_body_plain (q : list Z) :
  Forall sextet q -> Forall b64_plain (map b64_char q).
Proof.
  induction 1 as [|n q Hn Hq IH]; simpl; constructor; [|exact IH].
  now apply b64_char_plain.
Qed.

Lemma rev_head_in {A} (l : list A) (x : A) (r : list A) :
  rev l = x :: r -> In x l.
Proof.
  intros H. apply in_rev. rewrite H. now left.
Qed.

Lemma strip_padding_body (body : jsstring) (k : nat) :
  Forall b64_plain body ->
  (length body = 4 * k \/ length body = 4 * k + 2 \/ length body = 4 * k + 3)%nat ->
  strip_padding (body ++ b64_padding (length body)) = body.
Proof.
  intros Hp Hlen. rewrite Forall_forall in Hp.
  assert (exists pad, b64_padding (length body) = pad
                      /\ (length (body ++ pad) mod 4 = 0)%nat
                      /\ ((pad = [] /\ (length body = 4 * k)%nat)
                          \/ (pad = [61; 61])
                          \/ (pad = [61] /\ (length body = 4 * k + 3)%nat)))
    as [pad [-> [Hmod Hpad]]].
  { unfold b64_padding. destruct Hlen as [H|[H|H]]; rewrite H.
    - exists []. rewrite mod4_mul, app_nil_r, H, mod4_mul. auto.
    - exists [61; 61]. rewrite (mod4_small k 2), length_app, H by lia.
      cbn [length]. replace (4 * k + 2 + 2)%nat with (4 * S k)%nat by lia.
      rewrite mod4_mul. auto.
    - exists [61]. rewrite (mod4_small k 3), length_app, H by lia.
      cbn [length]. replace (4 * k + 3 + 1)%nat with (4 * S k)%nat by lia.
      rewrite mod4_mul. split; [reflexivity|]. split; [reflexivity|].
      right. right. now split. }
  unfold strip_padding. rewrite Hmod. cbn [Nat.eqb].
  destruct Hpad as [[-> H]|[->|[-> H]]].
  - rewrite app_nil_r.
    destruct (rev body) as [|c1 r1] eqn:R; [reflexivity|].
    apply rev_head_in in R. destruct (Hp c1 R) as [Hc _].
    apply Z.eqb_neq in Hc. now rewrite Hc.
  - rewrite rev_app_distr. simpl. apply rev_involutive.
  - rewrite rev_app_distr. simpl.
    destruct (rev body) as [|c2 r2] eqn:R.
    + apply (f_equal (@length Z)) in R. rewrite length_rev, H in R. simpl in R. lia.
    + pose proof R as R'. apply rev_head_in in R'. destruct (Hp c2 R') as [Hc _].
      apply Z.eqb_neq in Hc. rewrite Hc. rewrite <- R. apply rev_involutive.
Qed.

Lemma b64_code_no_ws (body : jsstring) (n : nat) :
  Forall b64_plain body ->
  filter (fun c => negb (is_ascii_ws c)) (body ++ b64_padding n)
  = body ++ b64_padding n.
Proof.
  intros Hp. apply filter_keeps_all. intros c Hc. apply negb_true_iff.
  apply in_app_or in Hc as [Hc|Hc].
  - rewrite Forall_forall in Hp. now apply Hp.
  - unfold b64_padding in Hc. apply repeat_spec in Hc. now subst c.
Qed.

Lemma trim_start_plain (s : jsstring) :
  Forall (fun c => is_js_space c = false) s -> trim_start s = s.
Proof. intros H. destruct H as [|c s Hc Hs]; simpl; [reflexivity | now rewrite Hc]. Qed.

Lemma trim_plain (s : jsstring) :
  Forall (fun c => is_js_space c = false) s -> trim s = s.
Proof.
  intros H. unfold trim. rewrite (trim_start_plain s H).
  rewrite trim_start_plain; [apply rev_involutive|].
  apply Forall_forall. intros c Hc. apply in_rev in Hc.
  rewrite Forall_forall in H. now apply H.
Qed.

(** [atob] undoes [btoa]; the code holds no white space. *)
Lemma atob_btoa (s : jsstring) :
  Forall octet s ->
  exists code, btoa s = Ok code /\ atob code = Ok s /\ trim code = code
               /\ (s <> [] -> code <> []).
Proof.
  intros Hs. unfold btoa. rewrite (proj2 (is_byte_octet s) Hs).
  set (body := map b64_char (sextets s)).
  assert (Forall b64_plain body) as Hp
    by (apply b64_body_plain; now apply sextets_range).
  destruct (sextets_length s) as [k Hk].
  assert (length body = length (sextets s)) as Hl by apply length_map.
  rewrite <- Hl in Hk.
  eexists. split; [reflexivity|]. split; [|split].
  - unfold atob. rewrite (b64_code_no_ws body _ Hp).
    rewrite (strip_padding_body body k Hp Hk).
    assert ((length body mod 4 =? 1)%nat = false) as ->.
    { apply Nat.eqb_neq. destruct Hk as [H|[H|H]]; rewrite H.
      - rewrite mod4_mul; lia.
      - rewrite (mod4_small k 2); lia.
      - rewrite (mod4_small k 3); lia. }
    unfold body. rewrite traverse_b64 by now apply sextets_range.
    now rewrite unsextets_sextets.
  - apply trim_plain. apply Forall_app. split.
    + eapply Forall_impl; [|exact Hp]. intros c Hc. apply Hc.
    + apply Forall_forall. intros c Hc. unfold b64_padding in Hc.
      apply repeat_spec in Hc. now subst c.
  - intros Hne E. apply app_eq_nil in E as [E _].
    unfold body in E. apply map_eq_nil in E.
    destruct s as [|a [|b [|c s']]]; simpl in E; congruence.
Qed.

(* ------------------------------------------------------------------ *)
(** ** Percent-encoding *)

Lemma well_formed_ind (P : jsstring -> Prop) :
  P [] ->
  (forall c r, is_high c = false -> is_low c = false -> code_unit c ->
               well_formed_utf16 r = true -> P r -> P (c :: r)) ->
  (forall c d r, is_high c = true -> is_low d = true ->
                 well_formed_utf16 r = true -> P r -> P (c :: d :: r)) ->
  forall s, well_formed_utf16 s = true -> P s.
Proof.
  intros H0 H1 H2.
  assert (forall n s, (length s <= n)%nat -> well_formed_utf16 s = true -> P s)
    as H.
  { induction n as [|n IH]; intros s Hn Hs.
    - destruct s; [exact H0 | simpl in Hn; lia].
    - destruct s as [|c r]; [exact H0|]. simpl in Hs, Hn.
      destruct (is_high c) eqn:Hh.
      + destruct r as [|d r']; [discriminate|].
        apply andb_true_iff in Hs as [Hd Hr]. simpl in Hn.
        apply H2; auto. apply IH; [lia | exact Hr].
      + apply andb_true_iff in Hs as [Hs Hr].
        apply andb_true_iff in Hs as [Hl Hc].
        apply negb_true_iff in Hl. unfold code_unitb in Hc.
        apply andb_true_iff in Hc as [Hc1 Hc2].
        apply Z.leb_le in Hc1. apply Z.ltb_lt in Hc2.
        apply H1; auto; [split; assumption|]. apply IH; [lia | exact Hr]. }
  intros s. now apply (H (length s)).
Qed.

Lemma hex_val_upper (n : Z) : 0 <= n < 16 -> hex_val (hex_upper n) = Some n.
Proof.
  intros H. unfold hex_val, hex_upper, is_digit, in_range.
  bool_cases; bool_to_Z; try (f_equal; lia); try lia.
Qed.

Lemma hex_byte_pct (b : Z) :
  octet b -> hex_byte (hex_upper (b / 16)) (hex_upper (b mod 16)) = Some b.
Proof.
  unfold octet. intros H. unfold hex_byte.
  rewrite !hex_val_upper by (Z.div_mod_to_equations; lia).
  f_equal. Z.div_mod_to_equations. lia.
Qed.

Lemma cont_bits_pct (b : Z) :
  128 <= b < 192 ->
  cont_bits 37 (hex_upper (b / 16)) (hex_upper (b mod 16)) = Some (b - 128).
Proof.
  intros H. unfold cont_bits. cbn [Z.eqb Pos.eqb].
  rewrite hex_byte_pct by (unfold octet; lia).
  unfold in_range. destruct ((128 <=? b) && (b <=? 191)) eqn:E; [reflexivity|].
  bool_to_Z. lia.
Qed.

Lemma decode_1 (b : Z) (e : jsstring) :
  0 <= b < 128 ->
  decodeURIComponent (pct b ++ e) = res_map (cons b) (decodeURIComponent e).
Proof.
  intros H. unfold pct. cbn [app].
  cbn [decodeURIComponent negb Z.eqb Pos.eqb].
  rewrite hex_byte_pct by (unfold octet; lia).
  decide_ltb. reflexivity.
Qed.

Lemma decode_2 (b1 b2 : Z) (e : jsstring) :
  192 <= b1 < 224 -> 128 <= b2 < 192 ->
  valid2 ((b1 - 192) * 64 + (b2 - 128)) = true ->
  decodeURIComponent (pct b1 ++ pct b2 ++ e)
  = res_map (app (utf16 ((b1 - 192) * 64 + (b2 - 128)))) (decodeURIComponent e).
Proof.
  intros H1 H2 V. unfold pct. cbn [app].
  cbn [decodeURIComponent negb Z.eqb Pos.eqb].
  rewrite hex_byte_pct by (unfold octet; lia).
  decide_ltb. rewrite cont_bits_pct by lia. now rewrite V.
Qed.

Lemma decode_3 (b1 b2 b3 : Z) (e : jsstring) :
  224 <= b1 < 240 -> 128 <= b2 < 192 -> 128 <= b3 < 192 ->
  valid3 ((b1 - 224) * 4096 + (b2 - 128) * 64 + (b3 - 128)) = true ->
  decodeURIComponent (pct b1 ++ pct b2 ++ pct b3 ++ e)
  = res_map (app (utf16 ((b1 - 224) * 4096 + (b2 - 128) * 64 + (b3 - 128))))
      (decodeURIComponent e).
Proof.
  intros H1 H2 H3 V. unfold pct. cbn [app].
  cbn [decodeURIComponent negb Z.eqb Pos.eqb].
  rewrite hex_byte_pct by (unfold octet; lia).
  decide_ltb. rewrite !cont_bits_pct by lia. now rewrite V.
Qed.

Lemma decode_4 (b1 b2 b3 b4 : Z) (e : jsstring) :
  240 <= b1 < 248 -> 128 <= b2 < 192 -> 128 <= b3 < 192 -> 128 <= b4 < 192 ->
  valid4 ((b1 - 240) * 262144 + (b2 - 128) * 4096 + (b3 - 128) * 64 + (b4 - 128))
  = true ->
  decodeURIComponent (pct b1 ++ pct b2 ++ pct b3 ++ pct b4 ++ e)
  = res_map
      (app (utf16 ((b1 - 240) * 262144 + (b2 - 128) * 4096 + (b3 - 128) * 64
                   + (b4 - 128))))
      (decodeURIComponent e).
Proof.
  intros H1 H2 H3 H4 V. unfold pct. cbn [app].
  cbn [decodeURIComponent negb Z.eqb Pos.eqb].
  rewrite hex_byte_pct by (unfold octet; lia).
  decide_ltb. rewrite !cont_bits_pct by lia. now rewrite V.
Qed.

Lemma decode_escape_cp (cp : Z) (e : jsstring) :
  scalar cp ->
  decodeURIComponent (escape_cp cp ++ e)
  = res_map (app (utf16 cp)) (decodeURIComponent e).
Proof.
  intros [Hr Hs]. unfold escape_cp, utf8.
  destruct (cp <? 128) eqn:L1; [|destruct (cp <? 2048) eqn:L2;
    [|destruct (cp <? 65536) eqn:L3]]; bool_to_Z;
    cbn [map concat]; rewrite <- ?app_assoc; rewrite ?app_nil_l.
  - rewrite decode_1 by lia. unfold utf16. decide_ltb.
    destruct (decodeURIComponent e); reflexivity.
  - assert ((192 + cp / 64 - 192) * 64 + (128 + cp mod 64 - 128) = cp) as E
      by (Z.div_mod_to_equations; lia).
    rewrite decode_2.
    + now rewrite E.
    + Z.div_mod_to_equations. lia.
    + Z.div_mod_to_equations. lia.
    + rewrite E. unfold valid2. apply Z.leb_le. lia.
  - assert ((224 + cp / 4096 - 224) * 4096 + (128 + (cp / 64) mod 64 - 128) * 64
            + (128 + cp mod 64 - 128) = cp) as E
      by (Z.div_mod_to_equations; lia).
    rewrite decode_3.
    + now rewrite E.
    + Z.div_mod_to_equations. lia.
    + Z.div_mod_to_equations. lia.
    + Z.div_mod_to_equations. lia.
    + rewrite E. unfold valid3, in_range.
      apply andb_true_iff. split; [apply Z.leb_le; lia|].
      apply negb_true_iff. apply andb_false_iff.
      destruct (Z_le_gt_dec 55296 cp); [right; apply Z.leb_gt; lia
                                       | left; apply Z.leb_gt; lia].
  - assert ((240 + cp / 262144 - 240) * 262144
            + (128 + (cp / 4096) mod 64 - 128) * 4096
            + (128 + (cp / 64) mod 64 - 128) * 64
            + (128 + cp mod 64 - 128) = cp) as E
      by (Z.div_mod_to_equations; lia).
    rewrite decode_4.
    + now rewrite E.
    + Z.div_mod_to_equations. lia.
    + Z.div_mod_to_equations. lia.
    + Z.div_mod_to_equations. lia.
    + Z.div_mod_to_equations. lia.
    + rewrite E. unfold valid4, in_range.
      apply andb_true_iff. split; apply Z.leb_le; lia.
Qed.

Lemma hex_upper_octet (n : Z) : 0 <= n < 16 -> octet (hex_upper n).
Proof. unfold hex_upper, octet. intros H. destruct (n <? 10); lia. Qed.

Lemma pct_octets (b : Z) : octet b -> Forall octet (pct b).
Proof.
  unfold pct. intros H. unfold octet in H.
  repeat constructor; try (unfold octet; lia);
    apply hex_upper_octet; Z.div_mod_to_equations; lia.
Qed.

Lemma utf8_octets (cp : Z) : 0 <= cp < 1114112 -> Forall octet (utf8 cp).
Proof.
  intros H. unfold utf8.
  destruct (cp <? 128) eqn:L1; [|destruct (cp <? 2048) eqn:L2;
    [|destruct (cp <? 65536) eqn:L3]]; bool_to_Z;
    repeat constructor; unfold octet; Z.div_mod_to_equations; lia.
Qed.

Lemma escape_cp_octets (cp : Z) : 0 <= cp < 1114112 -> Forall octet (escape_cp cp).
Proof.
  intros H. unfold escape_cp. pose proof (utf8_octets cp H) as Hb.
  induction Hb as [|b l Hb Hl IH]; cbn [map concat]; [constructor|].
  apply Forall_app. split; [now apply pct_octets | exact IH].
Qed.

Lemma escape_cp_nonempty (cp : Z) (e : jsstring) : escape_cp cp ++ e <> [].
Proof.
  unfold escape_cp, utf8.
  destruct (cp <? 128); [|destruct (cp <? 2048); [|destruct (cp <? 65536)]];
    discriminate.
Qed.

Lemma unreserved_plain (c : Z) :
  uri_unreserved c = true -> octet c /\ (c =? 37) = false.
Proof.
  unfold uri_unreserved, is_alnum, is_digit, in_range, octet. intros H.
  bool_to_Z.
  assert (33 <= c <= 126 /\ c <> 37) as [H1 H2].
  { repeat match goal with H : _ \/ _ |- _ => destruct H end; bool_to_Z; lia. }
  split; [lia | apply Z.eqb_neq; exact H2].
Qed.

(** [decodeURIComponent] undoes [encodeURIComponent], which accepts every
    well-formed string and produces octets. *)
Lemma uri_round_trip (s : jsstring) :
  well_formed_utf16 s = true ->
  exists e, encodeURIComponent s = Ok e
            /\ Forall octet e
            /\ decodeURIComponent e = Ok s
            /\ (s <> [] -> e <> []).
Proof.
  intros Hwf. pattern s. apply well_formed_ind; [ | | | exact Hwf]; clear s Hwf.
  - exists []. repeat split; try constructor. congruence.
  - intros c r H H0 H1 Hwr IHs.
    destruct IHs as [e [He [Ho [Hd _]]]]. cbn [encodeURIComponent].
    rewrite He. destruct (uri_unreserved c) eqn:U.
    + destruct (unreserved_plain c U) as [Hc Hp].
      exists (c :: e). repeat split; try (constructor; assumption);
        try discriminate.
      cbn [decodeURIComponent]. rewrite Hp. cbn [negb]. now rewrite Hd.
    + rewrite H0, H. exists (escape_cp c ++ e).
      assert (scalar c) as Hsc.
      { unfold scalar, code_unit in *. unfold is_high, is_low in *.
        bool_to_Z. lia. }
      split; [reflexivity|]. split; [|split].
      * apply Forall_app. split; [|exact Ho]. apply escape_cp_octets.
        apply Hsc.
      * rewrite decode_escape_cp by exact Hsc. rewrite Hd. cbn [res_map].
        unfold utf16. destruct Hsc as [Hr Hns]. unfold code_unit in H1.
        decide_ltb. reflexivity.
      * intros _. apply escape_cp_nonempty.
  - intros c d r H H0 Hwr IHs.
    destruct IHs as [e [He [Ho [Hd _]]]]. cbn [encodeURIComponent].
    assert (55296 <= c <= 56319 /\ 56320 <= d <= 57343) as [Hc Hdd].
    { unfold is_high, is_low in *. bool_to_Z. lia. }
    assert (uri_unreserved c = false) as ->.
    { destruct (uri_unreserved c) eqn:U; [|reflexivity].
      apply unreserved_plain in U as [U _]. unfold octet in U. lia. }
    assert (is_low c = false) as ->.
    { unfold is_low, in_range. apply andb_false_iff. left. apply Z.leb_gt. lia. }
    rewrite H, H0, He. exists (escape_cp (pair_cp c d) ++ e).
    assert (scalar (pair_cp c d) /\ 65536 <= pair_cp c d) as [Hsc Hbig].
    { unfold scalar, pair_cp. lia. }
    split; [reflexivity|]. split; [|split].
    + apply Forall_app. split; [|exact Ho]. apply escape_cp_octets. apply Hsc.
    + rewrite decode_escape_cp by exact Hsc. rewrite Hd. cbn [res_map].
      unfold utf16. decide_ltb. unfold pair_cp. cbn [app].
      f_equal. f_equal; [|f_equal]; Z.div_mod_to_equations; lia.
    + intros _. apply escape_cp_nonempty.
Qed.

(* ------------------------------------------------------------------ *)
(** ** JSON strings *)

Lemma wf_string_iff (s : jsstring) : wf_stringb s = true <-> wf_string s.
Proof.
  unfold wf_stringb, wf_string. rewrite forallb_forall, Forall_forall.
  unfold code_unitb, code_unit.
  split; intros H c Hc; specialize (H c Hc).
  - bool_to_Z. lia.
  - apply andb_true_iff. split; [apply Z.leb_le | apply Z.ltb_lt]; lia.
Qed.

Lemma parse_plain (c : Z) (x : jsstring) :
  c <> 34 -> c <> 92 -> 32 <= c ->
  parse_string_body (c :: x) = cons_fst c (parse_string_body x).
Proof.
  intros H1 H2 H3. cbn [parse_string_body].
  apply Z.eqb_neq in H1, H2. rewrite H1, H2.
  decide_ltb. reflexivity.
Qed.

Lemma parse_short (e u : Z) (x : jsstring) :
  unescape e = Some u -> e <> 117 ->
  parse_string_body (92 :: e :: x) = cons_fst u (parse_string_body x).
Proof.
  intros H1 H2. cbn [parse_string_body Z.eqb Pos.eqb].
  apply Z.eqb_neq in H2. now rewrite H2, H1.
Qed.

Lemma hex_val_lower (n : Z) : 0 <= n < 16 -> hex_val (hex_lower n) = Some n.
Proof.
  intros H. unfold hex_val, hex_lower, is_digit, in_range.
  bool_cases; bool_to_Z; try (f_equal; lia); try lia.
Qed.

Lemma parse_u (c : Z) (x : jsstring) :
  code_unit c ->
  parse_string_body (u_escape c ++ x) = cons_fst c (parse_string_body x).
Proof.
  unfold code_unit. intros H. unfold u_escape. cbn [app].
  cbn [parse_string_body Z.eqb Pos.eqb]. unfold hex4.
  rewrite !hex_val_lower by (Z.div_mod_to_equations; lia).
  replace ((((c / 4096 * 16 + (c / 256) mod 16) * 16 + (c / 16) mod 16) * 16
            + c mod 16)) with c by (Z.div_mod_to_equations; lia).
  reflexivity.
Qed.

Lemma list_ind_pairs {A} (P : list A -> Prop) :
  (forall s, (forall r, (length r < length s)%nat -> P r) -> P s) ->
  forall s, P s.
Proof.
  intros H.
  assert (forall n s, (length s < n)%nat -> P s) as G.
  { induction n as [|n IH]; intros s Hs; [lia|].
    apply H. intros r Hr. apply IH. lia. }
  intros s. apply (G (S (length s))). lia.
Qed.

(** Reading back a quoted string gives the string. *)
Lemma parse_quote_body (s : jsstring) :
  wf_string s ->
  forall rest, parse_string_body (quote_body s ++ 34 :: rest) = Some (s, rest).
Proof.
  induction s as [s IH] using list_ind_pairs. intros Hwf rest.
  destruct s as [|c r]; [reflexivity|].
  apply Forall_cons_iff in Hwf as [Hc Hr].
  assert (parse_string_body (quote_body r ++ 34 :: rest) = Some (r, rest)) as IHr
    by (apply IH; [simpl; lia | exact Hr]).
  cbn [quote_body].
  destruct (c =? 8) eqn:E8;
    [bool_to_Z; subst c; cbn [app]; rewrite (parse_short 98 8) by (reflexivity || lia);
     now rewrite IHr|].
  destruct (c =? 9) eqn:E9;
    [bool_to_Z; subst c; cbn [app]; rewrite (parse_short 116 9) by (reflexivity || lia);
     now rewrite IHr|].
  destruct (c =? 10) eqn:E10;
    [bool_to_Z; subst c; cbn [app]; rewrite (parse_short 110 10) by (reflexivity || lia);
     now rewrite IHr|].
  destruct (c =? 12) eqn:E12;
    [bool_to_Z; subst c; cbn [app]; rewrite (parse_short 102 12) by (reflexivity || lia);
     now rewrite IHr|].
  destruct (c =? 13) eqn:E13;
    [bool_to_Z; subst c; cbn [app]; rewrite (parse_short 114 13) by (reflexivity || lia);
     now rewrite IHr|].
  destruct (c =? 34) eqn:E34;
    [bool_to_Z; subst c; cbn [app]; rewrite (parse_short 34 34) by (reflexivity || lia);
     now rewrite IHr|].
  destruct (c =? 92) eqn:E92;
    [bool_to_Z; subst c; cbn [app]; rewrite (parse_short 92 92) by (reflexivity || lia);
     now rewrite IHr|].
  destruct (c <? 32) eqn:L32;
    [rewrite <- app_assoc, parse_u by exact Hc; now rewrite IHr|].
  destruct (is_low c) eqn:Low;
    [rewrite <- app_assoc, parse_u by exact Hc; now rewrite IHr|].
  bool_to_Z.
  destruct (is_high c) eqn:High.
  - destruct r as [|d r'].
    + rewrite parse_u by exact Hc. reflexivity.
    + destruct (is_low d) eqn:Lowd.
      * cbn [app]. rewrite parse_plain by lia.
        unfold is_low, in_range in Lowd. bool_to_Z.
        rewrite parse_plain by lia.
        apply Forall_cons_iff in Hr as [_ Hr'].
        rewrite (IH r') by (simpl; lia || exact Hr'). reflexivity.
      * rewrite <- app_assoc, parse_u by exact Hc. now rewrite IHr.
  - cbn [app]. rewrite parse_plain by lia. now rewrite IHr.
Qed.

(** Induction over values, with the hypothesis for every element of an
    array and every property value of an object. *)
Lemma value_nested_ind (P : value -> Prop)
  (Hnull : P VNull) (Hbool : forall b, P (VBool b)) (Hnum : forall n, P (VNum n))
  (Hstr : forall s, P (VStr s))
  (Harr : forall l, Forall P l -> P (VArr l))
  (Hobj : forall ps, Forall (fun kv => P (snd kv)) ps -> P (VObj ps))
  : forall v, P v.
Proof.
  exact (fix go (v : value) : P v :=
    match v with
    | VNull => Hnull
    | VBool b => Hbool b
    | VNum n => Hnum n
    | VStr s => Hstr s
    | VArr l =>
        Harr l ((fix elems (l : list value) : Forall P l :=
                   match l with
                   | [] => Forall_nil P
                   | x :: l' => Forall_cons x (go x) (elems l')
                   end) l)
    | VObj ps =>
        Hobj ps ((fix members (ps : list (jsstring * value))
                    : Forall (fun kv => P (snd kv)) ps :=
                    match ps with
                    | [] => Forall_nil _
                    | kv :: ps' =>
                        Forall_cons (P := fun kv => P (snd kv)) kv (go (snd kv))
                          (members ps')
                    end) ps)
    end).
Qed.

Lemma wf_app (a b : jsstring) :
  well_formed_utf16 a = true -> well_formed_utf16 b = true ->
  well_formed_utf16 (a ++ b) = true.
Proof.
  intros Ha Hb. pattern a. apply well_formed_ind; [ | | | exact Ha]; clear a Ha.
  - exact Hb.
  - intros c r Hh Hl Hc _ IH. cbn [app well_formed_utf16]. rewrite Hh, Hl, IH.
    unfold code_unitb, code_unit in *.
    replace (0 <=? c) with true by (symmetry; apply Z.leb_le; lia).
    replace (c <? 65536) with true by (symmetry; apply Z.ltb_lt; lia).
    reflexivity.
  - intros c d r Hh Hl _ IH. cbn [app well_formed_utf16]. now rewrite Hh, Hl, IH.
Qed.

Lemma wf_plain_cons (c : Z) (r : jsstring) :
  code_unit c -> is_high c = false -> is_low c = false ->
  well_formed_utf16 r = true -> well_formed_utf16 (c :: r) = true.
Proof.
  intros Hc Hh Hl Hr. cbn [well_formed_utf16]. rewrite Hh, Hl, Hr.
  unfold code_unitb, code_unit in *.
  replace (0 <=? c) with true by (symmetry; apply Z.leb_le; lia).
  replace (c <? 65536) with true by (symmetry; apply Z.ltb_lt; lia).
  reflexivity.
Qed.

Lemma ascii7_plain (c : Z) :
  ascii7 c -> code_unit c /\ is_high c = false /\ is_low c = false.
Proof.
  unfold ascii7, code_unit, is_high, is_low, in_range. intros H.
  repeat split; try lia; apply andb_false_iff; left; apply Z.leb_gt; lia.
Qed.

Lemma wf_ascii7 (s : jsstring) : Forall ascii7 s -> well_formed_utf16 s = true.
Proof.
  induction 1 as [|c s Hc Hs IH]; [reflexivity|].
  destruct (ascii7_plain c Hc) as [H1 [H2 H3]]. now apply wf_plain_cons.
Qed.

Lemma hex_lower_ascii7 (n : Z) : 0 <= n < 16 -> ascii7 (hex_lower n).
Proof. unfold hex_lower, ascii7. intros H. destruct (n <? 10); lia. Qed.

Lemma u_escape_ascii7 (c : Z) : code_unit c -> Forall ascii7 (u_escape c).
Proof.
  unfold code_unit, u_escape. intros H.
  repeat constructor; try (unfold ascii7; lia);
    apply hex_lower_ascii7; Z.div_mod_to_equations; lia.
Qed.

Lemma wf_ascii7_app (a r : jsstring) :
  Forall ascii7 a -> well_formed_utf16 r = true ->
  well_formed_utf16 (a ++ r) = true.
Proof. intros Ha Hr. apply wf_app; [now apply wf_ascii7 | exact Hr]. Qed.

Lemma quote_body_wf (s : jsstring) :
  wf_string s -> well_formed_utf16 (quote_body s) = true.
Proof.
  induction s as [s IH] using list_ind_pairs. intros Hwf.
  destruct s as [|c r]; [reflexivity|].
  apply Forall_cons_iff in Hwf as [Hc Hr].
  assert (well_formed_utf16 (quote_body r) = true) as IHr
    by (apply IH; [simpl; lia | exact Hr]).
  assert (forall x y, ascii7 x -> ascii7 y ->
                      well_formed_utf16 (x :: y :: quote_body r) = true) as Hsh.
  { intros x y Hx Hy. apply (wf_ascii7_app [x; y]); [|exact IHr].
    constructor; [exact Hx|]. constructor; [exact Hy | constructor]. }
  cbn [quote_body].
  destruct (c =? 8); [apply Hsh; unfold ascii7; lia|].
  destruct (c =? 9); [apply Hsh; unfold ascii7; lia|].
  destruct (c =? 10); [apply Hsh; unfold ascii7; lia|].
  destruct (c =? 12); [apply Hsh; unfold ascii7; lia|].
  destruct (c =? 13); [apply Hsh; unfold ascii7; lia|].
  destruct (c =? 34); [apply Hsh; unfold ascii7; lia|].
  destruct (c =? 92); [apply Hsh; unfold ascii7; lia|].
  destruct (c <? 32);
    [apply wf_ascii7_app; [now apply u_escape_ascii7 | exact IHr]|].
  destruct (is_low c) eqn:Low;
    [apply wf_ascii7_app; [now apply u_escape_ascii7 | exact IHr]|].
  destruct (is_high c) eqn:High.
  - destruct r as [|d r'].
    + apply wf_ascii7. now apply u_escape_ascii7.
    + destruct (is_low d) eqn:Lowd.
      * cbn [well_formed_utf16]. rewrite High, Lowd. cbn [andb].
        apply Forall_cons_iff in Hr as [_ Hr'].
        apply IH; [simpl; lia | exact Hr'].
      * apply wf_ascii7_app; [now apply u_escape_ascii7 | exact IHr].
  - now apply wf_plain_cons.
Qed.

Lemma quote_wf (s : jsstring) :
  wf_string s -> well_formed_utf16 (quote s) = true.
Proof.
  intros H. unfold quote. apply (wf_ascii7_app [34]).
  - repeat constructor; unfold ascii7; lia.
  - apply wf_app; [now apply quote_body_wf | reflexivity].
Qed.

(* ------------------------------------------------------------------ *)
(** ** JSON numbers *)

Lemma digits_acc (u : Decimal.uint) (acc : positive) :
  fold_left digit_step (uint_digits u) (Zpos acc) = Zpos (Pos.of_uint_acc u acc).
Proof.
  revert acc. induction u; intros acc; cbn [uint_digits fold_left Pos.of_uint_acc];
    try reflexivity; rewrite <- IHu; f_equal; unfold digit_step; lia.
Qed.

Lemma digits_value_uint (u : Decimal.uint) :
  digits_value (uint_digits u) = Z.of_N (Pos.of_uint u).
Proof.
  unfold digits_value.
  induction u; cbn [uint_digits fold_left Pos.of_uint]; try reflexivity;
    try exact IHu;
    match goal with
    | |- fold_left _ _ (digit_step 0 ?d) = _ =>
        let k := eval cbv in (digit_step 0 d) in
        change (digit_step 0 d) with k
    end; rewrite digits_acc; reflexivity.
Qed.

Lemma take_digits_uint (u : Decimal.uint) (rest : jsstring) :
  delimited rest -> take_digits (uint_digits u ++ rest) = (uint_digits u, rest).
Proof.
  intros Hd. induction u; cbn [uint_digits app take_digits];
    try (rewrite IHu; reflexivity).
  destruct rest as [|c rest']; [reflexivity|]. simpl in Hd.
  cbn [take_digits]. unfold is_digit, in_range.
  destruct Hd as [-> | [-> | ->]]; reflexivity.
Qed.

Lemma nzhead_head (u : Decimal.uint) :
  forall d ds, uint_digits (Decimal.nzhead u) = d :: ds -> 49 <= d <= 57.
Proof.
  induction u; intros d ds; cbn [Decimal.nzhead uint_digits];
    try (intros H; injection H as Hd _; lia).
  - discriminate.
  - apply IHu.
Qed.

(** The decimal text of a positive number starts with a digit other
    than 0. *)
Lemma to_uint_head (p : positive) :
  exists d ds, uint_digits (Pos.to_uint p) = d :: ds /\ 49 <= d <= 57.
Proof.
  pose proof (DecimalPos.Unsigned.to_of (Pos.to_uint p)) as H.
  rewrite DecimalPos.Unsigned.of_to in H. cbn [N.to_uint] in H.
  pose proof (DecimalPos.Unsigned.to_uint_nonzero p) as Hnz.
  unfold Decimal.unorm in H.
  destruct (Decimal.nzhead (Pos.to_uint p)) eqn:E;
    try (exfalso; apply Hnz; exact H);
    rewrite H; cbn [uint_digits]; eexists; eexists; (split; [reflexivity|]);
    eapply (nzhead_head (Pos.to_uint p)); rewrite E; cbn [uint_digits];
    reflexivity.
Qed.

Lemma starts_fraction_delimited (rest : jsstring) :
  delimited rest -> starts_fraction rest = false.
Proof.
  destruct rest as [|c rest']; [reflexivity|]. simpl.
  intros [-> | [-> | ->]]; reflexivity.
Qed.

Lemma parse_number_uint (u : Decimal.uint) (d : Z) (ds rest : jsstring) :
  uint_digits u = d :: ds -> 48 <= d <= 57 -> (d = 48 -> ds = []) ->
  delimited rest ->
  parse_number (uint_digits u ++ rest) = Some (Z.of_N (Pos.of_uint u), rest)
  /\ parse_number (45 :: uint_digits u ++ rest)
     = Some (- Z.of_N (Pos.of_uint u), rest).
Proof.
  intros Hu Hd Hz Hrest.
  assert (forall neg,
            (let '(ds0, rest0) := take_digits (uint_digits u ++ rest) in
             match ds0 with
             | [] => None
             | d0 :: ds' =>
                 if (d0 =? 48) && (match ds' with [] => false | _ => true end)
                 then None
                 else if starts_fraction rest0 then None
                 else Some (if neg : bool then - digits_value ds0
                            else digits_value ds0, rest0)
             end)
            = Some (if neg then - Z.of_N (Pos.of_uint u)
                    else Z.of_N (Pos.of_uint u), rest)) as H.
  { intros neg. rewrite take_digits_uint by exact Hrest.
    rewrite <- digits_value_uint. rewrite Hu.
    rewrite (starts_fraction_delimited rest Hrest).
    destruct (d =? 48) eqn:E.
    - bool_to_Z. rewrite (Hz E). reflexivity.
    - reflexivity. }
  split.
  - unfold parse_number. rewrite Hu at 1. cbn [app].
    replace (d =? 45) with false by (symmetry; apply Z.eqb_neq; lia).
    exact (H false).
  - unfold parse_number. cbn [Z.eqb Pos.eqb]. exact (H true).
Qed.

Lemma parse_number_toString (n : Z) (rest : jsstring) :
  delimited rest ->
  parse_number (Number_toString n ++ rest) = Some (n, rest)
  /\ exists c r, Number_toString n = c :: r
                 /\ ((c =? 45) || is_digit c) = true.
Proof.
  intros Hrest. unfold Number_toString. destruct n as [|p|p]; cbn [Z.to_int].
  - split; [|exists 48, []; split; reflexivity].
    cbn [uint_digits app]. unfold parse_number. cbn [Z.eqb Pos.eqb].
    change (48 :: rest) with (uint_digits (Decimal.D0 Decimal.Nil) ++ rest).
    rewrite take_digits_uint by exact Hrest. cbn [uint_digits Z.eqb Pos.eqb andb].
    now rewrite (starts_fraction_delimited rest Hrest).
  - destruct (to_uint_head p) as [d [ds [Hu Hd]]].
    destruct (parse_number_uint (Pos.to_uint p) d ds rest Hu) as [H _];
      try lia; try exact Hrest.
    rewrite DecimalPos.Unsigned.of_to in H. split; [exact H|].
    exists d, ds. split; [exact Hu|]. apply orb_true_iff. right.
    unfold is_digit, in_range. apply andb_true_iff.
    split; apply Z.leb_le; lia.
  - destruct (to_uint_head p) as [d [ds [Hu Hd]]].
    destruct (parse_number_uint (Pos.to_uint p) d ds rest Hu) as [_ H];
      try lia; try exact Hrest.
    rewrite DecimalPos.Unsigned.of_to in H. split; [exact H|].
    eexists; eexists. split; reflexivity.
Qed.

(* ------------------------------------------------------------------ *)
(** ** JSON values *)

Lemma parse_value_string (f : nat) (x : jsstring) :
  parse_value (S f) (34 :: x)
  = match parse_string_body x with
    | Some (str, rest) => Some (VStr str, rest)
    | None => None
    end.
Proof. reflexivity. Qed.

Lemma parse_value_array (f : nat) (x : jsstring) :
  parse_value (S f) (91 :: x)
  = match skip_ws x with
    | [] => None
    | c' :: r' =>
        if c' =? 93 then Some (VArr [], r')
        else
          match parse_elements f x with
          | Some (vs, rest) => Some (VArr vs, rest)
          | None => None
          end
    end.
Proof. reflexivity. Qed.

Lemma parse_value_object (f : nat) (x : jsstring) :
  parse_value (S f) (123 :: x)
  = match skip_ws x with
    | [] => None
    | c' :: r' =>
        if c' =? 125 then Some (VObj [], r')
        else
          match parse_members f x with
          | Some (ms, rest) => Some (VObj (mk_object ms), rest)
          | None => None
          end
    end.
Proof. reflexivity. Qed.

Lemma parse_value_number (f : nat) (c : Z) (r : jsstring) :
  ((c =? 45) || is_digit c) = true ->
  parse_value (S f) (c :: r)
  = match parse_number (c :: r) with
    | Some (n, rest) => Some (VNum n, rest)
    | None => None
    end.
Proof.
  intros H. unfold is_digit in H. bool_to_Z.
  assert (c = 45 \/ c = 48 \/ c = 49 \/ c = 50 \/ c = 51 \/ c = 52 \/ c = 53
          \/ c = 54 \/ c = 55 \/ c = 56 \/ c = 57) as Hc
    by (destruct H as [H|H]; bool_to_Z; lia).
  clear H.
  repeat match goal with H : _ \/ _ |- _ => destruct H as [H|H] end;
    subst c; reflexivity.
Qed.

Lemma parse_elements_step (f : nat) (s : jsstring) :
  parse_elements (S f) s
  = match parse_value f s with
    | None => None
    | Some (v, r) =>
        match skip_ws r with
        | [] => None
        | c :: r' =>
            if c =? 44 then
              match parse_elements f r' with
              | Some (vs, rest) => Some (v :: vs, rest)
              | None => None
              end
            else if c =? 93 then Some ([v], r')
            else None
        end
    end.
Proof. reflexivity. Qed.

Lemma parse_members_step (f : nat) (x : jsstring) :
  parse_members (S f) (34 :: x)
  = match parse_string_body x with
    | None => None
    | Some (k, r1) =>
        match skip_ws r1 with
        | [] => None
        | colon :: r2 =>
            if colon =? 58 then
              match parse_value f r2 with
              | None => None
              | Some (v, r3) =>
                  match skip_ws r3 with
                  | [] => None
                  | c :: r4 =>
                      if c =? 44 then
                        match parse_members f r4 with
                        | Some (ms, rest) => Some ((k, v) :: ms, rest)
                        | None => None
                        end
                      else if c =? 125 then Some ([(k, v)], r4)
                      else None
                  end
              end
            else None
        end
    end.
Proof. reflexivity. Qed.

(** Serialized text starts with a character that is neither white space
    nor a closing bracket. *)
Lemma stringify_head (v : value) :
  exists c x, JSON_stringify v = c :: x
              /\ is_json_ws c = false /\ (c =? 93) = false.
Proof.
  destruct v as [|[|]|n|s|l|ps]; cbn [JSON_stringify];
    try (eexists; eexists; split; [reflexivity | split; reflexivity]).
  destruct (parse_number_toString n [] I) as [_ [c [r [E H]]]].
  exists c, r. split; [exact E|].
  unfold is_digit in H. bool_to_Z. unfold is_json_ws.
  assert (c = 45 \/ 48 <= c <= 57) as Hc by (destruct H as [H|H]; bool_to_Z; lia).
  split.
  - repeat (apply orb_false_iff; split); apply Z.eqb_neq; lia.
  - apply Z.eqb_neq. lia.
Qed.

Lemma skip_ws_stringify (v : value) (rest : jsstring) :
  skip_ws (JSON_stringify v ++ rest) = JSON_stringify v ++ rest.
Proof.
  destruct (stringify_head v) as [c [x [E [Hws _]]]].
  rewrite E. cbn [app skip_ws]. now rewrite Hws.
Qed.

Lemma join_comma_cons (p q : jsstring) (ps : list jsstring) :
  join_comma (p :: q :: ps) = p ++ 44 :: join_comma (q :: ps).
Proof. reflexivity. Qed.

Lemma parse_elements_ok (l : list value) :
  l <> [] -> Forall reads_back l ->
  forall fuel rest,
    (list_sum (map (fun x => S (size x)) l) <= fuel)%nat ->
    parse_elements fuel (join_comma (map JSON_stringify l) ++ 93 :: rest)
    = Some (l, rest).
Proof.
  induction l as [|x l IH]; [congruence|]. intros _ Hall fuel rest Hf.
  apply Forall_cons_iff in Hall as [Hx Hl].
  cbn [map list_sum fold_right] in Hf.
  destruct fuel as [|f]; [lia|].
  rewrite parse_elements_step.
  destruct l as [|y l'].
  - cbn [map join_comma]. rewrite (Hx f (93 :: rest)).
    + reflexivity.
    + lia.
    + simpl. auto.
  - cbn [map]. rewrite join_comma_cons, <- app_assoc. cbn [app].
    rewrite (Hx f).
    + cbn [skip_ws is_json_ws Z.eqb Pos.eqb orb].
      change (JSON_stringify y :: map JSON_stringify l')
        with (map JSON_stringify (y :: l')).
      rewrite IH; [reflexivity | discriminate | exact Hl | unfold list_sum; lia].
    + lia.
    + simpl. auto.
Qed.

Lemma parse_members_ok (ps : list (jsstring * value)) :
  ps <> [] ->
  Forall (fun kv => wf_string (fst kv) /\ reads_back (snd kv)) ps ->
  forall fuel rest,
    (list_sum (map (fun kv => S (size (snd kv))) ps) <= fuel)%nat ->
    parse_members fuel (join_comma (map member_text ps) ++ 125 :: rest)
    = Some (ps, rest).
Proof.
  induction ps as [|[k v] ps IH]; [congruence|]. intros _ Hall fuel rest Hf.
  apply Forall_cons_iff in Hall as [[Hk Hv] Hps]. cbn [fst snd] in Hk, Hv.
  cbn [map list_sum fold_right snd] in Hf.
  destruct fuel as [|f]; [lia|].
  assert (forall tail,
            delimited tail ->
            parse_members (S f) (member_text (k, v) ++ tail)
            = match skip_ws tail with
              | [] => None
              | c :: r4 =>
                  if c =? 44 then
                    match parse_members f r4 with
                    | Some (ms, rest) => Some ((k, v) :: ms, rest)
                    | None => None
                    end
                  else if c =? 125 then Some ([(k, v)], r4)
                  else None
              end) as Hstep.
  { intros tail Ht. unfold member_text, quote. cbn [fst snd app].
    rewrite parse_members_step. rewrite <- !app_assoc. cbn [app].
    rewrite parse_quote_body by exact Hk.
    cbn [skip_ws is_json_ws Z.eqb Pos.eqb orb].
    rewrite (Hv f tail); [reflexivity | lia | exact Ht]. }
  destruct ps as [|kv' ps'].
  - cbn [map join_comma]. rewrite Hstep by (simpl; auto). reflexivity.
  - cbn [map]. rewrite join_comma_cons, <- app_assoc. cbn [app].
    rewrite Hstep by (simpl; auto).
    cbn [skip_ws is_json_ws Z.eqb Pos.eqb orb].
    change (member_text kv' :: map member_text ps')
      with (map member_text (kv' :: ps')).
    rewrite IH; [reflexivity | discriminate | exact Hps | unfold list_sum; lia].
Qed.

Lemma existsb_str_eqb (k : jsstring) (ks : list jsstring) :
  existsb (str_eqb k) ks = true <-> In k ks.
Proof.
  rewrite existsb_exists. split.
  - intros [x [Hx E]]. apply str_eqb_eq in E. now subst.
  - intros H. exists k. split; [exact H | apply str_eqb_refl].
Qed.

Lemma nodup_keys_iff (ks : list jsstring) : nodup_keys ks = true <-> NoDup ks.
Proof.
  induction ks as [|k ks IH]; simpl.
  - split; [constructor | reflexivity].
  - rewrite andb_true_iff, negb_true_iff, IH, NoDup_cons_iff.
    rewrite <- existsb_str_eqb.
    destruct (existsb (str_eqb k) ks); intuition congruence.
Qed.

Lemma set_prop_fresh (o : obj) (k : jsstring) (v : value) :
  ~ In k (map fst o) -> set_prop o k v = o ++ [(k, v)].
Proof.
  induction o as [|[k' v'] o IH]; simpl; intros H; [reflexivity|].
  rewrite str_eqb_neq by (intros E; apply H; now left).
  f_equal. apply IH. intros F. apply H. now right.
Qed.

Lemma mk_object_acc (ps acc : obj) :
  NoDup (map fst (acc ++ ps)) ->
  fold_left (fun o kv => set_prop o (fst kv) (snd kv)) ps acc = acc ++ ps.
Proof.
  revert acc. induction ps as [|[k v] ps IH]; intros acc H; simpl.
  - now rewrite app_nil_r.
  - rewrite set_prop_fresh.
    + rewrite IH; rewrite <- app_assoc; [reflexivity | exact H].
    + rewrite map_app in H. simpl in H. apply NoDup_remove_2 in H.
      intros F. apply H. apply in_or_app. now left.
Qed.

(** An object whose keys are distinct is rebuilt as it was. *)
Lemma mk_object_nodup (ps : obj) :
  nodup_keys (map fst ps) = true -> mk_object ps = ps.
Proof.
  intros H. apply nodup_keys_iff in H. unfold mk_object.
  now rewrite mk_object_acc.
Qed.

Lemma join_head (l : list value) (t : jsstring) :
  l <> [] ->
  exists c x, join_comma (map JSON_stringify l) ++ t = c :: x
              /\ is_json_ws c = false /\ (c =? 93) = false.
Proof.
  destruct l as [|y l']; [congruence|]. intros _.
  destruct (stringify_head y) as [c [x [E [H1 H2]]]].
  destruct l' as [|z l'']; cbn [map]; [cbn [join_comma]|rewrite join_comma_cons];
    rewrite E; cbn [app]; eexists; eexists; (split; [reflexivity | now split]).
Qed.

Lemma join_members_head (ps : obj) (t : jsstring) :
  ps <> [] -> exists x, join_comma (map member_text ps) ++ t = 34 :: x.
Proof.
  destruct ps as [|[k v] ps']; [congruence|]. intros _.
  destruct ps' as [|kv ps'']; cbn [map]; [cbn [join_comma]|rewrite join_comma_cons];
    unfold member_text at 1, quote; cbn [fst app]; eexists; reflexivity.
Qed.

(** Parsing the serialized text of a representable value, whatever follows
    it, gives the value back. *)
Lemma stringify_reads_back (v : value) : representable v = true -> reads_back v.
Proof.
  induction v as [|b|n|s|l IH|ps IH] using value_nested_ind; intros Hrep.
  - intros [|f] rest Hf _; [simpl in Hf; lia | reflexivity].
  - intros [|f] rest Hf _; [simpl in Hf; lia | destruct b; reflexivity].
  - intros [|f] rest Hf Hd; [simpl in Hf; lia|]. cbn [JSON_stringify].
    destruct (parse_number_toString n rest Hd) as [Hp [c [r [E Hc]]]].
    rewrite E in Hp |- *. cbn [app] in Hp |- *.
    rewrite parse_value_number by exact Hc. now rewrite Hp.
  - intros [|f] rest Hf _; [simpl in Hf; lia|]. cbn [JSON_stringify representable] in *.
    unfold quote. cbn [app]. rewrite <- app_assoc. cbn [app].
    rewrite parse_value_string, parse_quote_body; [reflexivity|].
    now apply wf_string_iff.
  - cbn [representable] in Hrep.
    assert (Forall reads_back l) as Hall.
    { rewrite forallb_forall in Hrep. rewrite Forall_forall in IH |- *.
      intros x Hx. apply IH; [exact Hx | now apply Hrep]. }
    intros [|f] rest Hf _; [simpl in Hf; lia|].
    cbn [JSON_stringify size] in *. cbn [app]. rewrite <- app_assoc. cbn [app].
    rewrite parse_value_array.
    destruct l as [|y l'].
    + reflexivity.
    + destruct (join_head (y :: l') (93 :: rest)) as [c [x [E [H1 H2]]]];
        [discriminate|].
      rewrite E at 1. cbn [skip_ws]. rewrite H1, H2.
      rewrite parse_elements_ok; [reflexivity | discriminate | exact Hall | lia].
  - cbn [representable] in Hrep. apply andb_true_iff in Hrep as [Hnd Hrep].
    assert (Forall (fun kv => wf_string (fst kv) /\ reads_back (snd kv)) ps) as Hall.
    { rewrite forallb_forall in Hrep. rewrite Forall_forall in IH |- *.
      intros kv Hkv. specialize (Hrep kv Hkv).
      apply andb_true_iff in Hrep as [Hk Hv].
      split; [now apply wf_string_iff | now apply IH]. }
    intros [|f] rest Hf _; [simpl in Hf; lia|].
    cbn [JSON_stringify size] in *.
    change (map (fun kv => quote (fst kv) ++ 58 :: JSON_stringify (snd kv)) ps)
      with (map member_text ps).
    cbn [app]. rewrite <- app_assoc. cbn [app].
    rewrite parse_value_object.
    destruct ps as [|kv ps'].
    + reflexivity.
    + destruct (join_members_head (kv :: ps') (125 :: rest)) as [x E];
        [discriminate|].
      rewrite E at 1. cbn [skip_ws is_json_ws Z.eqb Pos.eqb orb].
      rewrite parse_members_ok; [|discriminate | exact Hall | lia].
      now rewrite mk_object_nodup.
Qed.

Lemma join_length (parts : list jsstring) :
  (list_sum (map (fun p => S (length p)) parts) <= S (length (join_comma parts)))%nat.
Proof.
  induction parts as [|p ps IH]; [simpl; lia|].
  destruct ps as [|q ps'].
  - simpl. lia.
  - rewrite join_comma_cons, length_app. cbn [map list_sum fold_right length] in *.
    unfold list_sum in *. lia.
Qed.

Lemma list_sum_le {A} (f g : A -> nat) (l : list A) :
  Forall (fun x => (f x <= g x)%nat) l ->
  (list_sum (map f l) <= list_sum (map g l))%nat.
Proof.
  induction 1 as [|x l Hx Hl IH]; simpl; [lia|]. unfold list_sum in *. lia.
Qed.

(** A value is never larger than its serialized text. *)
Lemma size_le_length (v : value) : (size v <= length (JSON_stringify v))%nat.
Proof.
  induction v as [|b|n|s|l IH|ps IH] using value_nested_ind.
  - simpl. lia.
  - destruct b; simpl; lia.
  - destruct (stringify_head (VNum n)) as [c [x [E _]]]. rewrite E. simpl. lia.
  - simpl. lia.
  - cbn [size JSON_stringify length]. rewrite length_app. cbn [length].
    pose proof (join_length (map JSON_stringify l)) as HJ. rewrite map_map in HJ.
    pose proof (list_sum_le (fun x => S (size x))
                  (fun x => S (length (JSON_stringify x))) l) as HS.
    assert (Forall (fun x => (S (size x) <= S (length (JSON_stringify x)))%nat) l)
      as HF by (eapply Forall_impl; [|exact IH]; simpl; intros; lia).
    specialize (HS HF). lia.
  - cbn [size JSON_stringify length]. rewrite length_app. cbn [length].
    change (map (fun kv => quote (fst kv) ++ 58 :: JSON_stringify (snd kv)) ps)
      with (map member_text ps).
    pose proof (join_length (map member_text ps)) as HJ. rewrite map_map in HJ.
    pose proof (list_sum_le (fun kv => S (size (snd kv)))
                  (fun kv => S (length (member_text kv))) ps) as HS.
    assert (Forall (fun kv => (S (size (snd kv)) <= S (length (member_text kv)))%nat)
              ps) as HF.
    { eapply Forall_impl; [|exact IH]. simpl. intros kv H.
      unfold member_text. rewrite length_app. simpl. lia. }
    specialize (HS HF). lia.
Qed.

(** [JSON.parse] undoes [JSON.stringify] on the representable values. *)
Lemma JSON_parse_stringify (v : value) :
  representable v = true -> JSON_parse (JSON_stringify v) = Ok v.
Proof.
  intros H. unfold JSON_parse.
  pose proof (stringify_reads_back v H (S (length (JSON_stringify v))) []) as R.
  rewrite app_nil_r in R. rewrite R; [reflexivity | | exact I].
  pose proof (size_le_length v). lia.
Qed.

Lemma join_wf (parts : list jsstring) :
  Forall (fun p => well_formed_utf16 p = true) parts ->
  well_formed_utf16 (join_comma parts) = true.
Proof.
  induction 1 as [|p ps Hp Hps IH]; [reflexivity|].
  destruct ps as [|q ps']; [exact Hp|].
  rewrite join_comma_cons. apply wf_app; [exact Hp|].
  apply (wf_ascii7_app [44]); [|exact IH].
  constructor; [unfold ascii7; lia | constructor].
Qed.

Lemma Number_toString_ascii7 (n : Z) : Forall ascii7 (Number_toString n).
Proof.
  assert (forall u, Forall ascii7 (uint_digits u)) as H.
  { intros u. eapply Forall_impl; [|apply uint_digits_are_digits].
    unfold ascii7. simpl. intros; lia. }
  unfold Number_toString. destruct (Z.to_int n); [apply H|].
  constructor; [unfold ascii7; lia | apply H].
Qed.

Lemma wf_bracket (o c : Z) (body : jsstring) :
  ascii7 o -> ascii7 c -> well_formed_utf16 body = true ->
  well_formed_utf16 (o :: body ++ [c]) = true.
Proof.
  intros Ho Hc Hb. apply (wf_ascii7_app [o]).
  - constructor; [exact Ho | constructor].
  - apply wf_app; [exact Hb|]. apply wf_ascii7.
    constructor; [exact Hc | constructor].
Qed.

(** Serialized text is well-formed: [encodeURIComponent] accepts it. *)
Lemma JSON_stringify_wf (v : value) :
  representable v = true -> well_formed_utf16 (JSON_stringify v) = true.
Proof.
  induction v as [|b|n|s|l IH|ps IH] using value_nested_ind; intros Hrep.
  - reflexivity.
  - destruct b; reflexivity.
  - apply wf_ascii7. apply Number_toString_ascii7.
  - apply quote_wf. now apply wf_string_iff.
  - cbn [JSON_stringify representable] in *.
    apply wf_bracket; try (unfold ascii7; lia).
    apply join_wf. rewrite Forall_map.
    rewrite forallb_forall in Hrep. rewrite Forall_forall in IH |- *.
    intros x Hx. apply IH; [exact Hx | now apply Hrep].
  - cbn [JSON_stringify representable] in *.
    apply andb_true_iff in Hrep as [_ Hrep].
    apply wf_bracket; try (unfold ascii7; lia).
    apply join_wf. rewrite Forall_map.
    rewrite forallb_forall in Hrep. rewrite Forall_forall in IH |- *.
    intros kv Hkv. specialize (Hrep kv Hkv).
    apply andb_true_iff in Hrep as [Hk Hv].
    apply wf_app; [apply quote_wf; now apply wf_string_iff|].
    apply (wf_ascii7_app [58]); [constructor; [unfold ascii7; lia | constructor]|].
    now apply IH.
Qed.

(* ------------------------------------------------------------------ *)
(** ** Export and import *)

Lemma valid_collection_representable (ts : list obj) :
  valid_collection ts = true -> representable (tasks_value ts) = true.
Proof.
  unfold valid_collection, tasks_value. cbn [representable].
  rewrite !forallb_forall. intros H v Hv.
  apply in_map_iff in Hv as [t [<- Ht]]. specialize (H t Ht).
  unfold valid_task in H. apply andb_true_iff in H as [H _].
  now apply andb_true_iff in H as [H _].
Qed.

(** The sync code of a representable collection decodes to that collection;
    it is not blank and trimming leaves it as it is. *)
Lemma export_decodes (ts : list obj) :
  representable (tasks_value ts) = true ->
  decode_stages (getExportCode ts) = Ok (tasks_value ts)
  /\ trim (getExportCode ts) = getExportCode ts
  /\ getExportCode ts <> [].
Proof.
  intros Hrep.
  destruct (uri_round_trip _ (JSON_stringify_wf _ Hrep)) as [e [He [Ho [Hd Hne]]]].
  destruct (atob_btoa e Ho) as [code [Hb [Ha [Ht Hc]]]].
  unfold getExportCode. rewrite He. cbn [res_bind]. rewrite Hb.
  split; [|split].
  - unfold decode_stages. rewrite Ht, Ha. cbn [res_bind]. rewrite Hd.
    cbn [res_bind]. now apply JSON_parse_stringify.
  - exact Ht.
  - apply Hc. apply Hne.
    destruct (stringify_head (tasks_value ts)) as [c [x [E _]]].
    rewrite E. discriminate.
Qed.

(** The import fix-up changes nothing in a valid task and draws no id. *)
Lemma import_fix_valid (O : oracle) (t : obj) (w : world) :
  valid_task t = true -> import_fix O (VObj t) w = (Ok t, w).
Proof.
  unfold valid_task. intros H. apply andb_true_iff in H as [H Hdone].
  apply andb_true_iff in H as [_ Hid].
  unfold import_fix, bind, lift, member, or_else, ret, own_props.
  destruct (get_prop t k_id) as [v|] eqn:Eid; [|discriminate].
  cbn [truthy_opt] in Hid. rewrite Hid.
  destruct (get_prop t k_isCompleted) as [[|b| | | |]|] eqn:Edone;
    try discriminate.
  cbn [truthy_opt truthy]. rewrite (set_prop_same_value t k_id v Eid).
  now rewrite (set_prop_same_value t k_isCompleted (VBool b) Edone).
Qed.

Lemma mapM_import_valid (O : oracle) (ts : list obj) (w : world) :
  valid_collection ts = true ->
  mapM (import_fix O) (map VObj ts) w = (Ok ts, w).
Proof.
  unfold valid_collection. induction ts as [|t ts IH]; intros H; [reflexivity|].
  cbn [forallb] in H. apply andb_true_iff in H as [Ht Hts].
  cbn [map mapM]. unfold bind at 1. rewrite (import_fix_valid O t w Ht).
  unfold bind at 1. now rewrite (IH Hts).
Qed.

(** C1. For every valid collection, the text-level decoding of its sync
    code gives the collection back, and importing that code into any state
    puts exactly that collection in the store (same tasks, same properties
    in the same order, same values), with the success message, an emptied
    import box, and no id drawn from the generator. *)
Theorem sync_round_trip (O : oracle) (st : AppState) (ts : list obj) :
  valid_collection ts = true ->
  decode_stages (getExportCode ts) = Ok (tasks_value ts)
  /\ handleImport O (setImportCode (getExportCode ts) st)
     = {| tasks := ts;
          isAddModalOpen := isAddModalOpen st;
          isSettingsOpen := isSettingsOpen st;
          manualTitle := manualTitle st;
          manualAssignee := manualAssignee st;
          manualPriority := manualPriority st;
          importCode := [];
          syncMessage := Some (s_import_ok, Msg_success);
          env := env st |}.
Proof.
  intros Hv.
  destruct (export_decodes ts (valid_collection_representable ts Hv))
    as [Hd [Ht Hne]].
  split; [exact Hd|].
  unfold handleImport. cbn [importCode setImportCode]. rewrite Ht.
  destruct (getExportCode ts) as [|c code] eqn:E; [congruence|].
  unfold import_body, bind, lift. rewrite Hd.
  unfold tasks_value. cbn [env setImportCode].
  rewrite (mapM_import_valid O ts (env st) Hv). reflexivity.
Qed.

(** Two tasks, one of them with a title that needs every kind of escape. *)
Lemma sync_round_trip_witness :
  decode_stages (getExportCode [unicode_task; sample_task 1 false])
  = Ok (tasks_value [unicode_task; sample_task 1 false])
  /\ tasks (handleImport frozen_oracle
              (setImportCode (getExportCode [unicode_task; sample_task 1 false])
                 sample_state))
     = [unicode_task; sample_task 1 false].
Proof.
  destruct (sync_round_trip frozen_oracle sample_state
              [unicode_task; sample_task 1 false]) as [H1 H2].
  - vm_compute. reflexivity.
  - split; [exact H1|]. rewrite H2. reflexivity.
Defined.

Lemma scan_number_of_parse (s : jsstring) (n : Z) (rest : jsstring) :
  parse_number s = Some (n, rest) -> scan_number s = Some rest.
Proof.
  unfold parse_number, scan_number.
  assert (forall s1 neg,
            (let '(ds, rest0) := take_digits s1 in
             match ds with
             | [] => None
             | d :: ds' =>
                 if (d =? 48) && (match ds' with [] => false | _ => true end)
                 then None
                 else if starts_fraction rest0 then None
                 else Some (if neg : bool then - digits_value ds else digits_value ds,
                            rest0)
             end) = Some (n, rest) ->
            (let '(ds, rest0) := take_digits s1 in
             match ds with
             | [] => None
             | d :: ds' =>
                 if (d =? 48) && (match ds' with [] => false | _ => true end)
                 then None
                 else match scan_fraction rest0 with
                      | Some rest1 => scan_exponent rest1
                      | None => None
                      end
             end) = Some rest) as H.
  { intros s1 neg. destruct (take_digits s1) as [ds rest0].
    destruct ds as [|d ds']; [discriminate|].
    destruct ((d =? 48) && _); [discriminate|].
    destruct (starts_fraction rest0) eqn:F; [discriminate|].
    intros E. injection E as _ <-.
    destruct rest0 as [|c r]; [reflexivity|].
    cbn [starts_fraction] in F. apply orb_false_iff in F as [F F3].
    apply orb_false_iff in F as [F1 F2].
    cbn [scan_fraction]. rewrite F1. cbn [scan_exponent]. now rewrite F2, F3. }
  destruct s as [|c r]; [apply (H [] false)|].
  destruct (c =? 45); [apply (H r true) | apply (H (c :: r) false)].
Qed.

Lemma scan_of_parse (fuel : nat) :
  (forall s v rest, parse_value fuel s = Some (v, rest) ->
                    scan_value fuel s = Some rest)
  /\ (forall s vs rest, parse_elements fuel s = Some (vs, rest) ->
                        scan_elements fuel s = Some rest)
  /\ (forall s ms rest, parse_members fuel s = Some (ms, rest) ->
                        scan_members fuel s = Some rest).
Proof.
  induction fuel as [|f [IHv [IHe IHm]]]; [repeat split; discriminate|].
  split; [|split]; intros s x rest; cbn [parse_value parse_elements parse_members
    scan_value scan_elements scan_members].
  - destruct (skip_ws s) as [|c r]; [discriminate|].
    destruct (c =? 110).
    { destruct (expect (tl s_null) r); [|discriminate]. cbn [option_map]. same_rest. }
    destruct (c =? 116).
    { destruct (expect (tl s_true) r); [|discriminate]. cbn [option_map]. same_rest. }
    destruct (c =? 102).
    { destruct (expect (tl s_false) r); [|discriminate]. cbn [option_map]. same_rest. }
    destruct (c =? 34).
    { destruct (parse_string_body r) as [[str r1]|]; [same_rest | discriminate]. }
    destruct (c =? 91).
    { destruct (skip_ws r) as [|c' r']; [discriminate|].
      destruct (c' =? 93); [same_rest|].
      destruct (parse_elements f r) as [[vs r1]|] eqn:E; [|discriminate].
      rewrite (IHe _ _ _ E). same_rest. }
    destruct (c =? 123).
    { destruct (skip_ws r) as [|c' r']; [discriminate|].
      destruct (c' =? 125); [same_rest|].
      destruct (parse_members f r) as [[ms r1]|] eqn:E; [|discriminate].
      rewrite (IHm _ _ _ E). same_rest. }
    destruct ((c =? 45) || is_digit c); [|discriminate].
    destruct (parse_number (c :: r)) as [[n r1]|] eqn:E; [|discriminate].
    rewrite (scan_number_of_parse _ _ _ E). congruence.
  - destruct (parse_value f s) as [[v r]|] eqn:E; [|discriminate].
    rewrite (IHv _ _ _ E).
    destruct (skip_ws r) as [|c r']; [discriminate|].
    destruct (c =? 44).
    { destruct (parse_elements f r') as [[vs r1]|] eqn:E2; [|discriminate].
      rewrite (IHe _ _ _ E2). same_rest. }
    destruct (c =? 93); [same_rest | discriminate].
  - destruct (skip_ws s) as [|q r0]; [discriminate|].
    destruct (q =? 34); [|discriminate].
    destruct (parse_string_body r0) as [[k r1]|]; [|discriminate].
    destruct (skip_ws r1) as [|colon r2]; [discriminate|].
    destruct (colon =? 58); [|discriminate].
    destruct (parse_value f r2) as [[v r3]|] eqn:E; [|discriminate].
    rewrite (IHv _ _ _ E).
    destruct (skip_ws r3) as [|c r4]; [discriminate|].
    destruct (c =? 44).
    { destruct (parse_members f r4) as [[ms r5]|] eqn:E2; [|discriminate].
      rewrite (IHm _ _ _ E2). same_rest. }
    destruct (c =? 125); [same_rest | discriminate].
Qed.

(** What the model's parser reads, [JSON.parse] accepts; and when the model
    reads an array, the text is that of an array. *)
Lemma JSON_parse_valid (s : jsstring) (v : value) :
  JSON_parse s = Ok v -> JSON_valid s = true.
Proof.
  unfold JSON_parse, JSON_valid.
  destruct (parse_value (S (length s)) s) as [[v' rest]|] eqn:E; [|discriminate].
  rewrite (proj1 (scan_of_parse _) _ _ _ E).
  now destruct (skip_ws rest).
Qed.

Lemma JSON_parse_array (s : jsstring) (l : list value) :
  JSON_parse s = Ok (VArr l) -> array_text s = true.
Proof.
  intros H. unfold array_text. rewrite (JSON_parse_valid s _ H). cbn [andb].
  unfold JSON_parse in H.
  destruct (parse_value (S (length s)) s) as [[v' rest]|] eqn:E; [|discriminate].
  assert (v' = VArr l) as -> by (destruct (skip_ws rest); congruence).
  clear H. cbn [parse_value] in E.
  destruct (skip_ws s) as [|c r]; [discriminate|].
  destruct (c =? 110).
  { destruct (expect (tl s_null) r); discriminate. }
  destruct (c =? 116).
  { destruct (expect (tl s_true) r); discriminate. }
  destruct (c =? 102).
  { destruct (expect (tl s_false) r); discriminate. }
  destruct (c =? 34).
  { destruct (parse_string_body r) as [[str r1]|]; discriminate. }
  destruct (c =? 91); [reflexivity|].
  destruct (c =? 123).
  { destruct (skip_ws r) as [|c' r']; [discriminate|].
    destruct (c' =? 125); [discriminate|].
    destruct (parse_members _ r) as [[ms r1]|]; discriminate. }
  destruct ((c =? 45) || is_digit c); [|discriminate].
  destruct (parse_number (c :: r)) as [[n r1]|]; discriminate.
Qed.

Lemma decoding_fails_stages (code : jsstring) :
  decoding_fails code ->
  (exists e, decode_stages code = Throw e)
  \/ (exists v, decode_stages code = Ok v /\ forall l, v <> VArr l).
Proof.
  unfold decode_stages.
  intros [[e H]|[[b [e [H1 H2]]]|[[b [u [H1 [H2 H3]]]]|[b [u [H1 [H2 [_ H3]]]]]]]].
  - left. exists e. now rewrite H.
  - left. exists e. rewrite H1. cbn [res_bind]. now rewrite H2.
  - rewrite H1. cbn [res_bind]. rewrite H2. cbn [res_bind].
    destruct (JSON_parse u) as [v|e] eqn:P; [|left; now exists e].
    apply JSON_parse_valid in P. congruence.
  - rewrite H1. cbn [res_bind]. rewrite H2. cbn [res_bind].
    destruct (JSON_parse u) as [v|e] eqn:P; [|left; now exists e].
    right. exists v. split; [reflexivity|]. intros l ->.
    apply JSON_parse_array in P. congruence.
Qed.

(** The body of the [try] block throws when the decoding fails, and draws
    no id. *)
Lemma import_body_fails (O : oracle) (code : jsstring) (w : world) :
  decoding_fails code -> exists e, import_body O code w = (Throw e, w).
Proof.
  intros H. unfold import_body, bind, lift.
  destruct (decoding_fails_stages code H) as [[e ->]|[v [-> Hv]]].
  - now exists e.
  - destruct v; try (eexists; reflexivity). now elim (Hv elems).
Qed.

(** An import replaces the collection as a whole or leaves it as it was. *)
Lemma handleImport_all_or_nothing (O : oracle) (st : AppState) :
  tasks (handleImport O st) = tasks st
  \/ exists l w, decode_stages (importCode st) = Ok (VArr l)
                 /\ mapM (import_fix O) l (env st)
                    = (Ok (tasks (handleImport O st)), w).
Proof.
  unfold handleImport. destruct (trim (importCode st)); [now left|].
  unfold import_body, bind, lift.
  destruct (decode_stages (importCode st)) as [v|e]; [|now left].
  destruct v; try now left.
  destruct (mapM (import_fix O) elems (env st)) as [[ts|e] w] eqn:E; [|now left].
  right. exists elems, w. now split.
Qed.

(** C3. When the decoding of the import text fails at any stage ([atob]
    throws, [decodeURIComponent] throws, [JSON.parse] throws, or the text
    is JSON for a value that is not an array), the import is not applied:
    the collection is left as it was, no id is drawn and the text stays in
    the box; the failure message is set whenever the text is not blank,
    which is the only way the handler is reached (its button is disabled
    on a blank text); on a blank text the guard returns the state as it
    was. *)
Theorem handleImport_failure (O : oracle) (st : AppState) :
  decoding_fails (importCode st) ->
  tasks (handleImport O st) = tasks st
  /\ env (handleImport O st) = env st
  /\ importCode (handleImport O st) = importCode st
  /\ (trim (importCode st) <> [] ->
      syncMessage (handleImport O st) = Some (s_import_bad, Msg_error))
  /\ (trim (importCode st) = [] -> handleImport O st = st).
Proof.
  intros H. unfold handleImport.
  destruct (trim (importCode st)) as [|c r] eqn:E.
  - repeat split; congruence.
  - destruct (import_body_fails O (importCode st) (env st) H) as [e ->].
    cbn [tasks env importCode syncMessage]. repeat split; congruence.
Qed.

(** Scenario B: the text [not-valid-base64!!] is no base-64. *)
Lemma handleImport_failure_witness :
  tasks (handleImport frozen_oracle (setImportCode s_bad_code sample_state))
  = tasks sample_state
  /\ syncMessage (handleImport frozen_oracle (setImportCode s_bad_code sample_state))
     = Some (s_import_bad, Msg_error).
Proof.
  destruct (handleImport_failure frozen_oracle (setImportCode s_bad_code sample_state))
    as [H1 [_ [_ [H2 _]]]].
  - left. exists InvalidCharacterError. vm_compute. reflexivity.
  - split; [exact H1|]. apply H2. vm_compute. discriminate.
Defined.

(** A number with an exponent is no failure: the sync code of the text
    [s_exponent_text], an array with one record whose [createdAt] is
    written [1.7e12], fails at no stage. *)
Example exponent_text_decodes : ~ decoding_fails code_exponent_text.
Proof.
  intros [[e H]|[[b [e [H1 H2]]]|[[b [u [H1 [H2 H3]]]]|[b [u [H1 [H2 [_ H3]]]]]]]].
  - vm_compute in H. discriminate H.
  - vm_compute in H1. injection H1 as <-. vm_compute in H2. discriminate H2.
  - vm_compute in H1. injection H1 as <-. vm_compute in H2. injection H2 as <-.
    vm_compute in H3. discriminate H3.
  - vm_compute in H1. injection H1 as <-. vm_compute in H2. injection H2 as <-.
    vm_compute in H3. discriminate H3.
Qed.

(* ================================================================== *)
(** * Further properties of the code *)
(* ================================================================== *)

(** ** How toggling and deleting compose *)

Lemma get_prop_none_iff (o : obj) (k : jsstring) :
  get_prop o k = None <-> ~ In k (map fst o).
Proof.
  induction o as [|[k' v'] o IH]; simpl; [tauto|].
  destruct (str_eqb k' k) eqn:E.
  - apply str_eqb_eq in E. split; [discriminate | intros H; elim H; now left].
  - rewrite IH. split.
    + intros H [F|F]; [|now apply H]. subst k'. now rewrite str_eqb_refl in E.
    + intros H F. apply H. now right.
Qed.

Lemma keys_set_absent (o : obj) (k : jsstring) (v : value) :
  get_prop o k = None -> map fst (set_prop o k v) = map fst o ++ [k].
Proof.
  intros H. apply get_prop_none_iff in H.
  rewrite set_prop_fresh by exact H. now rewrite map_app.
Qed.

Lemma set_prop_twice (o : obj) (k : jsstring) (v v' : value) :
  set_prop (set_prop o k v) k v' = set_prop o k v'.
Proof.
  induction o as [|[k0 v0] o IH]; simpl.
  - now rewrite str_eqb_refl.
  - destruct (str_eqb k0 k) eqn:E; simpl.
    + now rewrite str_eqb_refl.
    + rewrite E. now rewrite IH.
Qed.

Lemma set_prop_forallb (p : jsstring * value -> bool) (o : obj) (k : jsstring)
  (v : value) :
  forallb p o = true -> p (k, v) = true -> forallb p (set_prop o k v) = true.
Proof.
  intros Ho Hk. induction o as [|[k0 v0] o IH]; simpl in *.
  - now rewrite Hk.
  - apply andb_true_iff in Ho as [H0 Ho].
    destruct (str_eqb k0 k); simpl; [now rewrite Hk, Ho | now rewrite H0, IH].
Qed.

(** Setting a property of a representable object to a representable value
    gives a representable object. *)
Lemma representable_set_prop (o : obj) (k : jsstring) (v : value) :
  representable (VObj o) = true -> wf_stringb k = true -> representable v = true ->
  representable (VObj (set_prop o k v)) = true.
Proof.
  cbn [representable]. intros H Hk Hv. apply andb_true_iff in H as [Hnd Hall].
  apply andb_true_iff. split.
  - apply nodup_keys_iff. apply nodup_keys_iff in Hnd.
    destruct (get_prop o k) as [v0|] eqn:E.
    + now rewrite (keys_set_present o k v v0 E).
    + rewrite (keys_set_absent o k v E). apply get_prop_none_iff in E.
      apply NoDup_app; [exact Hnd | constructor; [intros [] | constructor] |].
      intros x Hx [<-|[]]. contradiction.
  - apply set_prop_forallb; [exact Hall|]. cbn [fst snd]. now rewrite Hk, Hv.
Qed.

Lemma id_is_flipped (taskId : jsstring) (t : obj) :
  id_is taskId (flipped t) = id_is taskId t.
Proof. unfold id_is. now rewrite flipped_id. Qed.

Lemma valid_task_flipped (t : obj) : valid_task t = true -> valid_task (flipped t) = true.
Proof.
  unfold valid_task. intros H. apply andb_true_iff in H as [H Hdone].
  apply andb_true_iff in H as [Hrep Hid].
  rewrite flipped_id, Hid, flipped_isCompleted. cbn [is_boolean].
  rewrite !andb_true_r. unfold flipped.
  apply representable_set_prop; [exact Hrep | reflexivity | reflexivity].
Qed.

Lemma flipped_flipped (t : obj) (b : bool) :
  get_prop t k_isCompleted = Some (VBool b) -> flipped (flipped t) = t.
Proof.
  intros H. unfold flipped at 1. rewrite flipped_isCompleted.
  unfold flipped. rewrite set_prop_twice, H. cbn [truthy_opt truthy].
  rewrite negb_involutive. now apply set_prop_same_value.
Qed.

Lemma toggleTask_toggleTask (taskId : jsstring) (ts : list obj) :
  toggleTask taskId (toggleTask taskId ts)
  = map (fun t => if id_is taskId t then flipped (flipped t) else t) ts.
Proof.
  unfold toggleTask. rewrite map_map. apply map_ext. intros t.
  destruct (id_is taskId t) eqn:E.
  - now rewrite id_is_flipped, E.
  - now rewrite E.
Qed.

(** X1. Toggling twice with the same id gives the collection back when the
    [isCompleted] of every task with that id is a boolean; whatever the
    flags are, a third toggle gives what the first gave (the first toggle
    leaves a boolean). *)
Theorem toggleTask_twice (taskId : jsstring) (ts : list obj) :
  ((forall t, In t ts -> id_is taskId t = true ->
              is_boolean (get_prop t k_isCompleted) = true) ->
   toggleTask taskId (toggleTask taskId ts) = ts)
  /\ toggleTask taskId (toggleTask taskId (toggleTask taskId ts))
     = toggleTask taskId ts.
Proof.
  split.
  - intros H. rewrite toggleTask_toggleTask.
    rewrite <- (map_id ts) at 2. apply map_ext_in. intros t Ht.
    destruct (id_is taskId t) eqn:E; [|reflexivity].
    specialize (H t Ht E).
    destruct (get_prop t k_isCompleted) as [[|b| | | |]|] eqn:G; try discriminate.
    now apply (flipped_flipped t b).
  - rewrite toggleTask_toggleTask. unfold toggleTask. rewrite map_map.
    apply map_ext. intros t. destruct (id_is taskId t) eqn:E.
    + rewrite id_is_flipped, E.
      now rewrite (flipped_flipped (flipped t) _ (flipped_isCompleted t)).
    + now rewrite E.
Qed.

Lemma filter_map_commute {A} (p : A -> bool) (f : A -> A) (l : list A) :
  (forall x, p (f x) = p x) -> filter p (map f l) = map f (filter p l).
Proof.
  intros H. induction l as [|x l IH]; simpl; [reflexivity|].
  rewrite H. destruct (p x); simpl; now rewrite IH.
Qed.

Lemma filter_filter_comm {A} (p q : A -> bool) (l : list A) :
  filter p (filter q l) = filter q (filter p l).
Proof.
  induction l as [|x l IH]; simpl; [reflexivity|].
  destruct (p x) eqn:P, (q x) eqn:Q; simpl; rewrite ?P, ?Q, IH; reflexivity.
Qed.

Lemma filter_idem {A} (p : A -> bool) (l : list A) :
  filter p (filter p l) = filter p l.
Proof.
  induction l as [|x l IH]; simpl; [reflexivity|].
  destruct (p x) eqn:P; simpl; rewrite ?P, IH; reflexivity.
Qed.

Lemma toggle_step_id (a b : jsstring) (t : obj) :
  id_is a (if id_is b t then flipped t else t) = id_is a t.
Proof. destruct (id_is b t); [apply id_is_flipped | reflexivity]. Qed.

(** X2. Deleting is idempotent and deletions commute; toggles commute;
    a deletion commutes with a toggle, and deleting the id just toggled is
    deleting it: the order in which the user's clicks on different tasks
    are applied does not matter. *)
Theorem store_edits_commute (a b : jsstring) (ts : list obj) :
  deleteTask a (deleteTask a ts) = deleteTask a ts
  /\ deleteTask a (deleteTask b ts) = deleteTask b (deleteTask a ts)
  /\ toggleTask a (toggleTask b ts) = toggleTask b (toggleTask a ts)
  /\ deleteTask a (toggleTask b ts) = toggleTask b (deleteTask a ts)
  /\ deleteTask a (toggleTask a ts) = deleteTask a ts.
Proof.
  split; [|split; [|split; [|split]]].
  - apply filter_idem.
  - apply filter_filter_comm.
  - unfold toggleTask. rewrite !map_map. apply map_ext. intros t.
    rewrite !toggle_step_id.
    destruct (id_is a t), (id_is b t); reflexivity.
  - unfold deleteTask, toggleTask. apply filter_map_commute.
    intros t. now rewrite toggle_step_id.
  - unfold deleteTask, toggleTask.
    rewrite filter_map_commute by (intros t; now rewrite toggle_step_id).
    rewrite <- (map_id (filter _ ts)) at 2. apply map_ext_in. intros t Ht.
    apply filter_In in Ht as [_ Ht]. apply negb_true_iff in Ht. now rewrite Ht.
Qed.

(** X3. Toggling and deleting keep a valid collection valid, so the result
    can again be exported and imported without loss. *)
Theorem store_edits_keep_valid (taskId : jsstring) (ts : list obj) :
  valid_collection ts = true ->
  valid_collection (toggleTask taskId ts) = true
  /\ valid_collection (deleteTask taskId ts) = true
  /\ decode_stages (getExportCode (toggleTask taskId ts))
     = Ok (tasks_value (toggleTask taskId ts))
  /\ decode_stages (getExportCode (deleteTask taskId ts))
     = Ok (tasks_value (deleteTask taskId ts)).
Proof.
  intros H.
  assert (valid_collection (toggleTask taskId ts) = true) as Ht.
  { unfold valid_collection, toggleTask in *. rewrite forallb_forall in *.
    intros t' Ht'. apply in_map_iff in Ht' as [t [<- Ht]].
    destruct (id_is taskId t); [apply valid_task_flipped|]; now apply H. }
  assert (valid_collection (deleteTask taskId ts) = true) as Hd.
  { unfold valid_collection, deleteTask in *. rewrite forallb_forall in *.
    intros t Ht'. apply filter_In in Ht' as [Ht' _]. now apply H. }
  repeat split; try assumption;
    now apply export_decodes, valid_collection_representable.
Qed.

Lemma toggleTask_twice_witness :
  toggleTask s_a (toggleTask s_a [unicode_task; sample_task 1 false])
  = [unicode_task; sample_task 1 false].
Proof.
  apply (toggleTask_twice s_a [unicode_task; sample_task 1 false]).
  intros t [<-|[<-|[]]] _; reflexivity.
Defined.

Lemma store_edits_keep_valid_witness :
  valid_collection (toggleTask s_a [unicode_task; sample_task 1 false]) = true
  /\ valid_collection (deleteTask s_a [unicode_task; sample_task 1 false]) = true.
Proof.
  destruct (store_edits_keep_valid s_a [unicode_task; sample_task 1 false])
    as [H1 [H2 _]].
  - vm_compute. reflexivity.
  - now split.
Defined.

(* ------------------------------------------------------------------ *)
(** ** The list view and the dashboard's accounting *)

Lemma assigned_to_one (s1 s2 : SisterName) (t : obj) :
  assigned_to s1 t = true -> assigned_to s2 t = true -> s1 = s2.
Proof.
  unfold assigned_to, strict_eq_str.
  destruct (get_prop t k_assignee) as [[| | |str| |]|]; try discriminate.
  intros H1 H2. apply str_eqb_eq in H1, H2.
  destruct s1, s2; try reflexivity; rewrite H1 in H2; discriminate H2.
Qed.

Lemma assigned_to_flipped (sister : SisterName) (t : obj) :
  assigned_to sister (flipped t) = assigned_to sister t.
Proof. unfold assigned_to. rewrite flipped_other; [reflexivity | discriminate]. Qed.

Lemma filter_true {A} (l : list A) : filter (fun _ => true) l = l.
Proof. induction l as [|x l IH]; simpl; [reflexivity | now rewrite IH]. Qed.

Lemma filter_subseq {A} (p : A -> bool) (l : list A) : subseq (filter p l) l.
Proof.
  induction l as [|x l IH]; simpl; [constructor|].
  destruct (p x); now constructor.
Qed.

Lemma filteredTasks_Only (sister : SisterName) (ts : list obj) :
  filteredTasks (Only sister) ts = filter (assigned_to sister) ts.
Proof.
  unfold filteredTasks. apply filter_ext. intros t.
  now destruct (assigned_to sister t).
Qed.

(** X4. With ['All'] selected the list view shows the collection as it is.
    With a sister selected it shows the tasks whose assignee is her, all of
    them and no other, in the collection's order, as many as the dashboard
    counts for her. *)
Theorem filteredTasks_spec (sister : SisterName) (ts : list obj) :
  filteredTasks All ts = ts
  /\ (forall t, In t (filteredTasks (Only sister) ts)
                <-> In t ts /\ get_prop t k_assignee
                               = Some (VStr (SisterName_str sister)))
  /\ subseq (filteredTasks (Only sister) ts) ts
  /\ (length (filteredTasks (Only sister) ts)
      + length (filter (fun t => negb (assigned_to sister t)) ts)
      = length ts)%nat
  /\ In {| name := sister;
           completed := length (filter is_done (filteredTasks (Only sister) ts));
           pending := length (filter (fun t => negb (is_done t))
                                (filteredTasks (Only sister) ts));
           total := length (filteredTasks (Only sister) ts) |}
        (stats ts).
Proof.
  split; [apply filter_true|]. rewrite filteredTasks_Only.
  split; [|split; [apply filter_subseq|split]].
  - intros t. rewrite filter_In. unfold assigned_to, strict_eq_str.
    split; intros [Ht H]; (split; [exact Ht|]).
    + destruct (get_prop t k_assignee) as [[| | |str| |]|]; try discriminate.
      apply str_eqb_eq in H. now subst.
    + rewrite H. apply str_eqb_refl.
  - pose proof (filter_split_length (fun t => negb (assigned_to sister t)) ts) as H.
    rewrite (filter_ext (fun x => negb (negb (assigned_to sister x)))
               (assigned_to sister)) in H
      by (intros x; apply negb_involutive).
    lia.
  - unfold stats. apply in_map_iff. exists sister. split; [reflexivity|].
    destruct sister; simpl; auto.
Qed.

(** X5. The list view commutes with the store's edits: toggling or deleting
    and then filtering gives what filtering and then toggling or deleting
    gives, so acting on a task in a filtered view changes what it would
    change in the full list. *)
Theorem filteredTasks_edits (f : FilterUser) (taskId : jsstring) (ts : list obj) :
  filteredTasks f (toggleTask taskId ts) = toggleTask taskId (filteredTasks f ts)
  /\ filteredTasks f (deleteTask taskId ts) = deleteTask taskId (filteredTasks f ts).
Proof.
  split.
  - unfold filteredTasks, toggleTask. apply filter_map_commute. intros t.
    destruct f as [|sister]; [reflexivity|].
    destruct (id_is taskId t); [now rewrite assigned_to_flipped | reflexivity].
  - unfold filteredTasks, deleteTask. apply filter_filter_comm.
Qed.

Lemma count_by_sister (q : obj -> bool) (ts : list obj) :
  (list_sum (map (fun sister => length (filter q (filter (assigned_to sister) ts)))
               SISTERS)
   + length (filter q (filter (fun t => negb (recognized t)) ts))
   = length (filter q ts))%nat.
Proof.
  unfold SISTERS. cbn [map list_sum fold_right].
  induction ts as [|t ts IH]; [reflexivity|]. cbn [filter].
  replace (recognized t)
    with (assigned_to Anna t || (assigned_to Bella t || (assigned_to Chloe t || false)))
    by reflexivity.
  destruct (assigned_to Anna t) eqn:A, (assigned_to Bella t) eqn:B,
    (assigned_to Chloe t) eqn:C;
    try (pose proof (assigned_to_one _ _ t A B); discriminate);
    try (pose proof (assigned_to_one _ _ t A C); discriminate);
    try (pose proof (assigned_to_one _ _ t B C); discriminate);
    cbn [orb negb filter]; destruct (q t); cbn [length]; lia.
Qed.

(** X6. The dashboard's bars count every task at most once: over the three
    sisters the totals, the completed and the pending counts add up to the
    collection's figures less the tasks whose assignee is none of the
    sisters, which appear in the overall figures and in no bar. *)
Theorem stats_accounting (ts : list obj) :
  (list_sum (map total (stats ts))
   + length (filter (fun t => negb (recognized t)) ts) = length ts)%nat
  /\ (list_sum (map completed (stats ts))
      + length (filter is_done (filter (fun t => negb (recognized t)) ts))
      = totalCompleted ts)%nat
  /\ (list_sum (map pending (stats ts))
      + length (filter (fun t => negb (is_done t))
                  (filter (fun t => negb (recognized t)) ts))
      = totalPending ts)%nat
  /\ map name (stats ts) = SISTERS.
Proof.
  unfold stats, totalCompleted, totalPending. rewrite !map_map. cbn [total completed pending name].
  split; [|split; [|split]].
  - pose proof (count_by_sister (fun _ => true) ts) as H.
    rewrite !filter_true in H. etransitivity; [|exact H]. do 2 f_equal.
    apply map_ext. intros s. now rewrite filter_true.
  - apply (count_by_sister is_done).
  - apply (count_by_sister (fun t => negb (is_done t))).
  - now rewrite map_id.
Qed.

(* ------------------------------------------------------------------ *)
(** ** What the two normalizations establish *)

Lemma wf_stringb_app (a b : jsstring) :
  wf_stringb (a ++ b) = wf_stringb a && wf_stringb b.
Proof. apply forallb_app. Qed.

Lemma digit36_unit (d : Z) : 0 <= d < 36 -> code_unitb (digit36 d) = true.
Proof.
  unfold digit36, code_unitb. intros H.
  destruct (d <? 10); apply andb_true_iff; split;
    (apply Z.leb_le || apply Z.ltb_lt); lia.
Qed.

Lemma to_radix36_wf (fuel : nat) (n : Z) (acc : jsstring) :
  wf_stringb acc = true -> wf_stringb (to_radix36 fuel n acc) = true.
Proof.
  revert n acc. induction fuel as [|f IH]; intros n acc H; cbn [to_radix36];
    [exact H|].
  assert (wf_stringb (digit36 (n mod 36) :: acc) = true) as H'.
  { apply andb_true_iff. split; [|exact H].
    apply digit36_unit. apply Z.mod_pos_bound. lia. }
  destruct (n <? 36); [exact H' | now apply IH].
Qed.

Lemma toString36_wf (n : Z) : wf_stringb (toString36 n) = true.
Proof.
  unfold toString36. destruct (n <? 0).
  - apply andb_true_iff. split; [reflexivity | now apply to_radix36_wf].
  - now apply to_radix36_wf.
Qed.

Lemma substring_wf (a b : nat) (s : jsstring) :
  wf_string s -> wf_stringb (substring a b s) = true.
Proof.
  intros H. apply wf_string_iff in H. unfold wf_stringb in *.
  rewrite forallb_forall in *. intros c Hc. apply H.
  now apply substring_In in Hc.
Qed.

Lemma Number_toString_wf (n : Z) : wf_stringb (Number_toString n) = true.
Proof.
  apply wf_string_iff. eapply Forall_impl; [|apply Number_toString_ascii7].
  intros c. unfold ascii7, code_unit. lia.
Qed.

(** A generated id is a non-empty string of code units. *)
Lemma generateId_text (O : oracle) (w : world) :
  textual O ->
  fst (generateId O w) <> [] /\ wf_stringb (fst (generateId O w)) = true.
Proof.
  intros [Hr Hu]. unfold generateId.
  assert (forall c, fallback_id (toString36 (Date_now O (reads w)))
                      (substring 2 8 (Math_random_36 O (reads w))) c <> []
                    /\ wf_stringb (fallback_id (toString36 (Date_now O (reads w)))
                         (substring 2 8 (Math_random_36 O (reads w))) c) = true)
    as Hf.
  { intros c. unfold fallback_id. split.
    - intros F. apply app_eq_nil in F as [_ F]. discriminate F.
    - rewrite !wf_stringb_app, toString36_wf, Number_toString_wf.
      rewrite substring_wf by apply Hr. reflexivity. }
  destruct (crypto_randomUUID O (reads w)) as [| |u] eqn:E; cbn [fst];
    try apply Hf.
  destruct (Hu _ _ E) as [Hne Hwf]. split; [exact Hne | now apply wf_string_iff].
Qed.

Lemma indexed_keys {A} (i : nat) (l : list A) :
  map fst (indexed i l)
  = map (fun j => Number_toString (Z.of_nat j)) (seq i (length l)).
Proof.
  revert i. induction l as [|x l IH]; intros i; cbn [indexed map fst seq length];
    [reflexivity | now rewrite IH].
Qed.

Lemma indexed_nodup {A} (i : nat) (l : list A) :
  nodup_keys (map fst (indexed i l)) = true.
Proof.
  rewrite indexed_keys. apply nodup_keys_iff.
  apply NoDup_map_on; [|apply seq_NoDup].
  intros x y _ _ H. apply Number_toString_inj in H. lia.
Qed.

Lemma indexed_forallb {A} (p : jsstring * A -> bool) (i : nat) (l : list A) :
  (forall j x, In x l -> p (Number_toString (Z.of_nat j), x) = true) ->
  forallb p (indexed i l) = true.
Proof.
  revert i. induction l as [|x l IH]; intros i H; cbn [indexed forallb];
    [reflexivity|].
  rewrite H by now left. apply IH. intros j y Hy. apply H. now right.
Qed.

(** The spread of a representable value is a representable object. *)
Lemma own_props_representable (t : value) :
  representable t = true -> representable (VObj (own_props t)) = true.
Proof.
  destruct t as [|b|n|s|l|ps]; intros H; try reflexivity; [| |exact H];
    cbn [own_props representable]; rewrite indexed_nodup;
    apply indexed_forallb; intros j x Hx; cbn [fst snd];
    rewrite Number_toString_wf; cbn [andb].
  - apply in_map_iff in Hx as [c [<- Hc]]. cbn [representable] in *.
    unfold wf_stringb in *. rewrite forallb_forall in H.
    cbn [forallb]. now rewrite (H c Hc).
  - cbn [representable] in H. rewrite forallb_forall in H. now apply H.
Qed.

Lemma representable_get_prop (o : obj) (k : jsstring) (v : value) :
  representable (VObj o) = true -> get_prop o k = Some v -> representable v = true.
Proof.
  cbn [representable]. intros H. apply andb_true_iff in H as [_ H].
  induction o as [|[k0 v0] o IH]; cbn [get_prop]; [discriminate|].
  cbn [forallb fst snd] in H. apply andb_true_iff in H as [H0 H].
  apply andb_true_iff in H0 as [_ H0].
  destruct (str_eqb k0 k); [intros E; now injection E as <- | now apply IH].
Qed.

Lemma Number_toString_chars (n c : Z) :
  In c (Number_toString n) -> c <= 57.
Proof.
  unfold Number_toString. intros H.
  destruct (Z.to_int n) as [u|u]; [|destruct H as [<-|H]; [lia|]];
    pose proof (uint_digits_are_digits u) as F;
    rewrite Forall_forall in F; apply F in H; lia.
Qed.

(** No index of an array or a string is a name that starts with a letter. *)
Lemma get_prop_indexed (i : nat) (l : list value) (c : Z) (r : jsstring) :
  57 < c -> get_prop (indexed i l) (c :: r) = None.
Proof.
  intros Hc. apply get_prop_none_iff. rewrite indexed_keys. intros F.
  apply in_map_iff in F as [j [F _]].
  pose proof (Number_toString_chars (Z.of_nat j) c) as H.
  rewrite F in H. specialize (H (or_introl eq_refl)). lia.
Qed.

(** Reading a property named by a word off a value that is not [null] is
    reading it off the spread of the value. *)
Lemma member_own_props (t : value) (k : jsstring) :
  t <> VNull -> 57 < hd 0 k -> member t k = Ok (get_prop (own_props t) k).
Proof.
  intros Hn Hc. destruct k as [|c r]; [cbn [hd] in Hc; lia|]. cbn [hd] in Hc.
  destruct t as [|b|n|s|l|ps]; try reflexivity;
    [contradiction | |]; cbn [member own_props];
    now rewrite get_prop_indexed.
Qed.

Lemma or_else_truthy (x : option value) (e : M value) (w : world) :
  truthy_opt x = true -> exists v, x = Some v /\ or_else x e w = (Ok v, w).
Proof.
  destruct x as [v|]; [|discriminate]. cbn [truthy_opt or_else]. intros H.
  exists v. now rewrite H.
Qed.

Lemma or_else_falsy (x : option value) (e : M value) (w : world) :
  truthy_opt x = false -> or_else x e w = e w.
Proof.
  destruct x as [v|]; [|reflexivity]. cbn [truthy_opt or_else]. now intros ->.
Qed.

(** The id the two paths settle on: the record's own when it is truthy, a
    generated one otherwise; either way a truthy representable value. *)
Lemma settled_id (O : oracle) (ps : obj) (w : world) :
  textual O -> representable (VObj ps) = true ->
  exists v w', or_else (get_prop ps k_id) (fresh_id O) w = (Ok v, w')
    /\ truthy v = true /\ representable v = true
    /\ (truthy_opt (get_prop ps k_id) = true -> get_prop ps k_id = Some v /\ w' = w)
    /\ (truthy_opt (get_prop ps k_id) = false
        -> (v, w') = (VStr (fst (generateId O w)), snd (generateId O w))).
Proof.
  intros HO Hrep. destruct (truthy_opt (get_prop ps k_id)) eqn:E.
  - destruct (or_else_truthy _ (fresh_id O) w E) as [v [Ev ->]].
    exists v, w. rewrite Ev in E. repeat split; try assumption; try discriminate.
    now apply (representable_get_prop ps k_id).
  - rewrite or_else_falsy by exact E. unfold fresh_id.
    destruct (generateId_text O w HO) as [Hne Hwf].
    destruct (generateId O w) as [i w1]. cbn [fst snd] in *.
    exists (VStr i), w1. repeat split; try discriminate; try assumption.
    destruct i; [contradiction | reflexivity].
Qed.

(** X7. The import fix-up of one element: on [null] it throws a
    [TypeError] before anything is read; on any other representable value
    it returns a valid task, with the value's own properties and its own
    id when that is truthy (no id is drawn then), a generated id otherwise,
    and [isCompleted] coerced to a boolean; a second pass over the result
    changes nothing. *)
Theorem import_fix_normalizes (O : oracle) (t : value) (w : world) :
  textual O -> t <> VNull -> representable t = true ->
  import_fix O VNull w = (Throw TypeError, w)
  /\ exists o w',
       import_fix O t w = (Ok o, w')
       /\ valid_task o = true
       /\ get_prop o k_isCompleted
          = Some (VBool (truthy_opt (get_prop (own_props t) k_isCompleted)))
       /\ (forall k, k <> k_id -> k <> k_isCompleted ->
                     get_prop o k = get_prop (own_props t) k)
       /\ (truthy_opt (get_prop (own_props t) k_id) = true ->
           get_prop o k_id = get_prop (own_props t) k_id /\ w' = w)
       /\ (truthy_opt (get_prop (own_props t) k_id) = false ->
           get_prop o k_id = Some (VStr (fst (generateId O w)))
           /\ w' = snd (generateId O w))
       /\ forall w2, import_fix O (VObj o) w2 = (Ok o, w2).
Proof.
  intros HO Hn Hrep. split; [reflexivity|].
  apply own_props_representable in Hrep.
  destruct (settled_id O (own_props t) w HO Hrep) as [v [w' [Hor [Ht [Hv [Hk Hg]]]]]].
  assert (import_fix O t w
          = (Ok (set_prop (set_prop (own_props t) k_id v) k_isCompleted
                   (VBool (truthy_opt (get_prop (own_props t) k_isCompleted)))),
             w')) as E.
  { unfold import_fix, bind, lift.
    rewrite (member_own_props t k_id Hn) by reflexivity. rewrite Hor.
    rewrite (member_own_props t k_isCompleted Hn) by reflexivity. reflexivity. }
  eexists. exists w'. split; [exact E|].
  assert (valid_task (set_prop (set_prop (own_props t) k_id v) k_isCompleted
                   (VBool (truthy_opt (get_prop (own_props t) k_isCompleted))))
          = true) as Hvalid.
  { unfold valid_task. rewrite get_set_same. cbn [is_boolean].
    rewrite get_set_other by discriminate. rewrite get_set_same.
    cbn [truthy_opt]. rewrite Ht, !andb_true_r.
    apply representable_set_prop; [|reflexivity|reflexivity].
    apply representable_set_prop; [exact Hrep|reflexivity|exact Hv]. }
  split; [exact Hvalid|]. split; [apply get_set_same|]. split; [|split; [|split]].
  - intros k H1 H2. now rewrite !get_set_other by assumption.
  - intros H. destruct (Hk H) as [H1 H2]. split; [|exact H2].
    rewrite get_set_other by discriminate. now rewrite get_set_same.
  - intros H. specialize (Hg H). injection Hg as -> ->. split; [|reflexivity].
    rewrite get_set_other by discriminate. now rewrite get_set_same.
  - intros w2. now apply import_fix_valid.
Qed.

Lemma textual_frozen : textual frozen_oracle.
Proof.
  split.
  - intros k. apply wf_string_iff. reflexivity.
  - intros k u H. discriminate H.
Qed.

Lemma import_fix_normalizes_witness :
  exists o w', import_fix frozen_oracle record_without_id world0 = (Ok o, w')
               /\ valid_task o = true.
Proof.
  destruct (import_fix_normalizes frozen_oracle record_without_id world0)
    as [_ [o [w' [H1 [H2 _]]]]].
  - exact textual_frozen.
  - discriminate.
  - reflexivity.
  - exists o, w'. now split.
Defined.

(** The load migration changes nothing in a persistable task and reads no
    clock. *)
Lemma load_fix_persistable (O : oracle) (t : obj) (w : world) :
  persistable t = true -> load_fix O (VObj t) w = (Ok t, w).
Proof.
  unfold persistable. intros H. apply andb_true_iff in H as [H Hat].
  apply andb_true_iff in H as [_ Hid].
  unfold load_fix, bind, lift, member, or_else, ret, own_props.
  destruct (get_prop t k_id) as [v|] eqn:Eid; [|discriminate].
  cbn [truthy_opt] in Hid. rewrite Hid.
  destruct (get_prop t k_createdAt) as [a|] eqn:Eat; [|discriminate].
  cbn [truthy_opt] in Hat. rewrite Hat.
  rewrite (set_prop_same_value t k_id v Eid).
  now rewrite (set_prop_same_value t k_createdAt a Eat).
Qed.

(** X8. The load migration of one element: on [null] it throws a
    [TypeError]; on any other representable value it returns a persistable
    task, with the value's own properties ([isCompleted] among them, as it
    was), its own id and creation time when they are truthy and a generated
    id and the current time otherwise; a second pass over the result
    changes nothing and reads neither the generator nor the clock. *)
Theorem load_fix_normalizes (O : oracle) (t : value) (w : world) :
  textual O -> clock_in_range O -> t <> VNull -> representable t = true ->
  load_fix O VNull w = (Throw TypeError, w)
  /\ exists o w',
       load_fix O t w = (Ok o, w')
       /\ persistable o = true
       /\ (forall k, k <> k_id -> k <> k_createdAt ->
                     get_prop o k = get_prop (own_props t) k)
       /\ (truthy_opt (get_prop (own_props t) k_id) = true ->
           get_prop o k_id = get_prop (own_props t) k_id)
       /\ (truthy_opt (get_prop (own_props t) k_createdAt) = true ->
           get_prop o k_createdAt = get_prop (own_props t) k_createdAt)
       /\ (truthy_opt (get_prop (own_props t) k_id) = true ->
           truthy_opt (get_prop (own_props t) k_createdAt) = true -> w' = w)
       /\ forall w2, load_fix O (VObj o) w2 = (Ok o, w2).
Proof.
  intros HO HC Hn Hrep. split; [reflexivity|].
  apply own_props_representable in Hrep.
  destruct (settled_id O (own_props t) w HO Hrep) as [v [w1 [Hor [Ht [Hv [Hk Hg]]]]]].
  assert (exists a w', or_else (get_prop (own_props t) k_createdAt)
                         (current_time O) w1 = (Ok a, w')
            /\ truthy a = true /\ representable a = true
            /\ (truthy_opt (get_prop (own_props t) k_createdAt) = true ->
                get_prop (own_props t) k_createdAt = Some a /\ w' = w1))
    as [a [w' [Hat [Hta [Hra Hka]]]]].
  { destruct (truthy_opt (get_prop (own_props t) k_createdAt)) eqn:E.
    - destruct (or_else_truthy _ (current_time O) w1 E) as [a [Ea ->]].
      exists a, w1. rewrite Ea in E. repeat split; try assumption.
      now apply (representable_get_prop (own_props t) k_createdAt).
    - rewrite or_else_falsy by exact E. unfold current_time, read_now.
      destruct (HC (reads w1)) as [Hz Hs].
      eexists; eexists; split; [reflexivity|]. cbn [truthy representable].
      split; [|split; [exact Hs | discriminate]].
      apply negb_true_iff. now apply Z.eqb_neq. }
  assert (load_fix O t w
          = (Ok (set_prop (set_prop (own_props t) k_id v) k_createdAt a), w')) as E.
  { unfold load_fix, bind, lift.
    rewrite (member_own_props t k_id Hn) by reflexivity. rewrite Hor.
    rewrite (member_own_props t k_createdAt Hn) by reflexivity. rewrite Hat.
    reflexivity. }
  eexists. exists w'. split; [exact E|].
  assert (persistable (set_prop (set_prop (own_props t) k_id v) k_createdAt a)
          = true) as Hp.
  { unfold persistable. rewrite get_set_same.
    rewrite get_set_other by discriminate. rewrite get_set_same.
    cbn [truthy_opt]. rewrite Ht, Hta, !andb_true_r.
    apply representable_set_prop; [|reflexivity|exact Hra].
    apply representable_set_prop; [exact Hrep|reflexivity|exact Hv]. }
  split; [exact Hp|]. split; [|split; [|split; [|split]]].
  - intros k H1 H2. now rewrite !get_set_other by assumption.
  - intros H. destruct (Hk H) as [H1 _].
    rewrite get_set_other by discriminate. now rewrite get_set_same.
  - intros H. destruct (Hka H) as [H1 _]. now rewrite get_set_same.
  - intros H1 H2. destruct (Hk H1) as [_ <-]. now destruct (Hka H2) as [_ <-].
  - intros w2. now apply load_fix_persistable.
Qed.

Lemma clock_frozen : clock_in_range frozen_oracle.
Proof. intros k. split; [discriminate | reflexivity]. Qed.

Lemma load_fix_normalizes_witness :
  exists o w', load_fix frozen_oracle record_without_id world0 = (Ok o, w')
               /\ persistable o = true.
Proof.
  destruct (load_fix_normalizes frozen_oracle record_without_id world0)
    as [_ [o [w' [H1 [H2 _]]]]].
  - exact textual_frozen.
  - exact clock_frozen.
  - discriminate.
  - reflexivity.
  - exists o, w'. now split.
Defined.

(* ------------------------------------------------------------------ *)
(** ** Whole collections through the two paths *)

Lemma mapM_all {A B} (f : A -> M B) (P : B -> Prop) (l : list A) (w : world) :
  (forall x w0, In x l -> exists y w1, f x w0 = (Ok y, w1) /\ P y) ->
  exists ys w1, mapM f l w = (Ok ys, w1) /\ Forall P ys /\ length ys = length l.
Proof.
  revert w. induction l as [|x l IH]; intros w H.
  - exists [], w. repeat split. constructor.
  - destruct (H x w (or_introl eq_refl)) as [y [w1 [E Py]]].
    destruct (IH w1) as [ys [w2 [E2 [Pys Hlen]]]].
    { intros z w0 Hz. apply H. now right. }
    exists (y :: ys), w2. cbn [mapM]. unfold bind at 1. rewrite E.
    unfold bind at 1. rewrite E2. repeat split.
    + now constructor.
    + cbn [length]. now rewrite Hlen.
Qed.

Lemma mapM_throw {A B} (f : A -> M B) (l : list A) (x : A) (w : world) :
  In x l -> (forall w0, exists e w1, f x w0 = (Throw e, w1)) ->
  exists e w1, mapM f l w = (Throw e, w1).
Proof.
  revert w. induction l as [|a l IH]; intros w Hx Hf; [destruct Hx|].
  cbn [mapM]. unfold bind at 1.
  destruct (f a w) as [[y|e] w1] eqn:E; [|now exists e, w1].
  destruct Hx as [->|Hx].
  - destruct (Hf w) as [e [w2 F]]. congruence.
  - destruct (IH w1 Hx Hf) as [e [w2 F]]. unfold bind at 1. rewrite F.
    now exists e, w2.
Qed.

Lemma decode_stages_not_blank (code : jsstring) (v : value) :
  decode_stages code = Ok v -> exists c r, trim code = c :: r.
Proof.
  unfold decode_stages. destruct (trim code) as [|c r]; [discriminate|].
  intros _. now exists c, r.
Qed.

(** On a representable value other than [null] the import fix-up returns a
    valid task. *)
Lemma import_fix_total (O : oracle) (t : value) (w : world) :
  textual O -> t <> VNull -> representable t = true ->
  exists o w', import_fix O t w = (Ok o, w') /\ valid_task o = true.
Proof.
  intros HO Hn Hrep. apply own_props_representable in Hrep.
  destruct (settled_id O (own_props t) w HO Hrep) as [v [w' [Hor [Ht [Hv _]]]]].
  eexists. exists w'. split.
  - unfold import_fix, bind, lift.
    rewrite (member_own_props t k_id Hn) by reflexivity. rewrite Hor.
    rewrite (member_own_props t k_isCompleted Hn) by reflexivity. reflexivity.
  - unfold valid_task. rewrite get_set_same. cbn [is_boolean].
    rewrite get_set_other by discriminate. rewrite get_set_same.
    cbn [truthy_opt]. rewrite Ht, !andb_true_r.
    apply representable_set_prop; [|reflexivity|reflexivity].
    apply representable_set_prop; [exact Hrep|reflexivity|exact Hv].
Qed.

(** X9. The state update of [handleImport] on an import text that decodes
    to an array of representable values, [null] not among them: whatever
    the values are, the [try] block runs to its end; the collection it
    sets has one valid task per element, the success message is set and
    the import box emptied; and [handleImport] on the export code of the
    collection it has set sets the same collection again.  Only the
    handler's state update is stated, not the render that follows it. *)
Theorem handleImport_normalizes (O : oracle) (st : AppState) (l : list value) :
  textual O ->
  decode_stages (importCode st) = Ok (VArr l) ->
  representable (VArr l) = true -> ~ In VNull l ->
  valid_collection (tasks (handleImport O st)) = true
  /\ length (tasks (handleImport O st)) = length l
  /\ syncMessage (handleImport O st) = Some (s_import_ok, Msg_success)
  /\ importCode (handleImport O st) = []
  /\ tasks (handleImport O
              (setImportCode (getExportCode (tasks (handleImport O st)))
                 (handleImport O st)))
     = tasks (handleImport O st).
Proof.
  intros HO Hd Hrep Hnull.
  destruct (decode_stages_not_blank _ _ Hd) as [c [r Ht]].
  destruct (mapM_all (import_fix O) (fun o => valid_task o = true) l (env st))
    as [ts [w1 [E [Hall Hlen]]]].
  { intros x w0 Hx. cbn [representable] in Hrep. rewrite forallb_forall in Hrep.
    destruct (import_fix_total O x w0) as [o [w' [H1 H2]]]; try assumption.
    - intros ->. contradiction.
    - now apply Hrep.
    - now exists o, w'. }
  assert (valid_collection ts = true) as Hv.
  { unfold valid_collection. apply forallb_forall.
    rewrite Forall_forall in Hall. exact Hall. }
  assert (handleImport O st
          = {| tasks := ts;
               isAddModalOpen := isAddModalOpen st;
               isSettingsOpen := isSettingsOpen st;
               manualTitle := manualTitle st;
               manualAssignee := manualAssignee st;
               manualPriority := manualPriority st;
               importCode := [];
               syncMessage := Some (s_import_ok, Msg_success);
               env := w1 |}) as H.
  { unfold handleImport. rewrite Ht. unfold import_body, bind, lift.
    rewrite Hd, E. reflexivity. }
  rewrite H. cbn [tasks syncMessage importCode]. repeat split; try assumption.
  destruct (export_decodes ts (valid_collection_representable ts Hv))
    as [Hd' [Ht' Hne]].
  unfold handleImport. cbn [importCode setImportCode]. rewrite Ht'.
  destruct (getExportCode ts) as [|c' code] eqn:G; [congruence|].
  unfold import_body, bind, lift. rewrite Hd'. unfold tasks_value.
  cbn [env setImportCode]. now rewrite (mapM_import_valid O ts w1 Hv).
Qed.

Lemma handleImport_normalizes_witness :
  valid_collection
    (tasks (handleImport frozen_oracle
              (setImportCode (getExportCode [record_without_createdAt]) sample_state)))
  = true
  /\ length (tasks (handleImport frozen_oracle
              (setImportCode (getExportCode [record_without_createdAt]) sample_state)))
     = 1%nat.
Proof.
  destruct (handleImport_normalizes frozen_oracle
              (setImportCode (getExportCode [record_without_createdAt]) sample_state)
              [VObj record_without_createdAt]) as [H1 [H2 _]].
  - exact textual_frozen.
  - vm_compute. reflexivity.
  - reflexivity.
  - intros [F|[]]. discriminate F.
  - split; [exact H1 | exact H2].
Defined.

(** X10. One [null] among the elements spoils the whole array on both
    paths: the mapping throws at it, so an import leaves the collection as
    it was and reports the failure, keeping the text in the box, and a load
    starts the application with no task at all, whatever the other elements
    are. *)
Theorem null_entry_rejects_all (O : oracle) (st : AppState) (s : jsstring)
  (l : list value) (w : world) :
  In VNull l ->
  (decode_stages (importCode st) = Ok (VArr l) ->
   tasks (handleImport O st) = tasks st
   /\ syncMessage (handleImport O st) = Some (s_import_bad, Msg_error)
   /\ importCode (handleImport O st) = importCode st)
  /\ (JSON_parse s = Ok (VArr l) -> fst (loadTasks O (Some s) w) = []).
Proof.
  intros Hin. split.
  - intros Hd. destruct (decode_stages_not_blank _ _ Hd) as [c [r Ht]].
    destruct (mapM_throw (import_fix O) l VNull (env st) Hin) as [e [w1 E]].
    { intros w0. now exists TypeError, w0. }
    unfold handleImport. rewrite Ht. unfold import_body, bind, lift.
    rewrite Hd, E. repeat split.
  - intros Hp. destruct (mapM_throw (load_fix O) l VNull w Hin) as [e [w1 E]].
    { intros w0. now exists TypeError, w0. }
    unfold loadTasks. destruct s as [|c r]; [discriminate Hp|].
    now rewrite Hp, E.
Qed.

Lemma null_entry_rejects_all_witness :
  tasks (handleImport frozen_oracle (setImportCode code_record_and_null sample_state))
  = tasks sample_state
  /\ fst (loadTasks frozen_oracle (Some s_record_and_null) world0) = [].
Proof.
  destruct (null_entry_rejects_all frozen_oracle
              (setImportCode code_record_and_null sample_state)
              s_record_and_null record_and_null world0) as [H1 H2].
  - right. now left.
  - split.
    + apply H1. vm_compute. reflexivity.
    + apply H2. vm_compute. reflexivity.
Defined.

Lemma persistable_representable (ts : list obj) :
  forallb persistable ts = true -> representable (tasks_value ts) = true.
Proof.
  unfold tasks_value. cbn [representable].
  rewrite !forallb_forall. intros H v Hv.
  apply in_map_iff in Hv as [t [<- Ht]]. specialize (H t Ht).
  unfold persistable in H. apply andb_true_iff in H as [H _].
  now apply andb_true_iff in H as [H _].
Qed.

Lemma mapM_load_persistable (O : oracle) (ts : list obj) (w : world) :
  forallb persistable ts = true ->
  mapM (load_fix O) (map VObj ts) w = (Ok ts, w).
Proof.
  induction ts as [|t ts IH]; intros H; [reflexivity|].
  cbn [forallb] in H. apply andb_true_iff in H as [Ht Hts].
  cbn [map mapM]. unfold bind at 1. rewrite (load_fix_persistable O t w Ht).
  unfold bind at 1. now rewrite (IH Hts).
Qed.

Lemma loadTasks_parsed (O : oracle) (s : jsstring) (l : list value) (w : world) :
  JSON_parse s = Ok (VArr l) ->
  loadTasks O (Some s) w
  = match mapM (load_fix O) l w with
    | (Ok ts, w') => (ts, w')
    | (Throw _, w') => ([], w')
    end.
Proof.
  intros H. unfold loadTasks. destruct s as [|c r]; [discriminate H|].
  now rewrite H.
Qed.

(** X11. What the save effect writes is read back as it was: loading the
    serialized text of a collection of persistable tasks gives the
    collection, the same tasks with the same properties in the same order,
    and reads neither the id generator nor the clock. *)
Theorem loadTasks_round_trip (O : oracle) (ts : list obj) (w : world) :
  forallb persistable ts = true ->
  loadTasks O (Some (JSON_stringify (tasks_value ts))) w = (ts, w).
Proof.
  intros H.
  rewrite (loadTasks_parsed O _ (map VObj ts) w).
  - now rewrite mapM_load_persistable.
  - apply JSON_parse_stringify. now apply persistable_representable.
Qed.

Lemma loadTasks_round_trip_witness :
  loadTasks frozen_oracle
    (Some (JSON_stringify (tasks_value [unicode_task; sample_task 1 false]))) world0
  = ([unicode_task; sample_task 1 false], world0).
Proof.
  apply (loadTasks_round_trip frozen_oracle [unicode_task; sample_task 1 false] world0).
  vm_compute. reflexivity.
Defined.

(** On a representable value other than [null] the load migration returns a
    persistable task. *)
Lemma load_fix_total (O : oracle) (t : value) (w : world) :
  textual O -> clock_in_range O -> t <> VNull -> representable t = true ->
  exists o w', load_fix O t w = (Ok o, w') /\ persistable o = true.
Proof.
  intros HO HC Hn Hrep. apply own_props_representable in Hrep.
  destruct (settled_id O (own_props t) w HO Hrep) as [v [w1 [Hor [Ht [Hv _]]]]].
  assert (exists a w', or_else (get_prop (own_props t) k_createdAt)
                         (current_time O) w1 = (Ok a, w')
            /\ truthy a = true /\ representable a = true)
    as [a [w' [Hat [Hta Hra]]]].
  { destruct (truthy_opt (get_prop (own_props t) k_createdAt)) eqn:E.
    - destruct (or_else_truthy _ (current_time O) w1 E) as [a [Ea ->]].
      exists a, w1. rewrite Ea in E. repeat split; try assumption.
      now apply (representable_get_prop (own_props t) k_createdAt).
    - rewrite or_else_falsy by exact E. unfold current_time, read_now.
      destruct (HC (reads w1)) as [Hz Hs].
      eexists; eexists; split; [reflexivity|]. cbn [truthy representable].
      split; [|exact Hs]. apply negb_true_iff. now apply Z.eqb_neq. }
  eexists. exists w'. split.
  - unfold load_fix, bind, lift.
    rewrite (member_own_props t k_id Hn) by reflexivity. rewrite Hor.
    rewrite (member_own_props t k_createdAt Hn) by reflexivity. rewrite Hat.
    reflexivity.
  - unfold persistable. rewrite get_set_same.
    rewrite get_set_other by discriminate. rewrite get_set_same.
    cbn [truthy_opt]. rewrite Ht, Hta, !andb_true_r.
    apply representable_set_prop; [|reflexivity|exact Hra].
    apply representable_set_prop; [exact Hrep|reflexivity|exact Hv].
Qed.

(** X12. What the initializer of the [tasks] state returns for a stored
    text that parses to an array of representable values, [null] not among
    them: whatever the values are, one persistable task per element; and
    the initializer applied to the serialized text of what it returned
    returns the same again.  Only the initializer's result is stated, not
    the render that follows it. *)
Theorem loadTasks_normalizes (O : oracle) (s : jsstring) (l : list value) (w : world) :
  textual O -> clock_in_range O ->
  JSON_parse s = Ok (VArr l) -> representable (VArr l) = true -> ~ In VNull l ->
  forallb persistable (fst (loadTasks O (Some s) w)) = true
  /\ length (fst (loadTasks O (Some s) w)) = length l
  /\ forall w2,
       loadTasks O (Some (JSON_stringify (tasks_value (fst (loadTasks O (Some s) w))))) w2
       = (fst (loadTasks O (Some s) w), w2).
Proof.
  intros HO HC Hp Hrep Hnull.
  destruct (mapM_all (load_fix O) (fun o => persistable o = true) l w)
    as [ts [w1 [E [Hall Hlen]]]].
  { intros x w0 Hx. cbn [representable] in Hrep. rewrite forallb_forall in Hrep.
    apply load_fix_total; try assumption.
    - intros ->. contradiction.
    - now apply Hrep. }
  rewrite (loadTasks_parsed O s l w Hp), E. cbn [fst].
  assert (forallb persistable ts = true) as Hv.
  { apply forallb_forall. rewrite Forall_forall in Hall. exact Hall. }
  split; [exact Hv|]. split; [exact Hlen|]. intros w2.
  rewrite (loadTasks_parsed O _ (map VObj ts) w2).
  - now rewrite mapM_load_persistable.
  - apply JSON_parse_stringify. now apply persistable_representable.
Qed.

Lemma loadTasks_normalizes_witness :
  forallb persistable
    (fst (loadTasks frozen_oracle (Some (JSON_stringify (VArr [record_without_id])))
            world0)) = true.
Proof.
  apply (loadTasks_normalizes frozen_oracle
           (JSON_stringify (VArr [record_without_id])) [record_without_id] world0).
  - exact textual_frozen.
  - exact clock_frozen.
  - vm_compute. reflexivity.
  - reflexivity.
  - intros [F|[]]. discriminate F.
Defined.

(* ------------------------------------------------------------------ *)
(** ** The shape of a sync code *)

Lemma padded_length (n : nat) : ((n + (4 - n mod 4) mod 4) mod 4 = 0)%nat.
Proof.
  pose proof (Nat.mod_upper_bound n 4 ltac:(lia)) as Hr.
  pose proof (Nat.div_mod_eq n 4) as Hn.
  set (r := (n mod 4)%nat) in *. set (k := (n / 4)%nat) in *. rewrite Hn.
  destruct r as [|[|[|[|r]]]]; [| | | |lia].
  - replace (4 * k + 0 + (4 - 0) mod 4)%nat with (4 * k)%nat
      by (cbn [Nat.sub]; rewrite Nat.Div0.mod_same; lia).
    apply mod4_mul.
  - replace (4 * k + 1 + (4 - 1) mod 4)%nat with (4 * S k)%nat
      by (cbn [Nat.sub]; rewrite (Nat.mod_small 3 4) by lia; lia).
    apply mod4_mul.
  - replace (4 * k + 2 + (4 - 2) mod 4)%nat with (4 * S k)%nat
      by (cbn [Nat.sub]; rewrite (Nat.mod_small 2 4) by lia; lia).
    apply mod4_mul.
  - replace (4 * k + 3 + (4 - 3) mod 4)%nat with (4 * S k)%nat
      by (cbn [Nat.sub]; rewrite (Nat.mod_small 1 4) by lia; lia).
    apply mod4_mul.
Qed.

Lemma b64_text_plain (c : Z) :
  is_b64_text c = true -> is_js_space c = false /\ is_ascii_ws c = false.
Proof.
  unfold is_b64_text, b64_val, is_js_space, is_ascii_ws. intros H.
  split; bool_cases; bool_to_Z; try discriminate; try reflexivity; lia.
Qed.

(** The sync code of a representable collection is the base-64 text of
    octets, padded to a multiple of four characters. *)
Lemma export_code_form (ts : list obj) :
  representable (tasks_value ts) = true ->
  exists q, Forall sextet q
            /\ getExportCode ts
               = map b64_char q ++ b64_padding (length (map b64_char q)).
Proof.
  intros Hrep.
  destruct (uri_round_trip _ (JSON_stringify_wf _ Hrep)) as [e [He [Ho _]]].
  exists (sextets e). split; [now apply sextets_range|].
  unfold getExportCode. rewrite He. cbn [res_bind]. unfold btoa.
  now rewrite (proj2 (is_byte_octet e) Ho).
Qed.

Lemma export_code_text (ts : list obj) :
  representable (tasks_value ts) = true ->
  forallb is_b64_text (getExportCode ts) = true.
Proof.
  intros Hrep. destruct (export_code_form ts Hrep) as [q [Hq ->]].
  rewrite forallb_app. apply andb_true_iff. split; apply forallb_forall; intros c Hc.
  - apply in_map_iff in Hc as [n [<- Hn]]. rewrite Forall_forall in Hq.
    unfold is_b64_text. now rewrite (b64_val_char n (Hq n Hn)).
  - unfold b64_padding in Hc. apply repeat_spec in Hc. now subst c.
Qed.

(** X13. The sync code of a valid collection is copy-paste friendly: it is
    made of letters, digits, [+], [/] and [=] only, its length is a
    multiple of four and not zero, it is not the text returned when the
    encoding fails, and it determines the collection: two valid
    collections with the same code are the same. *)
Theorem export_code_shape (ts ts' : list obj) :
  valid_collection ts = true ->
  forallb is_b64_text (getExportCode ts) = true
  /\ (length (getExportCode ts) mod 4 = 0)%nat
  /\ getExportCode ts <> []
  /\ getExportCode ts <> s_export_error
  /\ (valid_collection ts' = true -> getExportCode ts' = getExportCode ts -> ts' = ts).
Proof.
  intros Hv. pose proof (valid_collection_representable ts Hv) as Hrep.
  pose proof (export_code_text ts Hrep) as Ht.
  destruct (export_decodes ts Hrep) as [Hd [_ Hne]].
  split; [exact Ht|]. split; [|split; [exact Hne|split]].
  - destruct (export_code_form ts Hrep) as [q [_ ->]].
    rewrite length_app. unfold b64_padding. rewrite repeat_length.
    apply padded_length.
  - intros E. rewrite E in Ht. discriminate Ht.
  - intros Hv' E.
    destruct (export_decodes ts' (valid_collection_representable ts' Hv'))
      as [Hd' _].
    rewrite E, Hd in Hd'. injection Hd' as Hd'.
    clear - Hd'. revert ts' Hd'.
    induction ts as [|t ts IH]; intros [|t' ts'] H; try discriminate H;
      [reflexivity|].
    cbn [map] in H. injection H as H1 H2. subst t'. f_equal. now apply IH.
Qed.

Lemma export_code_shape_witness :
  forallb is_b64_text (getExportCode [unicode_task; sample_task 1 false]) = true
  /\ (length (getExportCode [unicode_task; sample_task 1 false]) mod 4 = 0)%nat.
Proof.
  destruct (export_code_shape [unicode_task; sample_task 1 false] [])
    as [H1 [H2 _]].
  - vm_compute. reflexivity.
  - split; [exact H1 | exact H2].
Defined.

Lemma atob_squeeze (s : jsstring) : atob s = atob (squeeze s).
Proof. unfold atob, squeeze. now rewrite filter_idem. Qed.

Lemma trim_start_incl (s : jsstring) (c : Z) : In c (trim_start s) -> In c s.
Proof.
  induction s as [|d s IH]; cbn [trim_start]; [tauto|].
  destruct (is_js_space d); [intros H; right; now apply IH | tauto].
Qed.

Lemma trim_incl (s : jsstring) (c : Z) : In c (trim s) -> In c s.
Proof.
  unfold trim. intros H. apply in_rev in H. apply trim_start_incl in H.
  apply in_rev in H. now apply trim_start_incl in H.
Qed.

Lemma squeeze_trim_start (s : jsstring) :
  (forall c, In c s -> is_js_space c = true -> is_ascii_ws c = true) ->
  squeeze (trim_start s) = squeeze s.
Proof.
  unfold squeeze. induction s as [|d s IH]; intros H; cbn [trim_start];
    [reflexivity|].
  destruct (is_js_space d) eqn:E; [|reflexivity].
  cbn [filter]. rewrite (H d (or_introl eq_refl) E). cbn [negb].
  apply IH. intros c Hc. apply H. now right.
Qed.

Lemma squeeze_trim (s : jsstring) :
  (forall c, In c s -> is_js_space c = true -> is_ascii_ws c = true) ->
  squeeze (trim s) = squeeze s.
Proof.
  intros H. unfold trim.
  assert (forall l, squeeze (rev l) = rev (squeeze l)) as R
    by (intros l; apply filter_rev).
  rewrite R, squeeze_trim_start, R, rev_involutive; [now apply squeeze_trim_start|].
  intros c Hc. apply in_rev in Hc. apply trim_start_incl in Hc. now apply H.
Qed.

(** X14. White space around and inside a sync code does no harm: a text
    that is the code of a valid collection once its ASCII white space
    (blanks, tabs, line breaks) is taken out decodes to that collection and
    is imported as the code itself is. *)
Theorem import_ignores_layout (O : oracle) (st : AppState) (ts : list obj)
  (code : jsstring) :
  valid_collection ts = true ->
  squeeze code = getExportCode ts ->
  decode_stages code = Ok (tasks_value ts)
  /\ tasks (handleImport O (setImportCode code st)) = ts
  /\ syncMessage (handleImport O (setImportCode code st))
     = Some (s_import_ok, Msg_success)
  /\ env (handleImport O (setImportCode code st)) = env st.
Proof.
  intros Hv Hs. pose proof (valid_collection_representable ts Hv) as Hrep.
  destruct (export_decodes ts Hrep) as [Hd [Ht Hne]].
  assert (squeeze (trim code) = squeeze code) as Hq.
  { apply squeeze_trim. intros c Hc Hsp.
    destruct (is_ascii_ws c) eqn:E; [reflexivity|].
    assert (In c (squeeze code)) as Hin
      by (apply filter_In; split; [exact Hc | now rewrite E]).
    rewrite Hs in Hin. pose proof (export_code_text ts Hrep) as Htxt.
    rewrite forallb_forall in Htxt.
    destruct (b64_text_plain c (Htxt c Hin)) as [F _]. congruence. }
  assert (decode_stages code = Ok (tasks_value ts)) as Hdec.
  { rewrite <- Hd. unfold decode_stages.
    now rewrite (atob_squeeze (trim code)), Hq, Hs, Ht. }
  split; [exact Hdec|].
  unfold handleImport. cbn [importCode setImportCode].
  destruct (trim code) as [|c r] eqn:E.
  { exfalso. apply Hne. rewrite <- Hs, <- Hq. reflexivity. }
  unfold import_body, bind, lift. rewrite Hdec. unfold tasks_value.
  cbn [env setImportCode]. rewrite (mapM_import_valid O ts (env st) Hv).
  repeat split.
Qed.

Lemma import_ignores_layout_witness :
  tasks (handleImport frozen_oracle
           (setImportCode
              ([32; 10] ++ firstn 7 (getExportCode [sample_task 1 false])
               ++ [13; 10; 9] ++ skipn 7 (getExportCode [sample_task 1 false])
               ++ [10])
              sample_state))
  = [sample_task 1 false].
Proof.
  apply (import_ignores_layout frozen_oracle sample_state [sample_task 1 false]).
  - vm_compute. reflexivity.
  - vm_compute. reflexivity.
Defined.

(* ------------------------------------------------------------------ *)
(** ** Manual entry keeps the collection well formed *)

Lemma newTask_well_formed (id title : jsstring) (a : SisterName) (p : Priority)
  (now : Z) :
  id <> [] -> wf_stringb id = true -> wf_stringb title = true ->
  safe_integerb now = true -> now <> 0 ->
  valid_task (newTask id title a p now) = true
  /\ persistable (newTask id title a p now) = true.
Proof.
  intros Hne Hid Ht Hs Hz.
  assert (representable (VObj (newTask id title a p now)) = true) as R.
  { unfold newTask. cbn [representable map fst snd forallb].
    rewrite Hid, Ht, Hs. destruct a, p; reflexivity. }
  unfold valid_task, persistable. rewrite R.
  change (get_prop (newTask id title a p now) k_id) with (Some (VStr id)).
  change (get_prop (newTask id title a p now) k_isCompleted)
    with (Some (VBool false)).
  change (get_prop (newTask id title a p now) k_createdAt) with (Some (VNum now)).
  cbn [truthy_opt truthy is_boolean].
  apply Z.eqb_neq in Hz. rewrite Hz.
  destruct id; [contradiction | now split].
Qed.

(** X15. Adding a task by hand keeps the collection well formed: when the
    title typed is a string of code units, a valid collection stays valid
    (it can be exported and imported without loss) and a persistable one
    stays persistable (it is loaded as it was saved), whether the title is
    blank or not. *)
Theorem handleManualAdd_keeps_well_formed (O : oracle) (st : AppState) :
  textual O -> clock_in_range O -> wf_string (manualTitle st) ->
  (valid_collection (tasks st) = true ->
   valid_collection (tasks (handleManualAdd O st)) = true)
  /\ (forallb persistable (tasks st) = true ->
      forallb persistable (tasks (handleManualAdd O st)) = true).
Proof.
  intros HO HC Ht. unfold handleManualAdd.
  destruct (trim (manualTitle st)) as [|c r] eqn:E; [now split|].
  destruct (generateId_text O (env st) HO) as [Hne Hwf].
  destruct (generateId O (env st)) as [id w1]. cbn [fst] in Hne, Hwf.
  unfold read_now. destruct (HC (reads w1)) as [Hz Hs].
  assert (wf_stringb (c :: r) = true) as Htitle.
  { rewrite <- E. apply forallb_forall. intros x Hx. apply trim_incl in Hx.
    apply wf_string_iff in Ht. unfold wf_stringb in Ht.
    rewrite forallb_forall in Ht. now apply Ht. }
  destruct (newTask_well_formed id (c :: r) (manualAssignee st) (manualPriority st)
              (Date_now O (reads w1)) Hne Hwf Htitle Hs Hz) as [Hv Hp].
  cbn [tasks]. unfold valid_collection. cbn [forallb].
  rewrite Hv, Hp. now split.
Qed.

Lemma handleManualAdd_keeps_well_formed_witness :
  valid_collection (tasks (handleManualAdd frozen_oracle milk_form)) = true
  /\ forallb persistable (tasks (handleManualAdd frozen_oracle milk_form)) = true.
Proof.
  destruct (handleManualAdd_keeps_well_formed frozen_oracle milk_form) as [H1 H2].
  - exact textual_frozen.
  - exact clock_frozen.
  - apply wf_string_iff. reflexivity.
  - split; [apply H1 | apply H2]; reflexivity.
Defined.

(* ------------------------------------------------------------------ *)
(** ** The bookkeeping of the save effect *)

Lemma is_markb_iff (tm : timer) : is_markb tm = true <-> is_mark tm.
Proof.
  unfold is_markb, is_mark. destruct (cb tm); split; congruence.
Qed.

Lemma marks_all (q : list timer) : Forall is_mark q -> filter is_markb q = q.
Proof.
  intros H. apply filter_keeps_all. rewrite Forall_forall in H.
  intros x Hx. apply is_markb_iff. now apply H.
Qed.

Lemma last_failed_snoc (s : Sched) (l : list (jsstring * bool)) (p : jsstring)
  (b : bool) :
  setItem_calls s = l ++ [(p, b)] -> last_call_failed s = negb b.
Proof.
  unfold last_call_failed. intros ->. rewrite rev_unit. now destruct b.
Qed.

Lemma last_stored_snoc (l : list (jsstring * bool)) (p : jsstring) (b : bool) :
  last_stored (l ++ [(p, b)]) = if b then Some p else last_stored l.
Proof. unfold last_stored. rewrite rev_unit. cbn [find snd]. now destruct b. Qed.

(** Cleaning up the last effect removes no mark. *)
Lemma clear_keeps_marks (s : Sched) :
  sched_inv s ->
  filter is_markb (clearTimeout (effect_timer s) (queue s)) = pending_marks s
  /\ Forall is_mark (clearTimeout (effect_timer s) (queue s)).
Proof.
  intros I. split; [|now apply shape_clear]. unfold pending_marks.
  destruct (inv_shape s I) as [marks [Hm [[Hq Hstale]|[i [d [Hq He]]]]]].
  - destruct (effect_timer s) as [i|]; [|reflexivity].
    rewrite clear_absent; [reflexivity|]. rewrite Hq. now apply Hstale.
  - rewrite He, Hq.
    pose proof (clear_last {| timer_id := i; due := d;
                              cb := CbSaveTasks (cur_tasks s) |} marks) as C.
    cbn [timer_id] in C. rewrite C by (rewrite <- Hq; apply (inv_nodup s I)).
    rewrite filter_app. cbn [filter is_markb cb]. now rewrite app_nil_r.
Qed.

Lemma mount_book (t0 : Z) (initial : list obj) (stored : option jsstring) :
  book_inv (mount t0 initial stored).
Proof.
  constructor.
  - cbn. lia.
  - reflexivity.
  - intros p H. discriminate H.
  - now left.
Qed.

Lemma set_clock_book (t : Z) (s : Sched) : book_inv s -> book_inv (set_clock t s).
Proof. intros B. constructor; apply B. Qed.

Lemma setTasks_book (new : list obj) (s : Sched) :
  sched_inv s -> book_inv s -> book_inv (setTasks new s).
Proof.
  intros I B. destruct (clear_keeps_marks s I) as [Hk _].
  assert (pending_marks (setTasks new s) = pending_marks s) as Hp.
  { unfold pending_marks at 1. cbn [queue setTasks]. rewrite filter_app, Hk.
    cbn [filter is_markb cb]. apply app_nil_r. }
  constructor.
  - rewrite Hp. apply B.
  - unfold expected_status. rewrite Hp. apply (bk_status s B).
  - apply (bk_stored s B).
  - left. unfold save_pending. cbn [queue setTasks]. rewrite existsb_app.
    cbn [existsb is_markb cb negb]. now rewrite orb_true_r.
Qed.

Lemma fire_book (throws : nat -> bool) (s : Sched) (tm : timer) :
  sched_inv s -> book_inv s -> earliest (queue s) = Some tm ->
  book_inv (fire throws tm s).
Proof.
  intros I B E. destruct (fire_head s tm I E) as [q [Q C]].
  destruct (fire_cases throws s tm I E)
    as [[Hmk _]|[Hcb [Q1 [_ [_ [Hcalls _]]]]]].
  - (* a mark fires *)
    assert (is_markb tm = true) as Hb by now apply is_markb_iff.
    assert (filter is_markb q = []) as Hq.
    { pose proof (bk_marks s B) as L. unfold pending_marks in L.
      rewrite Q in L. cbn [filter] in L. rewrite Hb in L. cbn [length] in L.
      destruct (filter is_markb q); [reflexivity | cbn [length] in L; lia]. }
    assert (last_call_failed s = false) as Hf.
    { destruct (last_call_failed s) eqn:F; [|reflexivity].
      destruct (inv_status s I F) as [Hn _]. rewrite Q in Hn.
      apply Forall_cons_iff in Hn as [Hn _]. now elim Hn. }
    unfold fire. rewrite C, Hmk. unfold setSaved. constructor.
    + unfold pending_marks. cbn [queue]. rewrite Hq. cbn. lia.
    + unfold expected_status, pending_marks, last_call_failed.
      cbn [queue saveStatus setItem_calls]. rewrite Hq.
      fold (last_call_failed s). now rewrite Hf.
    + apply (bk_stored s B).
    + cbn [setItem_calls cur_tasks]. destruct (bk_current s B) as [H|H];
        [left | now right].
      unfold save_pending in *. cbn [queue]. rewrite Q in H.
      cbn [existsb] in H. now rewrite Hb in H.
  - (* the save fires *)
    rewrite Q in Q1. injection Q1 as ->.
    unfold fire in *. rewrite C, Hcb in *. unfold saveTasks in *.
    destruct (throws (length (setItem_calls s))); cbn [setItem_calls] in Hcalls;
      constructor;
      try (unfold pending_marks; cbn [queue app filter is_markb cb length]; lia);
      try (right; eexists; eexists; cbn [setItem_calls cur_tasks]; reflexivity).
    + unfold expected_status, pending_marks, last_call_failed.
      cbn [queue filter saveStatus setItem_calls]. now rewrite rev_unit.
    + cbn [setItem_calls storage]. intros p. rewrite last_stored_snoc.
      apply (bk_stored s B).
    + reflexivity.
    + cbn [setItem_calls storage]. intros p. now rewrite last_stored_snoc.
Qed.

Lemma advance_fuel_book (throws : nat -> bool) (fuel : nat) (t : Z) (s : Sched) :
  sched_inv s -> book_inv s -> book_inv (advance_fuel throws fuel t s).
Proof.
  revert s. induction fuel as [|f IH]; intros s I B; simpl.
  - now apply set_clock_book.
  - destruct (earliest (queue s)) as [tm|] eqn:E; [|now apply set_clock_book].
    destruct (due tm <=? t); [|now apply set_clock_book].
    apply IH; [now apply fire_inv | now apply fire_book].
Qed.

Lemma reachable_book (throws : nat -> bool) (s : Sched) :
  reachable throws s -> book_inv s.
Proof.
  induction 1 as [t0 initial stored | s t R IH Ht | s t new R IH Ht].
  - apply mount_book.
  - apply advance_fuel_book; [now apply (reachable_inv throws) | exact IH].
  - pose proof (reachable_inv throws s R) as I.
    apply setTasks_book.
    + now apply advance_fuel_inv.
    + now apply advance_fuel_book.
Qed.

(** X16. In every state the scheduler can be in, at most one [saved] mark
    is pending, and the status is [saving] exactly while one is (the 500 ms
    after a write that went through), [error] when none is and the last
    write threw, and [saved] otherwise, also while a change waits for its
    write. *)
Theorem saveStatus_tracks_writes (throws : nat -> bool) (s : Sched) :
  reachable throws s ->
  (length (pending_marks s) <= 1)%nat
  /\ saveStatus s = expected_status s
  /\ (saveStatus s = St_saving <-> pending_marks s <> [])
  /\ (saveStatus s = St_error <-> last_call_failed s = true).
Proof.
  intros R. pose proof (reachable_book throws s R) as B.
  pose proof (reachable_inv throws s R) as I.
  split; [apply B|]. split; [apply B|].
  rewrite (bk_status s B). unfold expected_status.
  destruct (pending_marks s) as [|m ms] eqn:P.
  - destruct (last_call_failed s); repeat split; congruence.
  - split; [split; [discriminate | reflexivity]|].
    split; [discriminate|]. intros F.
    destruct (inv_status s I F) as [Hn _]. rewrite Forall_forall in Hn.
    assert (In m (pending_marks s)) as Hm by (rewrite P; now left).
    apply filter_In in Hm as [Hm1 Hm2]. apply is_markb_iff in Hm2.
    now elim (Hn m Hm1).
Qed.

Lemma saveStatus_tracks_writes_witness :
  saveStatus (advance never_throws 700 (mount 0 [sample_task 1 false] None))
  = St_saving
  /\ saveStatus (change_at never_throws 1200 []
                   (advance never_throws 700 (mount 0 [sample_task 1 false] None)))
     = St_saved.
Proof.
  split.
  - apply (saveStatus_tracks_writes never_throws
             (advance never_throws 700 (mount 0 [sample_task 1 false] None))).
    + apply reach_advance; [apply reach_mount | cbn; lia].
    + vm_compute. discriminate.
  - pose proof (saveStatus_tracks_writes never_throws
             (change_at never_throws 1200 []
                (advance never_throws 700 (mount 0 [sample_task 1 false] None))))
      as [_ [H _]].
    + apply reach_change; [apply reach_advance; [apply reach_mount|]|].
      * cbn. lia.
      * vm_compute. discriminate.
    + rewrite H. reflexivity.
Defined.

(** The passing of time adds no [saveTasks] to the queue and leaves the
    collection alone. *)
Lemma advance_fuel_saves (throws : nat -> bool) (fuel : nat) (t : Z) (s : Sched)
  (tm : timer) :
  sched_inv s ->
  In tm (queue (advance_fuel throws fuel t s)) -> is_markb tm = false ->
  In tm (queue s).
Proof.
  revert s. induction fuel as [|f IH]; intros s I Hin Hb; simpl in Hin;
    [exact Hin|].
  destruct (earliest (queue s)) as [tm0|] eqn:E; [|exact Hin].
  destruct (due tm0 <=? t); [|exact Hin].
  apply IH in Hin; [|now apply fire_inv|exact Hb].
  destruct (fire_cases throws s tm0 I E)
    as [[_ [q [Q [Q' _]]]]|[_ [_ [Hm _]]]].
  - rewrite Q. right. now rewrite <- Q'.
  - rewrite Forall_forall in Hm. apply Hm in Hin. apply is_markb_iff in Hin.
    congruence.
Qed.

Lemma advance_fuel_cur (throws : nat -> bool) (fuel : nat) (t : Z) (s : Sched) :
  sched_inv s -> cur_tasks (advance_fuel throws fuel t s) = cur_tasks s.
Proof.
  revert s. induction fuel as [|f IH]; intros s I; simpl; [reflexivity|].
  destruct (earliest (queue s)) as [tm|] eqn:E; [|reflexivity].
  destruct (due tm <=? t); [|reflexivity].
  rewrite IH by now apply fire_inv.
  destruct (fire_cases throws s tm I E)
    as [[_ [q [_ [_ [_ [H _]]]]]]|[_ [_ [_ [_ [_ [H _]]]]]]]; exact H.
Qed.

(** X17. In every state the scheduler can be in, the stored item is the
    payload of the last call of [setItem] that went through, if there is
    one; and the current collection either has its [saveTasks] pending or
    is what the last call of [setItem] was given. *)
Theorem storage_tracks_writes (throws : nat -> bool) (s : Sched) :
  reachable throws s ->
  (forall p, last_stored (setItem_calls s) = Some p -> storage s = Some p)
  /\ (save_pending s = false ->
      exists l b, setItem_calls s
                  = l ++ [(JSON_stringify (tasks_value (cur_tasks s)), b)]).
Proof.
  intros R. pose proof (reachable_book throws s R) as B.
  split; [apply B|]. intros H.
  destruct (bk_current s B) as [F|F]; [congruence | exact F].
Qed.

Lemma storage_tracks_writes_witness :
  storage (advance never_throws 700 (mount 0 [sample_task 1 false] None))
  = Some (JSON_stringify (tasks_value [sample_task 1 false])).
Proof.
  apply (storage_tracks_writes never_throws
           (advance never_throws 700 (mount 0 [sample_task 1 false] None))).
  - apply reach_advance; [apply reach_mount | cbn; lia].
  - vm_compute. reflexivity.
Defined.

(** X18. Half a second without a change settles everything: from any state
    the scheduler can be in, once 500 ms have passed no [saveTasks] is
    pending and the last call of [setItem] was given the current
    collection; if that call went through, the stored item is the
    collection's text, and when the tasks are persistable a restart of the
    application loads exactly the collection it was closed with. *)
Theorem restart_after_idle (throws : nat -> bool) (O : oracle) (s : Sched)
  (T : Z) (w : world) :
  reachable throws s -> clock s + 500 <= T ->
  save_pending (advance throws T s) = false
  /\ cur_tasks (advance throws T s) = cur_tasks s
  /\ (exists l b, setItem_calls (advance throws T s)
                  = l ++ [(JSON_stringify (tasks_value (cur_tasks s)), b)])
  /\ (last_call_failed (advance throws T s) = false ->
      storage (advance throws T s)
      = Some (JSON_stringify (tasks_value (cur_tasks s)))
      /\ (forallb persistable (cur_tasks s) = true ->
          loadTasks O (storage (advance throws T s)) w = (cur_tasks s, w))).
Proof.
  intros R HT. pose proof (reachable_inv throws s R) as I.
  pose proof (reachable_book throws s R) as B.
  pose proof (advance_fuel_inv throws (2 * length (queue s)) T s I) as I'.
  pose proof (advance_fuel_book throws (2 * length (queue s)) T s I B) as B'.
  pose proof (advance_fuel_cur throws (2 * length (queue s)) T s I) as Hc.
  pose proof (advance_complete throws T s I) as Hq.
  fold (advance throws T s) in I', B', Hc.
  assert (save_pending (advance throws T s) = false) as Hp.
  { unfold save_pending. destruct (existsb _ _) eqn:X; [|reflexivity].
    apply existsb_exists in X as [tm [Hin Hb]]. apply negb_true_iff in Hb.
    rewrite Forall_forall in Hq. pose proof (Hq tm Hin) as Hlate.
    apply (advance_fuel_saves throws _ T s tm I) in Hin; [|exact Hb].
    pose proof (inv_due s I) as Hd. rewrite Forall_forall in Hd.
    specialize (Hd tm Hin). cbn beta in Hd, Hlate. lia. }
  split; [exact Hp|]. split; [exact Hc|].
  destruct (bk_current _ B') as [F|[l [b Hcalls]]]; [congruence|].
  rewrite Hc in Hcalls. split; [now exists l, b|].
  intros Hf. rewrite (last_failed_snoc _ l _ b Hcalls) in Hf.
  apply negb_false_iff in Hf. subst b.
  assert (storage (advance throws T s)
          = Some (JSON_stringify (tasks_value (cur_tasks s)))) as Hs.
  { apply (bk_stored _ B'). rewrite Hcalls. now rewrite last_stored_snoc. }
  split; [exact Hs|]. intros Hper. rewrite Hs.
  rewrite (loadTasks_parsed O _ (map VObj (cur_tasks s)) w).
  - now rewrite mapM_load_persistable.
  - apply JSON_parse_stringify. now apply persistable_representable.
Qed.

Lemma restart_after_idle_witness :
  loadTasks frozen_oracle
    (storage (advance never_throws 1700
                (change_at never_throws 1200 [sample_task 1 true]
                   (advance never_throws 700 (mount 0 [sample_task 1 false] None)))))
    world0
  = ([sample_task 1 true], world0).
Proof.
  destruct (restart_after_idle never_throws frozen_oracle
              (change_at never_throws 1200 [sample_task 1 true]
                 (advance never_throws 700 (mount 0 [sample_task 1 false] None)))
              1700 world0) as [_ [_ [_ H]]].
  - apply reach_change; [apply reach_advance; [apply reach_mount|]|].
    + cbn. lia.
    + vm_compute. discriminate.
  - vm_compute. discriminate.
  - destruct H as [_ H]; [vm_compute; reflexivity|].
    apply H. vm_compute. reflexivity.
Defined.

(* ------------------------------------------------------------------ *)
(** ** The limit of the id counter *)

(** X19. The bound of 10,000 calls is the best the counter gives: on the
    fallback path, when the clock and the random digits are the same at two
    calls 10,000 apart, the two calls return the same id, so 10,001
    successive ids are not pairwise distinct. *)
Theorem generateId_wraps (O : oracle) (w : world) :
  no_crypto O -> 0 <= idCounter w ->
  Date_now O (reads w + Z.to_nat 10000) = Date_now O (reads w) ->
  substring 2 8 (Math_random_36 O (reads w + Z.to_nat 10000))
  = substring 2 8 (Math_random_36 O (reads w)) ->
  ~ NoDup (fst (generate_many O (S (Z.to_nat 10000)) w)).
Proof.
  intros Hn Hc Hd Hr.
  rewrite (generate_many_fallback O _ w Hn Hc).
  set (m := Z.to_nat 10000) in *.
  assert (Z.of_nat m = 10000) as Hm by (unfold m; apply Z2Nat.id; lia).
  set (f := fun j : nat =>
              fallback_id (toString36 (Date_now O (reads w + j)))
                (substring 2 8 (Math_random_36 O (reads w + j)))
                ((idCounter w + 1 + Z.of_nat j) mod 10000)).
  assert (f m = f 0%nat) as E.
  { unfold f. rewrite Hd, Hr, Nat.add_0_r, Hm. f_equal.
    rewrite Z.add_0_r.
    replace (idCounter w + 1 + 10000) with (idCounter w + 1 + 1 * 10000) by lia.
    apply Z.mod_add. lia. }
  cbn [seq map]. intros H. apply NoDup_cons_iff in H as [H _]. apply H.
  rewrite <- E. apply in_map. apply in_seq. lia.
Qed.

Lemma generateId_wraps_witness :
  ~ NoDup (fst (generate_many frozen_oracle (S (Z.to_nat 10000)) world0)).
Proof.
  apply (generateId_wraps frozen_oracle world0).
  - intros k. now left.
  - reflexivity.
  - reflexivity.
  - reflexivity.
Defined.

(* ------------------------------------------------------------------ *)
(** ** The cleaning of the model's answer *)

Lemma strip_prefix_app (p r : jsstring) : strip_prefix p (p ++ r) = Some r.
Proof.
  induction p as [|x p IH]; cbn [strip_prefix app]; [reflexivity|].
  now rewrite Z.eqb_refl.
Qed.

Lemma trim_start_ws_app (ws rest : jsstring) :
  forallb is_js_space ws = true -> trim_start (ws ++ rest) = trim_start rest.
Proof.
  induction ws as [|c ws IH]; cbn [forallb app trim_start]; [reflexivity|].
  intros H. apply andb_true_iff in H as [Hc H]. rewrite Hc. now apply IH.
Qed.

Lemma rev_last (J : jsstring) :
  J <> [] -> rev J = last J 0 :: rev (removelast J).
Proof.
  intros H. rewrite (app_removelast_last 0 H) at 1. apply rev_unit.
Qed.

Lemma bare_text_ends (J : jsstring) :
  bare_text J = true ->
  exists h body, J = h :: body
    /\ is_js_space h = false /\ h <> 96 /\ h <> 106
    /\ rev J = last J 0 :: rev (removelast J)
    /\ is_js_space (last J 0) = false /\ last J 0 <> 96.
Proof.
  destruct J as [|h body]; [discriminate|]. unfold bare_text. intros H.
  repeat (apply andb_true_iff in H as [H ?]).
  exists h, body. split; [reflexivity|].
  repeat split; try (now apply negb_true_iff);
    try (apply Z.eqb_neq; now apply negb_true_iff).
  now apply rev_last.
Qed.

Lemma closing_fence_off (J ws : jsstring) :
  bare_text J = true -> forallb is_js_space ws = true ->
  replace_closing s_fence (J ++ ws ++ s_fence) = J.
Proof.
  intros HJ Hws. destruct (bare_text_ends J HJ) as [h [body [_ [_ [_ [_ [R [Hl _]]]]]]]].
  unfold replace_closing. rewrite !rev_app_distr, <- app_assoc, strip_prefix_app.
  rewrite trim_start_ws_app by now rewrite forallb_rev'.
  rewrite R at 1. cbn [trim_start]. rewrite Hl, <- R. apply rev_involutive.
Qed.

(** The cleaning takes the fences off and nothing else: a bare text is left
    as it is, and comes out as it is when it is wrapped in an opening
    fence, with or without the [json] tag, and a closing fence, whatever
    white space separates them from it. *)
Lemma clean_fences_bare (J ws1 ws2 : jsstring) :
  bare_text J = true ->
  forallb is_js_space ws1 = true -> forallb is_js_space ws2 = true ->
  clean_fences J = J
  /\ clean_fences (s_fence_json ++ ws1 ++ J ++ ws2 ++ s_fence) = J
  /\ clean_fences (s_fence ++ ws1 ++ J ++ ws2 ++ s_fence) = J.
Proof.
  intros HJ H1 H2.
  destruct (bare_text_ends J HJ) as [h [body [E [Hh [H96 [H106 [R [Hl Hl96]]]]]]]].
  assert (forall rest, trim_start (ws1 ++ J ++ rest) = J ++ rest) as T.
  { intros rest. rewrite trim_start_ws_app by exact H1.
    rewrite E. cbn [app trim_start]. now rewrite Hh. }
  assert (forall rest, replace_opening s_fence (J ++ rest) = J ++ rest) as P.
  { intros rest. unfold replace_opening. rewrite E. cbn [app strip_prefix s_fence].
    now rewrite (proj2 (Z.eqb_neq h 96) H96). }
  assert (forall rest, replace_opening s_fence_json (J ++ rest) = J ++ rest) as Q.
  { intros rest. unfold replace_opening. rewrite E.
    cbn [app strip_prefix s_fence_json].
    now rewrite (proj2 (Z.eqb_neq h 96) H96). }
  unfold clean_fences. split; [|split].
  - rewrite <- (app_nil_r J) at 1. rewrite Q, P, app_nil_r.
    unfold replace_closing. rewrite R. cbn [rev s_fence app strip_prefix].
    now rewrite (proj2 (Z.eqb_neq _ 96) Hl96).
  - unfold replace_opening at 2. rewrite strip_prefix_app, T, P.
    now apply closing_fence_off.
  - assert (replace_opening s_fence_json (s_fence ++ ws1 ++ J ++ ws2 ++ s_fence)
            = s_fence ++ ws1 ++ J ++ ws2 ++ s_fence) as ->.
    { unfold replace_opening.
      destruct ws1 as [|c ws1].
      - rewrite E. cbn [app strip_prefix s_fence s_fence_json Z.eqb Pos.eqb].
        now rewrite (proj2 (Z.eqb_neq h 106) H106).
      - cbn [forallb] in H1. apply andb_true_iff in H1 as [Hc _].
        cbn [app strip_prefix s_fence s_fence_json Z.eqb Pos.eqb].
        destruct (c =? 106) eqn:C; [|reflexivity].
        apply Z.eqb_eq in C. subst c. discriminate Hc. }
    unfold replace_opening. rewrite strip_prefix_app, T.
    now apply closing_fence_off.
Qed.

Lemma Number_toString_range (n c : Z) :
  In c (Number_toString n) -> 45 <= c <= 57.
Proof.
  unfold Number_toString. intros H.
  destruct (Z.to_int n) as [u|u]; [|destruct H as [<-|H]; [lia|]];
    pose proof (uint_digits_are_digits u) as F;
    rewrite Forall_forall in F; apply F in H; lia.
Qed.

Lemma last_In {A} (l : list A) (d : A) : l <> [] -> In (last l d) l.
Proof.
  intros H. rewrite (app_removelast_last d H) at 2.
  apply in_or_app. right. now left.
Qed.

Lemma range_not_space (c : Z) :
  34 <= c <= 125 -> is_js_space c = false.
Proof.
  intros H. unfold is_js_space.
  repeat (apply orb_false_iff; split);
    try (apply andb_false_iff; (left; apply Z.leb_gt; lia) || (right; apply Z.leb_gt; lia));
    apply Z.eqb_neq; lia.
Qed.

(** Serialized text is bare. *)
Lemma stringify_bare (v : value) : bare_text (JSON_stringify v) = true.
Proof.
  assert (forall o c body, 34 <= o <= 125 -> o <> 96 -> o <> 106 ->
            34 <= c <= 125 -> c <> 96 -> bare_text (o :: body ++ [c]) = true)
    as Hb.
  { intros o c body Ho H1 H2 Hc H3. unfold bare_text.
    change (o :: body ++ [c]) with ((o :: body) ++ [c]). rewrite last_last.
    rewrite !range_not_space by assumption.
    now rewrite (proj2 (Z.eqb_neq o 96) H1), (proj2 (Z.eqb_neq o 106) H2),
      (proj2 (Z.eqb_neq c 96) H3). }
  destruct v as [|[|]|n|s|l|ps]; cbn [JSON_stringify];
    try reflexivity; try (apply Hb; lia).
  destruct (parse_number_toString n [] I) as [_ [c [r [E _]]]].
  assert (45 <= c <= 57) as Hc
    by (apply (Number_toString_range n); rewrite E; now left).
  assert (45 <= last (Number_toString n) 0 <= 57) as Hl.
  { apply (Number_toString_range n). apply last_In. rewrite E. discriminate. }
  unfold bare_text. rewrite E in *.
  rewrite !range_not_space by lia.
  rewrite (proj2 (Z.eqb_neq c 96)), (proj2 (Z.eqb_neq c 106)),
    (proj2 (Z.eqb_neq _ 96)) by lia. reflexivity.
Qed.

Lemma parseSmartInput_text (text : jsstring) :
  text <> [] ->
  parseSmartInput (Some text)
  = match JSON_parse (clean_fences text) with Ok v => Some v | Throw _ => None end.
Proof. destruct text; [contradiction | reflexivity]. Qed.

Lemma fenced_not_empty (p rest : jsstring) : p <> [] -> p ++ rest <> [].
Proof. intros H F. apply app_eq_nil in F as [F _]. contradiction. Qed.

(** X20. Fences make no difference to [parseSmartInput]: an answer wrapped
    in an opening fence, with or without the [json] tag, and a closing
    fence, whatever white space separates them from the text inside, gives
    what the text inside gives on its own, the parsed value or [null] when
    it is no JSON, provided the text inside is bare (it does not begin or
    end with white space or a backtick, nor begin with [j]). *)
Theorem parseSmartInput_ignores_fences (J ws1 ws2 : jsstring) :
  bare_text J = true ->
  forallb is_js_space ws1 = true -> forallb is_js_space ws2 = true ->
  parseSmartInput (Some J)
  = match JSON_parse J with Ok v => Some v | Throw _ => None end
  /\ parseSmartInput (Some (s_fence_json ++ ws1 ++ J ++ ws2 ++ s_fence))
     = parseSmartInput (Some J)
  /\ parseSmartInput (Some (s_fence ++ ws1 ++ J ++ ws2 ++ s_fence))
     = parseSmartInput (Some J).
Proof.
  intros HJ H1 H2. destruct (clean_fences_bare J ws1 ws2 HJ H1 H2) as [C1 [C2 C3]].
  destruct (bare_text_ends J HJ) as [h [body [E _]]].
  assert (J <> []) as Hne by (rewrite E; discriminate).
  rewrite !parseSmartInput_text
    by (exact Hne || (apply fenced_not_empty; discriminate)).
  now rewrite C1, C2, C3.
Qed.

Lemma parseSmartInput_ignores_fences_witness :
  parseSmartInput (Some (s_fence_json ++ [10] ++ lit "sorry" ++ [32; 10] ++ s_fence))
  = None
  /\ parseSmartInput (Some (s_fence ++ [] ++ lit "[1, 2]" ++ [10] ++ s_fence))
     = Some (VArr [VNum 1; VNum 2]).
Proof.
  split.
  - destruct (parseSmartInput_ignores_fences (lit "sorry") [10] [32; 10]
                eq_refl eq_refl eq_refl) as [_ [H _]].
    rewrite H. reflexivity.
  - destruct (parseSmartInput_ignores_fences (lit "[1, 2]") [] [10]
                eq_refl eq_refl eq_refl) as [_ [_ H]].
    rewrite H. reflexivity.
Defined.

(** X21. [parseSmartInput] returns the value the model's answer
    serializes, whether the answer is the JSON text alone or the text
    inside a fence, tagged [json] or not; an answer without text gives
    [null]. *)
Theorem parseSmartInput_reads_answer (v : value) (ws1 ws2 : jsstring) :
  representable v = true ->
  forallb is_js_space ws1 = true -> forallb is_js_space ws2 = true ->
  parseSmartInput (Some (JSON_stringify v)) = Some v
  /\ parseSmartInput (Some (s_fence_json ++ ws1 ++ JSON_stringify v ++ ws2 ++ s_fence))
     = Some v
  /\ parseSmartInput (Some (s_fence ++ ws1 ++ JSON_stringify v ++ ws2 ++ s_fence))
     = Some v
  /\ parseSmartInput None = None /\ parseSmartInput (Some []) = None.
Proof.
  intros Hrep H1 H2.
  destruct (clean_fences_bare _ ws1 ws2 (stringify_bare v) H1 H2) as [C1 [C2 C3]].
  destruct (bare_text_ends _ (stringify_bare v)) as [h [body [E _]]].
  assert (JSON_stringify v <> []) as Hne by (rewrite E; discriminate).
  pose proof (JSON_parse_stringify v Hrep) as Hp.
  rewrite !parseSmartInput_text
    by (exact Hne || (apply fenced_not_empty; discriminate)).
  rewrite C1, C2, C3, Hp. repeat split.
Qed.

Lemma parseSmartInput_reads_answer_witness :
  parseSmartInput
    (Some (s_fence_json ++ [10] ++ JSON_stringify (VObj unicode_task) ++ [10] ++ s_fence))
  = Some (VObj unicode_task).
Proof.
  destruct (parseSmartInput_reads_answer (VObj unicode_task) [10] [10]
              eq_refl eq_refl eq_refl) as [_ [H _]].
  exact H.
Defined.

(* ------------------------------------------------------------------ *)
(** ** The count of pending tasks *)

Lemma is_done_flipped (t : obj) : is_done (flipped t) = negb (is_done t).
Proof. unfold is_done. now rewrite flipped_isCompleted. Qed.

(** X22. The header's count of pending tasks is the dashboard's; with the
    completed ones it makes up the collection; a toggle moves the tasks
    with the given id from one side to the other, and a deletion takes the
    pending ones with that id out of the count. *)
Theorem pendingCount_accounting (a : jsstring) (ts : list obj) :
  pendingCount ts = totalPending ts
  /\ (pendingCount ts + totalCompleted ts = length ts)%nat
  /\ (pendingCount (toggleTask a ts)
      + length (filter (fun t => id_is a t && negb (is_done t)) ts)
      = pendingCount ts
        + length (filter (fun t => id_is a t && is_done t) ts))%nat
  /\ (pendingCount (deleteTask a ts)
      + length (filter (fun t => id_is a t && negb (is_done t)) ts)
      = pendingCount ts)%nat.
Proof.
  split; [reflexivity|]. unfold pendingCount, totalCompleted, toggleTask, deleteTask.
  split; [|split]; induction ts as [|t ts IH]; try reflexivity;
    cbn [map filter].
  - destruct (is_done t); cbn [negb length]; lia.
  - destruct (id_is a t) eqn:E; [rewrite is_done_flipped|];
      destruct (is_done t); cbn [negb andb length]; lia.
  - destruct (id_is a t) eqn:E; destruct (is_done t) eqn:D;
      cbn [negb andb filter length]; rewrite ?D; cbn [negb length]; lia.
Qed.

(* ------------------------------------------------------------------ *)
(** ** Smart entry *)

(** The task made of one element of the answer, and the world after it. *)
Lemma smart_task_eq (O : oracle) (t : value) (w : world) :
  t <> VNull ->
  smart_task O t w
  = (Ok (literal [ (k_id, Some (VStr (fst (generateId O w))));
                   (k_title, get_prop (own_props t) k_title);
                   (k_description, get_prop (own_props t) k_description);
                   (k_assignee, get_prop (own_props t) k_assignee);
                   (k_priority, get_prop (own_props t) k_priority);
                   (k_isCompleted, Some (VBool false));
                   (k_createdAt,
                    Some (VNum (Date_now O (reads (snd (generateId O w)))))) ]),
     snd (read_now O (snd (generateId O w)))).
Proof.
  intros Hn. unfold smart_task, bind, lift, fresh_id, current_time, ret.
  destruct (generateId O w) as [i w1]. cbn [fst snd].
  rewrite !(member_own_props t _ Hn) by reflexivity. reflexivity.
Qed.

Lemma smart_task_null (O : oracle) (w : world) :
  smart_task O VNull w = (Throw TypeError, snd (generateId O w)).
Proof.
  unfold smart_task, bind, lift, fresh_id. now destruct (generateId O w).
Qed.

Lemma smart_task_made_of (O : oracle) (t : value) (w : world) :
  t <> VNull ->
  exists o w', smart_task O t w = (Ok o, w') /\ made_of t o /\ is_done o = false.
Proof.
  intros Hn. rewrite (smart_task_eq O t w Hn). eexists; eexists.
  split; [reflexivity|]. unfold made_of.
  destruct (get_prop (own_props t) k_title) as [v1|],
    (get_prop (own_props t) k_description) as [v2|],
    (get_prop (own_props t) k_assignee) as [v3|],
    (get_prop (own_props t) k_priority) as [v4|];
    (split; [|reflexivity]);
    repeat split; try reflexivity; eexists; reflexivity.
Qed.

Lemma mapM_Forall2 {A B} (f : A -> M B) (R : A -> B -> Prop) (l : list A) (w : world) :
  (forall x w0, In x l -> exists y w1, f x w0 = (Ok y, w1) /\ R x y) ->
  exists ys w1, mapM f l w = (Ok ys, w1) /\ Forall2 R l ys.
Proof.
  revert w. induction l as [|x l IH]; intros w H.
  - exists [], w. split; [reflexivity | constructor].
  - destruct (H x w (or_introl eq_refl)) as [y [w1 [E Rxy]]].
    destruct (IH w1) as [ys [w2 [E2 Rs]]].
    { intros z w0 Hz. apply H. now right. }
    exists (y :: ys), w2. cbn [mapM]. unfold bind at 1. rewrite E.
    unfold bind at 1. rewrite E2. split; [reflexivity | now constructor].
Qed.

Lemma pending_all (ts : list obj) :
  Forall (fun t => is_done t = false) ts -> pendingCount ts = length ts.
Proof.
  unfold pendingCount. intros H. f_equal. apply filter_keeps_all.
  rewrite Forall_forall in H. intros t Ht. now rewrite (H t Ht).
Qed.

Lemma pendingCount_app (a b : list obj) :
  pendingCount (a ++ b) = (pendingCount a + pendingCount b)%nat.
Proof. unfold pendingCount. now rewrite filter_app, length_app. Qed.

(** X23. The state update of [handleSmartAdd] when the answer is an
    object whose [tasks] is an array that is not empty and holds no
    [null]: the collection it sets is one new task per element, in the
    order of the answer, followed by the tasks already there; each new
    task has the title, description, assignee and priority of its element
    as they are, a string id and [isCompleted = false]; the input is set to
    the empty text and the modal and processing flags to [false]; the
    pending count of the collection set is the previous one plus the
    number of elements.  Only the handler's state update is stated, not the
    render that follows it. *)
Theorem handleSmartAdd_adds (O : oracle) (ps : obj) (l : list value)
  (st : AppState) (f : SmartForm) :
  get_prop ps k_tasks = Some (VArr l) -> l <> [] -> ~ In VNull l ->
  exists newTasks,
    tasks (fst (smart_resume O (Some (VObj ps)) st f)) = newTasks ++ tasks st
    /\ Forall2 made_of l newTasks
    /\ snd (smart_resume O (Some (VObj ps)) st f)
       = {| smartInput := []; isProcessingAI := false |}
    /\ isAddModalOpen (fst (smart_resume O (Some (VObj ps)) st f)) = false
    /\ pendingCount (tasks (fst (smart_resume O (Some (VObj ps)) st f)))
       = (length l + pendingCount (tasks st))%nat.
Proof.
  intros Hg Hne Hnull.
  destruct (mapM_Forall2 (smart_task O)
              (fun src t => made_of src t /\ is_done t = false) l (env st))
    as [ts [w1 [E R]]].
  { intros x w0 Hx. apply smart_task_made_of. intros ->. contradiction. }
  exists ts. unfold smart_resume. rewrite Hg.
  destruct l as [|t l]; [contradiction|]. rewrite E. cbn [fst snd tasks isAddModalOpen].
  split; [reflexivity|]. split; [|split; [reflexivity|split; [reflexivity|]]].
  - eapply Forall2_impl; [|exact R]. now intros a b [H _].
  - rewrite pendingCount_app. f_equal. rewrite pending_all.
    + symmetry. eapply Forall2_length. exact R.
    + clear - R. induction R as [|a b l1 l2 [_ H] _ IH]; constructor; assumption.
Qed.

Lemma handleSmartAdd_adds_witness :
  exists newTasks,
    tasks (fst (smart_resume frozen_oracle
                  (Some (VObj [(k_tasks, VArr [record_without_id])]))
                  sample_state {| smartInput := s_milk; isProcessingAI := true |}))
    = newTasks ++ tasks sample_state
    /\ Forall2 made_of [record_without_id] newTasks.
Proof.
  destruct (handleSmartAdd_adds frozen_oracle [(k_tasks, VArr [record_without_id])]
              [record_without_id] sample_state
              {| smartInput := s_milk; isProcessingAI := true |})
    as [ts [H1 [H2 _]]].
  - reflexivity.
  - discriminate.
  - intros [F|[]]. discriminate F.
  - exists ts. now split.
Defined.

(** X24. In every other case the smart entry adds nothing: on a blank
    input no request is made and nothing changes at all; when the answer
    gives [null], a value that is not an object, an object whose [tasks] is
    not an array, an empty array, or an array with a [null] in it, the
    collection, the typed input and the modal are left as they are and the
    flag is lowered. *)
Theorem handleSmartAdd_rejects (O : oracle) (response_text : option jsstring)
  (result : option value) (st : AppState) (f : SmartForm) :
  (forall ps l, result = Some (VObj ps) -> get_prop ps k_tasks = Some (VArr l) ->
                l = [] \/ In VNull l) ->
  (trim (smartInput f) = [] -> handleSmartAdd O response_text st f = (st, f))
  /\ tasks (fst (smart_resume O result st f)) = tasks st
  /\ isAddModalOpen (fst (smart_resume O result st f)) = isAddModalOpen st
  /\ snd (smart_resume O result st f)
     = {| smartInput := smartInput f; isProcessingAI := false |}.
Proof.
  intros H. split.
  { intros Hb. unfold handleSmartAdd, smart_request. now rewrite Hb. }
  unfold smart_resume.
  destruct result as [[| | | | |ps]|]; try (repeat split; reflexivity).
  destruct (get_prop ps k_tasks) as [[| | | |l|]|] eqn:G;
    try (repeat split; reflexivity).
  destruct (H ps l eq_refl G) as [->|Hin]; [repeat split; reflexivity|].
  destruct l as [|t l]; [destruct Hin|].
  destruct (mapM_throw (smart_task O) (t :: l) VNull (env st) Hin) as [e [w1 E]].
  { intros w0. rewrite smart_task_null. eexists; eexists; reflexivity. }
  rewrite E. repeat split; reflexivity.
Qed.

Lemma handleSmartAdd_rejects_witness :
  tasks (fst (smart_resume frozen_oracle
                (Some (VObj [(k_tasks, VArr record_and_null)]))
                sample_state {| smartInput := s_milk; isProcessingAI := true |}))
  = tasks sample_state.
Proof.
  apply (handleSmartAdd_rejects frozen_oracle None
           (Some (VObj [(k_tasks, VArr record_and_null)])) sample_state
           {| smartInput := s_milk; isProcessingAI := true |}).
  intros ps l E G. injection E as <-. injection G as <-.
  right. right. now left.
Defined.

Lemma literal_task_fields (i : jsstring) (n : Z) (a b c d : option value) :
  let o := literal [ (k_id, Some (VStr i)); (k_title, a); (k_description, b);
                     (k_assignee, c); (k_priority, d);
                     (k_isCompleted, Some (VBool false));
                     (k_createdAt, Some (VNum n)) ] in
  get_prop o k_id = Some (VStr i)
  /\ get_prop o k_isCompleted = Some (VBool false)
  /\ get_prop o k_createdAt = Some (VNum n).
Proof. destruct a, b, c, d; repeat split; reflexivity. Qed.

Lemma literal_task_representable (i : jsstring) (n : Z) (a b c d : option value) :
  wf_stringb i = true -> safe_integerb n = true ->
  (forall v, a = Some v -> representable v = true) ->
  (forall v, b = Some v -> representable v = true) ->
  (forall v, c = Some v -> representable v = true) ->
  (forall v, d = Some v -> representable v = true) ->
  representable
    (VObj (literal [ (k_id, Some (VStr i)); (k_title, a); (k_description, b);
                     (k_assignee, c); (k_priority, d);
                     (k_isCompleted, Some (VBool false));
                     (k_createdAt, Some (VNum n)) ])) = true.
Proof.
  intros Hi Hn Ha Hb Hc Hd.
  destruct a as [va|], b as [vb|], c as [vc|], d as [vd|];
    cbn [literal representable]; (apply andb_true_iff; split; [reflexivity|]);
    cbn [forallb fst snd representable];
    rewrite ?(Ha _ eq_refl), ?(Hb _ eq_refl), ?(Hc _ eq_refl), ?(Hd _ eq_refl),
      Hi, Hn; reflexivity.
Qed.

(** On a representable element other than [null], the task made is valid
    and persistable. *)
Lemma smart_task_well_formed (O : oracle) (t : value) (w : world) :
  textual O -> clock_in_range O -> t <> VNull -> representable t = true ->
  exists o w', smart_task O t w = (Ok o, w')
               /\ valid_task o = true /\ persistable o = true.
Proof.
  intros HO HC Hn Hrep. rewrite (smart_task_eq O t w Hn).
  eexists; eexists. split; [reflexivity|].
  destruct (generateId_text O w HO) as [Hne Hwf].
  destruct (HC (reads (snd (generateId O w)))) as [Hz Hs].
  apply own_props_representable in Hrep.
  pose proof (literal_task_representable (fst (generateId O w))
                (Date_now O (reads (snd (generateId O w))))
                (get_prop (own_props t) k_title)
                (get_prop (own_props t) k_description)
                (get_prop (own_props t) k_assignee)
                (get_prop (own_props t) k_priority) Hwf Hs
                (fun v => representable_get_prop _ _ v Hrep)
                (fun v => representable_get_prop _ _ v Hrep)
                (fun v => representable_get_prop _ _ v Hrep)
                (fun v => representable_get_prop _ _ v Hrep)) as R.
  destruct (literal_task_fields (fst (generateId O w))
              (Date_now O (reads (snd (generateId O w))))
              (get_prop (own_props t) k_title)
              (get_prop (own_props t) k_description)
              (get_prop (own_props t) k_assignee)
              (get_prop (own_props t) k_priority)) as [F1 [F2 F3]].
  unfold valid_task, persistable. rewrite R, F1, F2, F3.
  cbn [truthy_opt truthy is_boolean]. apply Z.eqb_neq in Hz. rewrite Hz.
  destruct (fst (generateId O w)); [contradiction | now split].
Qed.

(** X25. The smart entry keeps the collection well formed: when the answer
    is a representable value, a valid collection stays valid and a
    persistable one persistable, whatever the answer holds and whether
    tasks are added or not. *)
Theorem handleSmartAdd_keeps_well_formed (O : oracle) (result : option value)
  (st : AppState) (f : SmartForm) :
  textual O -> clock_in_range O ->
  (forall v, result = Some v -> representable v = true) ->
  (valid_collection (tasks st) = true ->
   valid_collection (tasks (fst (smart_resume O result st f))) = true)
  /\ (forallb persistable (tasks st) = true ->
      forallb persistable (tasks (fst (smart_resume O result st f))) = true).
Proof.
  intros HO HC Hrep. unfold smart_resume.
  destruct result as [[| | | | |ps]|]; try (split; intros H; exact H).
  destruct (get_prop ps k_tasks) as [[| | | |l|]|] eqn:G;
    try (split; intros H; exact H).
  destruct l as [|t l]; [split; intros H; exact H|].
  pose proof (representable_get_prop ps k_tasks _ (Hrep _ eq_refl) G) as Hl.
  cbn [representable] in Hl. rewrite forallb_forall in Hl.
  destruct (mapM (smart_task O) (t :: l) (env st)) as [[ts|e] w1] eqn:E;
    [|split; intros H; exact H].
  assert (~ In VNull (t :: l)) as Hnull.
  { intros Hin.
    destruct (mapM_throw (smart_task O) (t :: l) VNull (env st) Hin) as [e [w2 F]].
    - intros w0. rewrite smart_task_null. eexists; eexists; reflexivity.
    - congruence. }
  destruct (mapM_all (smart_task O)
              (fun o => valid_task o = true /\ persistable o = true)
              (t :: l) (env st)) as [ts' [w' [E' [Hall _]]]].
  { intros x w0 Hx. apply smart_task_well_formed; try assumption.
    - intros ->. contradiction.
    - now apply Hl. }
  rewrite E in E'. injection E' as <- _. cbn [fst tasks].
  unfold valid_collection. rewrite !forallb_app.
  rewrite Forall_forall in Hall.
  split; intros H; rewrite H, andb_true_r; apply forallb_forall;
    intros o Ho; now destruct (Hall o Ho).
Qed.

Lemma handleSmartAdd_keeps_well_formed_witness :
  valid_collection
    (tasks (fst (smart_resume frozen_oracle
                   (Some (VObj [(k_tasks, VArr [record_without_id])]))
                   sample_state {| smartInput := s_milk; isProcessingAI := true |})))
  = true.
Proof.
  destruct (handleSmartAdd_keeps_well_formed frozen_oracle
              (Some (VObj [(k_tasks, VArr [record_without_id])]))
              sample_state {| smartInput := s_milk; isProcessingAI := true |})
    as [H _].
  - exact textual_frozen.
  - exact clock_frozen.
  - intros v E. injection E as <-. reflexivity.
  - apply H. reflexivity.
Defined.

(* ------------------------------------------------------------------ *)
(** ** The daily quote *)

(** X26. Whatever the model does, the quote set at start-up is not empty:
    it is the model's text when that is not empty,
    [Keep up the great work, sisters!] when the answer has no text or an
    empty one, and [You're doing great together!] when the request
    throws. *)
Theorem fetchQuote_never_empty (outcome : ai_outcome) (dailyQuote : jsstring) :
  fetchQuote outcome dailyQuote <> []
  /\ (forall text, outcome = AiAnswers (Some text) -> text <> [] ->
                   fetchQuote outcome dailyQuote = text)
  /\ (outcome = AiAnswers None \/ outcome = AiAnswers (Some []) ->
      fetchQuote outcome dailyQuote = s_keep_up)
  /\ (outcome = AiThrows -> fetchQuote outcome dailyQuote = s_doing_great).
Proof.
  unfold fetchQuote, getMotivationalMessage.
  destruct outcome as [|[[|c t]|]]; (split; [discriminate|]);
    (split; [|split]);
    try (intros text E; try discriminate E; injection E as <-; intros H;
         (reflexivity || contradiction));
    try (intros [E|E]; (reflexivity || discriminate E));
    try (intros E; (reflexivity || discriminate E)).
Qed.
